(** * BatSAT: the constraint store, rule completion and the flip search

    A shallow embedding of [src/index.ts] (class [Problem]),
    [src/Solution.ts] (class [Solution]) and [src/attrs-and-props.ts]
    ([lookupAttributeInMap]).

    Conventions of the embedding.
    - Attribute ids ([InternalAttribute]) are [nat]; literals
      ([InternalProposition], a signed id) are [Z].
    - The numeric arguments of [quantify], [exactly], [atLeast], [atMost]
      are JavaScript numbers.  Every finite double is a rational, and
      [Math.ceil], [Math.floor], [Math.round] and the comparisons are exact
      on them, so these arguments are modelled in [Q]; NaN and the
      infinities are outside the model.
    - JavaScript objects used as dictionaries ([toInternal] and its nested
      maps, [rules]) are [gmap]s.  A plain object also answers at the names
      it inherits from [Object.prototype].  Where the source reads
      [toInternal] at such a name the model throws the [TypeError] the
      source throws.  Where the source reads a nested map at such a name it
      goes on with the inherited function, and with whatever properties the
      runtime gives it; the model does not follow it there.  [clean_attr],
      [clean_prop], [clean_call] and [clean_reachable] delimit the calls on
      which no such read is made, and on them the model is the source.
    - A method of [Problem] is a function from the state before the call to
      the state after it together with what the call returned or threw: a
      call that throws keeps the mutations it made before throwing.
    - [Math.random()] is an oracle [rand : nat -> Q]: the [k]-th call of a
      run returns [rand k]. *)

Set Warnings "-abstract-large-number".

From Stdlib Require Import ZArith QArith Qround Ascii String List Lia.
From stdpp Require Import base option list gmap strings sorting.

Local Open Scope Z_scope.
Local Open Scope list_scope.

(** ** attrs-and-props.ts *)

Abbreviation Attribute := string (only parsing).
Abbreviation Proposition := string (only parsing).
Abbreviation InternalAttribute := nat (only parsing).
Abbreviation InternalProposition := Z (only parsing).

(** What a call can throw.  One constructor per [throw] site of the
    sources; the message text is dropped, the values interpolated into it
    that identify the site are kept.  [NotAFunction key method] is the
    [TypeError] of calling [method] on what [toInternal[key]] reads when
    [key] is not stored and names an inherited property. *)
Inductive Error : Type :=
| IllFormedPredicate (predicate attribute : string)
| IllFormedArgument (arg attribute : string)
| NoPredicateDeclared (predicate : string)
| WrongArity (attribute : string)
| InvalidArgument (position : nat) (arg : string)
| ImpossibleArity (attribute : string)
| NotAFunction (key method : string)
| QuantifyUnsatisfiable
| QuantifyTrivial
| ExactlyUnsatisfiable
| ExactlyTrivial
| AllTrivial
| AtLeastUnsatisfiable
| AtLeastTrivial
| AtMostUnsatisfiable
| AtMostTrivial
| UniqueUnsatisfiable
| EqualVacuous
| RuleConclusionNegated (conclusion : string)
| Timeout
| UnsupportedArity (name : string) (arity : nat)
| BadPredicateName (name : string)
| BadElementName (member : string)
| Redeclared (name : string)
| DefinedAfterSolution (attribute : string).

Inductive Outcome (A : Type) : Type :=
| Returned (a : A)
| Threw (e : Error).
Arguments Returned {A} a.
Arguments Threw {A} e.

Definition threw {A} (o : Outcome A) : Prop := exists e, o = Threw e.

(** The four slots of an [AttributeMap] entry, one per arity. *)
Record AttrSlots : Type := mkSlots {
  slot0 : option nat;
  slot1 : option (gmap string nat);
  slot2 : option (gmap string (gmap string nat));
  slot3 : option (gmap string (gmap string (gmap string nat)))
}.

Abbreviation AttributeMap := (gmap string AttrSlots) (only parsing).

(** [attributeMap.every((x) => x === undefined)] *)
Definition slots_all_undefined (s : AttrSlots) : bool :=
  match slot0 s, slot1 s, slot2 s, slot3 s with
  | None, None, None, None => true
  | _, _, _, _ => false
  end.

(** [attributeMap.findIndex((x) => x !== undefined)], [None] for [-1]. *)
Definition slots_findIndex (s : AttrSlots) : option nat :=
  match slot0 s, slot1 s, slot2 s, slot3 s with
  | Some _, _, _, _ => Some 0%nat
  | None, Some _, _, _ => Some 1%nat
  | None, None, Some _, _ => Some 2%nat
  | None, None, None, Some _ => Some 3%nat
  | None, None, None, None => None
  end.

(** [s.split(' ')]: never empty, consecutive spaces give empty pieces. *)
Fixpoint split_space (s : string) : list string :=
  match s with
  | EmptyString => [EmptyString]
  | String c s' =>
      if Ascii.eqb c " "%char then EmptyString :: split_space s'
      else match split_space s' with
           | [] => [String c EmptyString]
           | w :: ws => String c w :: ws
           end
  end.

Definition is_lower (c : ascii) : bool :=
  let n := nat_of_ascii c in ((97 <=? n) && (n <=? 122))%nat.
Definition is_upper (c : ascii) : bool :=
  let n := nat_of_ascii c in ((65 <=? n) && (n <=? 90))%nat.
Definition is_digit (c : ascii) : bool :=
  let n := nat_of_ascii c in ((48 <=? n) && (n <=? 57))%nat.
Definition is_word (c : ascii) : bool :=
  is_upper c || is_lower c || is_digit c || Ascii.eqb c "_"%char.

Fixpoint all_word (s : string) : bool :=
  match s with
  | EmptyString => true
  | String c s' => is_word c && all_word s'
  end.

(** [s.match(IDENT_REGEX)] with [IDENT_REGEX = /^[a-z][A-Za-z0-9_]*$/]. *)
Definition IDENT_REGEX (s : string) : bool :=
  match s with
  | EmptyString => false
  | String c s' => is_lower c && all_word s'
  end.

(** The identifiers that name a property every JavaScript object inherits
    from [Object.prototype]; each of them is a function there.  A
    dictionary of the source is a plain object: read at a key that is not
    stored in it, it answers [undefined] unless the key is one of these,
    and then answers the inherited function. *)
Definition inherited_names : list string :=
  [ "constructor"; "hasOwnProperty"; "isPrototypeOf"; "propertyIsEnumerable";
    "toLocaleString"; "toString"; "valueOf" ]%string.

Definition inherited (key : string) : bool :=
  bool_decide (key ∈ inherited_names).

(** Truthiness of a number-or-undefined: [undefined] and [0] are falsy. *)
Definition truthy_id (o : option nat) : option nat :=
  match o with
  | Some (S n) => Some (S n)
  | _ => None
  end.

(** The [switch (args.length)] of [lookupAttributeInMap].  The nested
    dictionaries are [gmap]s: an argument that is not stored and is one of
    the [inherited_names] reads [undefined] here, where the source reads
    the inherited function and goes on with it.  The model is the source
    on the attributes none of whose arguments is an inherited name
    ([clean_attr] below); what is proved of the program is stated for
    them. *)
Definition switch_args (attribute : Attribute) (args : list string)
    (attributeMap : AttrSlots) : Outcome nat :=
  match args with
  | [] =>
      match truthy_id (slot0 attributeMap) with
      | None => Threw (WrongArity attribute)
      | Some id => Returned id
      end
  | [x] =>
      match slot1 attributeMap with
      | None => Threw (WrongArity attribute)
      | Some m1 =>
          match truthy_id (m1 !! x) with
          | None => Threw (InvalidArgument 1 x)
          | Some id => Returned id
          end
      end
  | [x; y] =>
      match slot2 attributeMap with
      | None => Threw (WrongArity attribute)
      | Some m2 =>
          match m2 !! x with
          | None => Threw (InvalidArgument 1 x)
          | Some m1 =>
              match truthy_id (m1 !! y) with
              | None => Threw (InvalidArgument 2 y)
              | Some id => Returned id
              end
          end
      end
  | [x; y; z] =>
      match slot3 attributeMap with
      | None => Threw (WrongArity attribute)
      | Some m3 =>
          match m3 !! x with
          | None => Threw (InvalidArgument 1 x)
          | Some m2 =>
              match m2 !! y with
              | None => Threw (InvalidArgument 2 y)
              | Some m1 =>
                  match truthy_id (m1 !! z) with
                  | None => Threw (InvalidArgument 3 z)
                  | Some id => Returned id
                  end
              end
          end
      end
  | _ => Threw (ImpossibleArity attribute)
  end.

(** [lookupAttributeInMap(attribute, map)].  For a predicate that is not
    stored, [map[predicate]] is [undefined] and the source throws its own
    error, unless the predicate is an inherited name: then it is a
    function, which has no [every], and the call of it throws. *)
Definition lookupAttributeInMap (attribute : Attribute) (map : AttributeMap)
  : Outcome nat :=
  match split_space attribute with
  | [] => Threw (IllFormedPredicate EmptyString attribute)
  | predicate :: args =>
      if negb (IDENT_REGEX predicate) then
        Threw (IllFormedPredicate predicate attribute)
      else
        match List.find (fun arg => negb (IDENT_REGEX arg)) args with
        | Some arg => Threw (IllFormedArgument arg attribute)
        | None =>
            match map !! predicate with
            | None =>
                if inherited predicate
                then Threw (NotAFunction predicate "every")
                else Threw (NoPredicateDeclared predicate)
            | Some attributeMap =>
                if slots_all_undefined attributeMap then
                  Threw (NoPredicateDeclared predicate)
                else switch_args attribute args attributeMap
            end
        end
  end.

(** ** index.ts: the state of a [Problem] *)

Abbreviation Assignment := (list bool) (only parsing).
Abbreviation Clause := (list Z) (only parsing).

Record Constraint : Type := mkConstraint {
  lo : Z;
  hi : Z;
  clause : list Z
}.

Record Problem : Type := mkProblem {
  fromInternal : list string;
  toInternal : gmap string AttrSlots;
  constraints : list Constraint;
  rules : gmap nat (list Z);
  nonRuleConstraints : option nat
}.

(** [new Problem()] *)
Definition new_Problem : Problem :=
  {| fromInternal := [""%string];
     toInternal := ∅;
     constraints := [];
     rules := ∅;
     nonRuleConstraints := None |}.

(** ** Methods as state transformers that may throw *)

Definition M (A : Type) : Type := Problem -> Problem * Outcome A.

Definition ret {A} (a : A) : M A := fun p => (p, Returned a).
Definition throw {A} (e : Error) : M A := fun p => (p, Threw e).
Definition bind {A B} (m : M A) (k : A -> M B) : M B :=
  fun p =>
    match m p with
    | (p', Returned a) => k a p'
    | (p', Threw e) => (p', Threw e)
    end.

Declare Scope prob_scope.
Delimit Scope prob_scope with prob.
Notation "'let*' x := m 'in' k" := (bind m (fun x => k))
  (at level 10, x name, m at level 100, k at level 200) : prob_scope.
Notation "m ';;' k" := (bind m (fun _ => k))
  (at level 100, k at level 200, right associativity) : prob_scope.
Local Open Scope prob_scope.

Definition get : M Problem := fun p => (p, Returned p).

(** [arr.map(f)] for an [f] that may throw: left to right, stops at the
    first throw. *)
Fixpoint mapM {A B} (f : A -> M B) (l : list A) : M (list B) :=
  match l with
  | [] => ret []
  | x :: l' => let* y := f x in let* ys := mapM f l' in ret (y :: ys)
  end.

(** [reset()] *)
Definition reset_state (p : Problem) : Problem :=
  {| fromInternal := fromInternal p;
     toInternal := toInternal p;
     constraints :=
       match nonRuleConstraints p with
       | Some n => take n (constraints p)
       | None => constraints p
       end;
     rules := rules p;
     nonRuleConstraints := None |}.

Definition reset : M unit := fun p => (reset_state p, Returned tt).

(** [this.constraints.push(...cs)] *)
Definition push_state (cs : list Constraint) (p : Problem) : Problem :=
  {| fromInternal := fromInternal p;
     toInternal := toInternal p;
     constraints := constraints p ++ cs;
     rules := rules p;
     nonRuleConstraints := nonRuleConstraints p |}.

Definition push_constraints (cs : list Constraint) : M unit :=
  fun p => (push_state cs p, Returned tt).

(** [prop[0] === '!' ? [-1, prop.slice(1)] : [1, prop]] *)
Definition sign_and_attribute (prop : Proposition) : Z * Attribute :=
  match prop with
  | String c rest => if Ascii.eqb c "!" then (-1, rest) else (1, prop)
  | EmptyString => (1, prop)
  end.

(** [this.lookup(prop)] as a function of the registry.  The source
    multiplies the sign with whatever [lookupAttributeInMap] returns; for a
    proposition over a [clean_attr] attribute that is a stored id. *)
Definition lookup_in (map : gmap string AttrSlots) (prop : Proposition)
  : Outcome Z :=
  let '(sign, attribute) := sign_and_attribute prop in
  match lookupAttributeInMap attribute map with
  | Returned id => Returned (sign * Z.of_nat id)
  | Threw e => Threw e
  end.

(** [this.lookup(prop)] *)
Definition lookup (prop : Proposition) : M Z :=
  fun p => (p, lookup_in (toInternal p) prop).

(** [arr.length] as a number. *)
Definition len {A} (l : list A) : Z := Z.of_nat (length l).

(** [0 <= max && Math.ceil(min) <= Math.floor(max) && min <= propositions.length] *)
Definition quantify_feasible (min max : Q) (propositions : list Proposition)
  : bool :=
  Qle_bool 0 max
  && (Qceiling min <=? Qfloor max)
  && Qle_bool min (inject_Z (len propositions)).

(** [min <= 0 && max >= propositions.length] *)
Definition quantify_trivial (min max : Q) (propositions : list Proposition)
  : bool :=
  Qle_bool min 0 && Qle_bool (inject_Z (len propositions)) max.

(** [quantify(min, max, propositions)] *)
Definition quantify (min max : Q) (propositions : list Proposition) : M unit :=
  if negb (quantify_feasible min max propositions)
  then throw QuantifyUnsatisfiable
  else if quantify_trivial min max propositions
  then throw QuantifyTrivial
  else
    let* clause := mapM lookup propositions in
    reset;;
    push_constraints
      [ {| clause := clause;
           lo := Z.max 0 (Qceiling min);
           hi := Z.min (len propositions) (Qfloor max) |} ].

(** [Math.round(n) === n]; [Math.round] rounds half up. *)
Definition is_rounded (n : Q) : bool :=
  Qeq_bool (inject_Z (Qfloor (n + (1 # 2)))) n.

(** [exactly(n, propositions)] *)
Definition exactly (n : Q) (propositions : list Proposition) : M unit :=
  if negb (Qle_bool 0 n
           && Qle_bool n (inject_Z (len propositions))
           && is_rounded n)
  then throw ExactlyUnsatisfiable
  else if (length propositions =? 0)%nat then throw ExactlyTrivial
  else quantify n n propositions.

(** [all(propositions)] *)
Definition all (propositions : list Proposition) : M unit :=
  if (length propositions =? 0)%nat then throw AllTrivial
  else quantify (inject_Z (len propositions)) (inject_Z (len propositions))
         propositions.

(** [atLeast(min, propositions)] *)
Definition atLeast (min : Q) (propositions : list Proposition) : M unit :=
  if negb (Qle_bool min (inject_Z (len propositions)))
  then throw AtLeastUnsatisfiable
  else if Qle_bool min 0 then throw AtLeastTrivial
  else quantify min (inject_Z (len propositions)) propositions.

(** [atMost(max, propositions)] *)
Definition atMost (max : Q) (propositions : list Proposition) : M unit :=
  if negb (Qle_bool 0 max) then throw AtMostUnsatisfiable
  else if Qle_bool (inject_Z (len propositions)) max then throw AtMostTrivial
  else quantify 0 max propositions.

(** [unique(propositions)] *)
Definition unique (propositions : list Proposition) : M unit :=
  if (length propositions =? 0)%nat then throw UniqueUnsatisfiable
  else quantify 1 1 propositions.

(** [inconsistent(a, b)] *)
Definition inconsistent (a b : Proposition) : M unit := atMost 1 [a; b].

(** [implies(premises, conclusion)] *)
Definition implies (premises : list Proposition) (conclusion : Proposition)
  : M unit :=
  let* conc := lookup conclusion in
  let* prems := mapM (fun prem => let* l := lookup prem in ret (- l)) premises in
  let clause := prems ++ [conc] in
  reset;;
  push_constraints [ {| clause := clause; lo := 1; hi := len clause |} ].

(** [iff(premises, conclusion)] *)
Definition iff (premises : list Z) (conclusion : Z) : M unit :=
  push_constraints
    (map (fun premise => {| clause := [premise; - conclusion]; lo := 1; hi := 2 |})
         premises);;
  let clause := map (fun prem => - prem) premises ++ [conclusion] in
  push_constraints [ {| clause := clause; lo := 1; hi := len clause |} ].

(** [generate(prop)]; [generate()] is [generate ""], as [prop || ''] is. *)
Definition generate_state (prop : Attribute) (p : Problem) : Problem :=
  {| fromInternal := fromInternal p ++ [prop];
     toInternal := toInternal p;
     constraints := constraints p;
     rules := rules p;
     nonRuleConstraints := nonRuleConstraints p |}.

Definition generate (prop : Attribute) : M nat :=
  fun p => (generate_state prop p, Returned (length (fromInternal p))).

(** [equal(a, b)].  The tests on [a.length] and [b.length] are the
    patterns; [a[0]] is the head of a one-element list. *)
Definition equal (a b : list Proposition) : M unit :=
  match a, b with
  | [], [] => throw EqualVacuous
  | [], _ => all b
  | _, [] => all a
  | [a0], [b0] =>
      reset;;
      let* literalA := lookup a0 in
      let* literalB := lookup b0 in
      push_constraints
        [ {| lo := 1; hi := 2; clause := [literalA; - literalB] |};
          {| lo := 1; hi := 2; clause := [- literalA; literalB] |} ]
  | [a0], _ =>
      reset;;
      let* premises := mapM lookup b in
      let* conclusion := lookup a0 in
      iff premises conclusion
  | _, [b0] =>
      reset;;
      let* premises := mapM lookup a in
      let* conclusion := lookup b0 in
      iff premises conclusion
  | _, _ =>
      reset;;
      let* hiddenPred := generate "" in
      let* conjunctA := mapM lookup a in
      let* conjunctB := mapM lookup b in
      iff conjunctA (Z.of_nat hiddenPred);;
      iff conjunctB (Z.of_nat hiddenPred)
  end.

(** [assert(a)] *)
Definition assert (a : Proposition) : M unit := all [a].

(** [if (!this.rules[conc]) this.rules[conc] = []; this.rules[conc].push(j)] *)
Definition push_rule_state (conc : nat) (j : Z) (p : Problem) : Problem :=
  {| fromInternal := fromInternal p;
     toInternal := toInternal p;
     constraints := constraints p;
     rules := <[conc := default [] (rules p !! conc) ++ [j]]> (rules p);
     nonRuleConstraints := nonRuleConstraints p |}.

Definition push_rule (conc : nat) (j : Z) : M unit :=
  fun p => (push_rule_state conc j p, Returned tt).

(** [rule(conclusion, premises)] *)
Definition rule (conclusion : Attribute) (premises : list Proposition)
  : M unit :=
  let* conc := lookup conclusion in
  let* prems := mapM lookup premises in
  if conc <? 0 then throw (RuleConclusionNegated conclusion)
  else
    implies premises conclusion;;
    match prems with
    | [] => push_rule (Z.to_nat conc) 0
    | [prem] => push_rule (Z.to_nat conc) prem
    | _ =>
        let* standin := generate "" in
        iff prems (Z.of_nat standin);;
        push_rule (Z.to_nat conc) (Z.of_nat standin)
    end.

(** A [for ... of] loop whose body runs in [M] and updates an accumulator. *)
Fixpoint foldM {A B} (f : B -> A -> M B) (b : B) (l : list A) : M B :=
  match l with
  | [] => ret b
  | x :: l' => let* b' := f b x in foldM f b' l'
  end.

(** [this.toInternal[name] = slots] *)
Definition set_slots_state (name : string) (slots : AttrSlots) (p : Problem)
  : Problem :=
  {| fromInternal := fromInternal p;
     toInternal := <[name := slots]> (toInternal p);
     constraints := constraints p;
     rules := rules p;
     nonRuleConstraints := nonRuleConstraints p |}.

Definition set_slots (name : string) (slots : AttrSlots) : M unit :=
  fun p => (set_slots_state name slots p, Returned tt).

Definition sp (a b : string) : string := (a +:+ " " +:+ b)%string.

(** [this.toInternal[key]] reads an inherited function: [key] is not
    stored and is an inherited name. *)
Definition reads_inherited {A} (m : gmap string A) (key : string) : bool :=
  match m !! key with
  | None => inherited key
  | Some _ => false
  end.

(** [attribute(name, args)].  The source stores the four-slot entry and
    the empty nested map first and fills the map in place while it mints
    the ids; nothing can throw in between, so the entry is stored here once
    the map is built.  When [this.toInternal[name]] reads an inherited
    function, the call of its [findIndex] throws. *)
Definition attribute (name : string) (args : list (list string)) : M unit :=
  let arity := length args in
  if (4 <=? arity)%nat then throw (UnsupportedArity name arity)
  else if negb (IDENT_REGEX name) then throw (BadPredicateName name)
  else
    match List.find (fun member => negb (IDENT_REGEX member)) (concat args) with
    | Some member => throw (BadElementName member)
    | None =>
        let* p := get in
        if reads_inherited (toInternal p) name
        then throw (NotAFunction name "findIndex")
        else
        match toInternal p !! name ≫= slots_findIndex with
        | Some existingArity => throw (Redeclared name)
        | None =>
            match args with
            | [] =>
                let* id := generate name in
                set_slots name (mkSlots (Some id) None None None)
            | [d0] =>
                let* map :=
                  foldM (fun (map : gmap string nat) x =>
                           let* id := generate (sp name x) in
                           ret (<[x := id]> map)) ∅ d0 in
                set_slots name (mkSlots None (Some map) None None)
            | [d0; d1] =>
                let* map :=
                  foldM (fun (map : gmap string (gmap string nat)) x =>
                           let* mx :=
                             foldM (fun (mx : gmap string nat) y =>
                                      let* id := generate (sp (sp name x) y) in
                                      ret (<[y := id]> mx)) ∅ d1 in
                           ret (<[x := mx]> map)) ∅ d0 in
                set_slots name (mkSlots None None (Some map) None)
            | [d0; d1; d2] =>
                let* map :=
                  foldM (fun (map : gmap string (gmap string (gmap string nat))) x =>
                           let* mx :=
                             foldM (fun (mx : gmap string (gmap string nat)) y =>
                                      let* mxy :=
                                        foldM (fun (mxy : gmap string nat) z =>
                                                 let* id :=
                                                   generate (sp (sp (sp name x) y) z) in
                                                 ret (<[z := id]> mxy)) ∅ d2 in
                                      ret (<[y := mxy]> mx)) ∅ d1 in
                           ret (<[x := mx]> map)) ∅ d0 in
                set_slots name (mkSlots None None None (Some map))
            | _ => ret tt
            end
        end
    end.

(** ** Scoring: [satisfies] *)

(** [arr[i]] for a JavaScript number [i]: [undefined] outside the array. *)
Definition js_index {A} (l : list A) (i : Z) : option A :=
  if i <? 0 then None else l !! Z.to_nat i.

(** The inner [lookup(assignment, literal)]; [undefined] is falsy. *)
Definition lookup_lit (assignment : list bool) (literal : Z) : bool :=
  if literal <? 0 then negb (default false (js_index assignment (- literal)))
  else default false (js_index assignment literal).

(** [suggestionMap[Math.abs(literal)] += d].  An index past the end would
    store NaN past the end, which the selection loop never picks: no entry
    of the array proper changes. *)
Definition bump (d : Z) (literal : Z) (suggestionMap : list Z) : list Z :=
  alter (Z.add d) (Z.abs_nat literal) suggestionMap.

(** [for (const literal of clause) if (lookup(...) is want) map[...] += d] *)
Definition bump_where (assignment : list bool) (want : bool) (d : Z)
    (clause : list Z) (suggestionMap : list Z) : list Z :=
  foldl (fun sm literal =>
           if Bool.eqb (lookup_lit assignment literal) want
           then bump d literal sm else sm)
        suggestionMap clause.

Definition numLiteralsInClauseSatisfied (assignment : list bool)
    (clause : list Z) : Z :=
  foldl (fun accum literal =>
           if lookup_lit assignment literal then accum + 1 else accum)
        0 clause.

(** The body of the [reduce] over [this.constraints]. *)
Definition score_step (assignment : list bool) (st : Z * list Z)
    (c : Constraint) : Z * list Z :=
  let '(accum, sm) := st in
  let n := numLiteralsInClauseSatisfied assignment (clause c) in
  if (lo c <=? n) && (n <=? hi c) then
    let sm := if lo c =? n
              then bump_where assignment true (-1) (clause c) sm else sm in
    let sm := if hi c =? n
              then bump_where assignment false (-1) (clause c) sm else sm in
    (accum + 1, sm)
  else
    let sm := if n =? lo c - 1
              then bump_where assignment false 1 (clause c) sm else sm in
    let sm := if n =? hi c + 1
              then bump_where assignment true 1 (clause c) sm else sm in
    (accum, sm).

Definition score (cs : list Constraint) (assignment : list bool)
  : Z * list Z :=
  foldl (score_step assignment) (0, map (fun _ => 0) assignment) cs.

(** The selection loop [for (let i = 1; i < suggestionMap.length; i++)];
    [bestNum] is never assigned after its initialisation. *)
Definition pick_best (suggestionMap : list Z) : list nat :=
  let bestNum := 0 in
  foldl (fun best i =>
           let s := default 0 (suggestionMap !! i) in
           let best := if s =? bestNum then best ++ [i] else best in
           if s >? bestNum then [i] else best)
        [] (seq 1 (length suggestionMap - 1)).

Record SatResult : Type := mkSat {
  clausesSatisfied : Z;
  suggestion : option nat
}.

(** ** The search: [solve] *)

(** Computations that call [Math.random()]: the state is the number of
    calls made so far. *)
Definition R (A : Type) : Type := nat -> A * nat.
Definition rret {A} (a : A) : R A := fun k => (a, k).
Definition rbind {A B} (m : R A) (f : A -> R B) : R B :=
  fun k => let '(a, k') := m k in f a k'.

Declare Scope rand_scope.
Delimit Scope rand_scope with rand.
Notation "'let*' x := m 'in' k" := (rbind m (fun x => k))
  (at level 10, x name, m at level 100, k at level 200) : rand_scope.

Fixpoint rmapM {A B} (f : A -> R B) (l : list A) : R (list B) :=
  match l with
  | [] => rret []
  | x :: l' =>
      (let* y := f x in let* ys := rmapM f l' in rret (y :: ys))%rand
  end.

(** [assignment[i] = !assignment[i]] for a JavaScript number [i].  A
    negative [i] names a property, not an element.  Past the end the array
    grows; the holes read as [undefined], which is falsy. *)
Definition flip (assignment : list bool) (i : Z) : list bool :=
  if i <? 0 then assignment
  else
    let n := Z.to_nat i in
    if (n <? length assignment)%nat
    then <[n := negb (default false (assignment !! n))]> assignment
    else assignment ++ replicate (n - length assignment) false ++ [true].

(** [assignment[result.suggestion] = !assignment[result.suggestion]]: with
    [suggestion] undefined this sets the property named "undefined". *)
Definition flip_suggestion (assignment : list bool) (s : option nat)
  : list bool :=
  match s with
  | Some i => flip assignment (Z.of_nat i)
  | None => assignment
  end.

Record LoopState : Type := mkLoop {
  l_assignment : list bool;
  l_noise : Q;
  l_result : option SatResult;
  l_window : list Z;
  l_iteration : nat
}.

Section Search.
Variable rand : nat -> Q.

Definition random : R Q := fun k => (rand k, S k).

(** [satisfies(assignment)]: [None] is [null]. *)
Definition satisfies (cs : list Constraint) (assignment : list bool)
  : R (option SatResult) :=
  let '(clausesSatisfied, suggestionMap) := score cs assignment in
  if clausesSatisfied =? len cs then rret None
  else
    let best := pick_best suggestionMap in
    (let* r := random in
     rret (Some {| clausesSatisfied := clausesSatisfied;
                   suggestion :=
                     js_index best (Qfloor (r * inject_Z (len best))) |}))%rand.

(** One run of the body of [while (result !== null)], up to and
    including [iteration += 1].  [noise] is a double in the source and is
    computed exactly here; it only decides which of the two flips is made.
    It stays below [1], so whichever branch a run of the source takes, some
    oracle makes the model take it too: what holds for every oracle holds
    for every run. *)
Definition loop_body (cs : list Constraint) (windowSize : Z)
    (st : LoopState) (result : SatResult) : R LoopState :=
  (let* r := random in
   let* assignment :=
     (if negb (Qle_bool r (l_noise st)) then
        rret (flip_suggestion (l_assignment st) (suggestion result))
      else
        let* r' := random in
        let guess :=
          1 + Qfloor (r' * inject_Z (len (l_assignment st) - 1)) in
        rret (flip (l_assignment st) guess)) in
   let noise :=
     if forallb (fun cs' => cs' >=? clausesSatisfied result) (l_window st)
     then (l_noise st + (1 - l_noise st) * (2 # 10))%Q
     else (l_noise st - l_noise st * (5 # 100))%Q in
   let window :=
     <[Z.to_nat (Z.of_nat (l_iteration st) mod windowSize)
         := clausesSatisfied result]> (l_window st) in
   let* result' := satisfies cs assignment in
   rret {| l_assignment := assignment;
           l_noise := noise;
           l_result := result';
           l_window := window;
           l_iteration := S (l_iteration st) |})%rand.

(** The [while] loop.  The recursion is on the source's own [failsafe]
    counter: the body decrements it and throws when it reaches [0].
    [solve] enters with [failsafe = 50000]; the case [0] at entry does
    not occur. *)
Fixpoint search_loop (cs : list Constraint) (windowSize : Z)
    (failsafe : nat) (st : LoopState) : R (Outcome (list bool) * nat) :=
  match l_result st with
  | None => rret (Returned (l_assignment st), l_iteration st)
  | Some result =>
      match failsafe with
      | O => rret (Threw Timeout, l_iteration st)
      | S failsafe' =>
          (let* st' := loop_body cs windowSize st result in
           match failsafe' with
           | O => rret (Threw Timeout, l_iteration st')
           | S _ => search_loop cs windowSize failsafe' st'
           end)%rand
      end
  end.

(** [solve()] from the initial assignment on: the outcome and the number
    of runs of the loop body. *)
Definition search (p : Problem) : R (Outcome (list bool) * nat) :=
  (let* drawn :=
     rmapM (fun _ => let* r := random in rret (Qle_bool (1 # 2) r))
           (fromInternal p) in
   let assignment :=
     match drawn with [] => [true] | _ :: rest => true :: rest end in
   let noise := 0%Q in
   let* result := satisfies (constraints p) assignment in
   let windowSize := Z.max 3 (Qceiling (inject_Z (len (constraints p)) / 6)) in
   let window := replicate (Z.to_nat windowSize) 0 in
   search_loop (constraints p) windowSize 50000
     {| l_assignment := assignment;
        l_noise := noise;
        l_result := result;
        l_window := window;
        l_iteration := 0 |})%rand.
End Search.

(** [Object.entries(this.rules)]: the keys are integers, so they come in
    increasing order. *)

Definition key_le (x y : nat * list Z) : Prop := (x.1 <= y.1)%nat.

#[global] Instance key_le_dec : RelDecision key_le.
Proof. intros x y. unfold key_le. apply le_dec. Defined.

Definition entries (m : gmap nat (list Z)) : list (nat * list Z) :=
  merge_sort key_le (map_to_list m).

(** The completion clause of one entry of [rules]. *)
Definition completion (e : nat * list Z) : Constraint :=
  {| lo := 1; hi := len e.2 + 1; clause := - Z.of_nat e.1 :: e.2 |}.

(** Lines 437-449 of [solve()]. *)
Definition complete_state (p : Problem) : Problem :=
  match nonRuleConstraints p with
  | None =>
      {| fromInternal := fromInternal p;
         toInternal := toInternal p;
         constraints := constraints p ++ map completion (entries (rules p));
         rules := rules p;
         nonRuleConstraints := Some (length (constraints p)) |}
  | Some _ => p
  end.

Definition complete_rules : M unit := fun p => (complete_state p, Returned tt).

(** ** Solution.ts

    A [Solution] keeps the assignment array of its [solve()] and
    references to the [toInternal] and [fromInternal] objects of the
    [Problem], which the [Problem] goes on mutating: its getters read the
    registry of the [Problem] as it is when they run. *)
Record Solution : Type := mkSolution {
  satisfyingAssignment : list bool
}.

Definition solve (rand : nat -> Q) : M Solution :=
  complete_rules;;
  fun p =>
    match fst (search rand p 0%nat) with
    | (Returned assignment, _) => (p, Returned (mkSolution assignment))
    | (Threw e, _) => (p, Threw e)
    end.

(** [s.lookup[attribute]], read while the [Problem] is in state [now]. *)
Definition Solution_lookup (s : Solution) (now : Problem)
    (attribute : Attribute) : Outcome bool :=
  match lookupAttributeInMap attribute (toInternal now) with
  | Threw e => Threw e
  | Returned internal =>
      if (length (satisfyingAssignment s) <=? internal)%nat
      then Threw (DefinedAfterSolution attribute)
      else Returned (default false (satisfyingAssignment s !! internal))
  end.

Fixpoint insert_sorted (x : string) (l : list string) : list string :=
  match l with
  | [] => [x]
  | y :: l' => if String.leb x y then x :: l else y :: insert_sorted x l'
  end.

(** [arr.sort()] on strings. *)
Definition sort_strings (l : list string) : list string :=
  foldr insert_sorted [] l.

(** [s.trueAttributes], first read while the [Problem] is in state [now].
    An entry of the assignment past the end of [fromInternal] would
    contribute [undefined]; it is left out here.  In a [clean_reachable]
    state the assignment has no more entries than [fromInternal]. *)
Definition trueAttributes (s : Solution) (now : Problem) : list string :=
  sort_strings
    (filter (fun x => x <> ""%string)
       (omap (fun i => fromInternal now !! i)
          (filter (fun i => (0 < i)%nat)
             (omap (fun '(i, val) => if val : bool then Some i else None)
                (imap (fun i val => (i, val)) (satisfyingAssignment s)))))).

(** ** The calls a client can make *)

Inductive Call : Type :=
| CallAttribute (name : string) (args : list (list string))
| CallQuantify (min max : Q) (propositions : list string)
| CallExactly (n : Q) (propositions : list string)
| CallAll (propositions : list string)
| CallAtLeast (min : Q) (propositions : list string)
| CallAtMost (max : Q) (propositions : list string)
| CallUnique (propositions : list string)
| CallInconsistent (a b : string)
| CallImplies (premises : list string) (conclusion : string)
| CallEqual (a b : list string)
| CallAssert (a : string)
| CallRule (conclusion : string) (premises : list string)
| CallSolve (rand : nat -> Q).

(** The constraint-adding operations. *)
Definition adds_constraint (c : Call) : bool :=
  match c with
  | CallAttribute _ _ | CallSolve _ => false
  | _ => true
  end.

Definition run_call (c : Call) : M unit :=
  match c with
  | CallAttribute name args => attribute name args
  | CallQuantify min max ps => quantify min max ps
  | CallExactly n ps => exactly n ps
  | CallAll ps => all ps
  | CallAtLeast min ps => atLeast min ps
  | CallAtMost max ps => atMost max ps
  | CallUnique ps => unique ps
  | CallInconsistent a b => inconsistent a b
  | CallImplies prems conc => implies prems conc
  | CallEqual a b => equal a b
  | CallAssert a => assert a
  | CallRule conc prems => rule conc prems
  | CallSolve rand => let* _ := solve rand in ret tt
  end.

(** The state a call leaves behind, whether it returned or threw. *)
Definition after (c : Call) (p : Problem) : Problem := fst (run_call c p).

Definition after_all (cs : list Call) (p : Problem) : Problem :=
  foldl (fun p c => after c p) p cs.

(** The states the calls bring the model of a [Problem] into.  They are
    the states of the source as long as every call made is a [clean_call]
    (below); [clean_reachable] keeps those. *)
Inductive reachable : Problem -> Prop :=
| reachable_new : reachable new_Problem
| reachable_call c p : reachable p -> reachable (after c p).

(** [Math.random()] returns a number in [[0, 1)]. *)
Definition valid_rand (rand : nat -> Q) : Prop :=
  forall k, (0 <= rand k)%Q /\ (rand k < 1)%Q.

(** * Vocabulary of the properties *)

(** An attribute none of whose arguments is the name of an inherited
    property.  Looking it up, the source reads the nested maps at stored
    keys or at keys that answer [undefined], as the model does. *)
Definition clean_attr (attr : Attribute) : bool :=
  forallb (fun arg => negb (inherited arg)) (tail (split_space attr)).

(** A proposition over such an attribute. *)
Definition clean_prop (prop : Proposition) : bool :=
  clean_attr (snd (sign_and_attribute prop)).

(** A call all of whose propositions are such.  A declaration stores its
    domain elements as own properties, whatever their names, and a
    predicate that is an inherited name makes both the source and the model
    throw: [attribute] and [solve()] always qualify. *)
Definition clean_call (c : Call) : bool :=
  match c with
  | CallAttribute _ _ | CallSolve _ => true
  | CallQuantify _ _ ps | CallExactly _ ps | CallAll ps | CallAtLeast _ ps
  | CallAtMost _ ps | CallUnique ps => forallb clean_prop ps
  | CallInconsistent a b => clean_prop a && clean_prop b
  | CallImplies prems conc => forallb clean_prop prems && clean_prop conc
  | CallEqual a b => forallb clean_prop a && forallb clean_prop b
  | CallAssert a => clean_prop a
  | CallRule conc prems => clean_prop conc && forallb clean_prop prems
  end.

(** The states a client reaches by such calls. *)
Inductive clean_reachable : Problem -> Prop :=
| clean_new : clean_reachable new_Problem
| clean_step c p :
    clean_reachable p -> clean_call c = true -> clean_reachable (after c p).

(** A clause is satisfied the way [satisfies] tests it. *)
Definition clause_sat (a : list bool) (c : Constraint) : bool :=
  let n := numLiteralsInClauseSatisfied a (clause c) in
  (lo c <=? n) && (n <=? hi c).

(** What the loop keeps true of its state, for the clauses [cs] and [n]
    ids. *)
Definition loop_inv (cs : list Constraint) (n : nat) (st : LoopState) : Prop :=
  length (l_assignment st) = n
  /\ l_assignment st !! 0%nat = Some true
  /\ match l_result st with
     | None => forallb (clause_sat (l_assignment st)) cs = true
     | Some r =>
         cs <> [] /\ forall i, suggestion r = Some i -> (1 <= i < n)%nat
     end.

(** [arr.map(f)] for a pure [f] that may throw. *)
Fixpoint traverse {A B} (f : A -> Outcome B) (l : list A) : Outcome (list B) :=
  match l with
  | [] => Returned []
  | x :: l' =>
      match f x with
      | Threw e => Threw e
      | Returned y =>
          match traverse f l' with
          | Threw e => Threw e
          | Returned ys => Returned (y :: ys)
          end
      end
  end.

(** The state [iff(premises, conclusion)] leaves. *)
Definition iff_state (premises : list Z) (conclusion : Z) (p : Problem)
  : Problem :=
  push_state
    [ {| clause := map (fun prem => - prem) premises ++ [conclusion];
         lo := 1;
         hi := len (map (fun prem => - prem) premises ++ [conclusion]) |} ]
    (push_state
       (map (fun premise =>
               {| clause := [premise; - conclusion]; lo := 1; hi := 2 |})
            premises) p).

(** One side a single proposition, the other a conjunction. *)
Definition equal_one (c0 : string) (xs : list string) (p : Problem)
  : Problem * Outcome unit :=
  match traverse (lookup_in (toInternal p)) xs with
  | Threw e => (reset_state p, Threw e)
  | Returned premises =>
      match lookup_in (toInternal p) c0 with
      | Threw e => (reset_state p, Threw e)
      | Returned conclusion =>
          (iff_state premises conclusion (reset_state p), Returned tt)
      end
  end.

(** The justification [rule] records and the state it leaves, once the
    implication has been pushed. *)
Definition rule_tail (conc : Z) (prems : list Z) (q : Problem) : Problem :=
  match prems with
  | [] => push_rule_state (Z.to_nat conc) 0 q
  | [prem] => push_rule_state (Z.to_nat conc) prem q
  | _ =>
      let standin := Z.of_nat (length (fromInternal q)) in
      push_rule_state (Z.to_nat conc) standin
        (iff_state prems standin (generate_state "" q))
  end.

(** [l] is the id of an atom among [n] ids, or its negation. *)
Definition lit_in_range (n : nat) (l : Z) : Prop :=
  (1 <= Z.abs_nat l < n)%nat.

(** What every [reachable] state satisfies: the registry resolves to
    minted ids [>= 1], clauses and rules mention minted ids only, and a
    clause exists only once an atom does. *)
Record wf (p : Problem) : Prop := mkWf {
  wf_nonempty : (1 <= length (fromInternal p))%nat;
  wf_registry : forall attr id,
    lookupAttributeInMap attr (toInternal p) = Returned id ->
    (1 <= id < length (fromInternal p))%nat;
  wf_clauses : forall c l,
    c ∈ constraints p -> l ∈ clause c ->
    (Z.abs_nat l < length (fromInternal p))%nat;
  wf_rules : forall h js,
    rules p !! h = Some js ->
    (1 <= h < length (fromInternal p))%nat
    /\ forall j, j ∈ js -> (Z.abs_nat j < length (fromInternal p))%nat;
  wf_atoms : constraints p <> [] -> (2 <= length (fromInternal p))%nat
}.

(** Only ids were minted between [p] and [p']. *)
Definition grows (p p' : Problem) : Prop :=
  toInternal p' = toInternal p /\ constraints p' = constraints p
  /\ rules p' = rules p /\ nonRuleConstraints p' = nonRuleConstraints p
  /\ exists names, fromInternal p' = fromInternal p ++ names.

(** The ids stored in a nested map of a registry entry lie in [[n0, n)]. *)
Definition bounded1 (n0 n : nat) (m : gmap string nat) : Prop :=
  forall k v, m !! k = Some v -> (n0 <= v < n)%nat.
Definition bounded2 (n0 n : nat) (m : gmap string (gmap string nat)) : Prop :=
  forall k m1, m !! k = Some m1 -> bounded1 n0 n m1.
Definition bounded3 (n0 n : nat)
    (m : gmap string (gmap string (gmap string nat))) : Prop :=
  forall k m2, m !! k = Some m2 -> bounded2 n0 n m2.

(** Every id an entry can resolve to lies in [[n0, n)]. *)
Definition slots_bounded (n0 n : nat) (slots : AttrSlots) : Prop :=
  forall attr args id,
    switch_args attr args slots = Returned id -> (n0 <= id < n)%nat.

(** How the registry of [p'] relates to that of an earlier state [p]. *)
Record registry_extends (p p' : Problem) : Prop := mkExt {
  ext_names : exists names, fromInternal p' = fromInternal p ++ names;
  ext_keeps : forall attr id,
    lookupAttributeInMap attr (toInternal p) = Returned id ->
    lookupAttributeInMap attr (toInternal p') = Returned id;
  ext_fresh : forall attr id,
    lookupAttributeInMap attr (toInternal p') = Returned id ->
    lookupAttributeInMap attr (toInternal p) = Returned id
    \/ (length (fromInternal p) <= id)%nat
}.

(** The registry is untouched and ids were at most minted. *)
Definition same_registry (p p' : Problem) : Prop :=
  toInternal p' = toInternal p
  /\ exists names, fromInternal p' = fromInternal p ++ names.

(** The literal [0] is true, a positive literal is true when its atom is
    assigned [true], a negative one when its atom is assigned [false]. *)
Definition literal_true (A : list bool) (l : Z) : bool :=
  if l =? 0 then true
  else if 0 <? l then bool_decide (A !! Z.to_nat l = Some true)
  else bool_decide (A !! Z.to_nat (- l) = Some false).

(** The number of literals of [L] that are true under [A]. *)
Definition true_literals (A : list bool) (L : list Z) : Z :=
  len (filter (fun l => literal_true A l = true) L).

(** [q'] has the clauses of [q] and then some, under the same checkpoint. *)
Definition appends (q q' : Problem) : Prop :=
  nonRuleConstraints q' = nonRuleConstraints q
  /\ exists added, constraints q' = constraints q ++ added.

(** A successful call of [m] clears the checkpoint and leaves the clauses
    that [reset()] keeps followed by at least one new clause; it does what
    it would have done on the state [reset()] produces. *)
Definition truncates (m : M unit) : Prop :=
  forall p p',
    m p = (p', Returned tt) ->
    nonRuleConstraints p' = None
    /\ (exists added,
          added <> [] /\ constraints p' = constraints (reset_state p) ++ added)
    /\ m (reset_state p) = (p', Returned tt).


(** * Example problems *)

(** [Math.random()] returning [q] every time. *)
Definition rand_const (q : Q) : nat -> Q := fun _ => q.

(** Two nullary attributes [p], [q] and the rules [q <- !p], [p <- !q]. *)
Definition negloop_calls : list Call :=
  [ CallAttribute "p" []; CallAttribute "q" [];
    CallRule "q" ["!p"%string]; CallRule "p" ["!q"%string] ].

Definition negloop : Problem := after_all negloop_calls new_Problem.

(** Attributes [a], [b] and the constraint [assert(a)]. *)
Definition stale_calls : list Call :=
  [ CallAttribute "a" []; CallAttribute "b" []; CallAssert "a" ].

Definition stale_before : Problem := after_all stale_calls new_Problem.

(** What the client does after the first solution: declares [c], adds an
    implication and solves again. *)
Definition stale_later : list Call :=
  [ CallAttribute "c" []; CallImplies ["a"%string] "c";
    CallSolve (rand_const (1 # 2)) ].



(** Attributes [a], [b] with [assert(a)] twice and [assert(b)] once. *)
Definition two_against_one : Problem :=
  after_all [ CallAttribute "a" []; CallAttribute "b" [];
              CallAssert "a"; CallAssert "a"; CallAssert "b" ] new_Problem.

(** Attributes [a], [b] with [all([a, b])] and [equal([a], [b])]: the
    problem has the model in which both are true. *)
Definition both_or_neither : Problem :=
  after_all [ CallAttribute "a" []; CallAttribute "b" [];
              CallAll ["a"; "b"]%string;
              CallEqual ["a"%string] ["b"%string] ] new_Problem.

(** A binary predicate [p] over two empty domains: the declaration mints
    no id. *)
Definition empty_domains : Problem :=
  after (CallAttribute "p" [[]; []]) new_Problem.

(** The state of the source after [attribute('p', [[], []])] and
    [assert('!p constructor length')].  The lookup finds the slot of arity
    two, reads it at [constructor] and gets the inherited function
    [Object], reads that at [length] and gets [1]: the call returns and
    stores the clause [(1, 1, [-1])], over an id that was never minted.
    The model of [assert] throws here (see [switch_args]), so the state is
    written out. *)
Definition unminted_negation : Problem :=
  push_state [ {| lo := 1; hi := 1; clause := [-1] |} ]
    (reset_state empty_domains).

(** The same with [assert('p constructor length')]: the clause is
    [(1, 1, [1])]. *)
Definition unminted_assertion : Problem :=
  push_state [ {| lo := 1; hi := 1; clause := [1] |} ]
    (reset_state empty_domains).

(** * Vocabulary of the further properties *)

(** The number of ids a declaration with the domains [args] mints: the
    product of the sizes of the domains. *)
Definition ids_count (args : list (list string)) : nat :=
  foldr (fun d n => (length d * n)%nat) 1%nat args.

(** The name [attribute] gives to the id of [name] applied to [xs]:
    [`${name} ${x} ${y}`]. *)
Definition attribute_name (name : string) (xs : list string) : string :=
  foldl sp name xs.

(** The argument tuples of a declaration: one argument from each domain. *)
Fixpoint tuples (args : list (list string)) : list (list string) :=
  match args with
  | [] => [[]]
  | d :: args' => x ← d; (fun t => x :: t) <$> tuples args'
  end.

(** What the nested maps of a registry entry hold while [attribute] fills
    them: each stored id is at least [n0] and is the id of the name built
    from the keys on the way to it, and the keys of an inner map are the
    arguments of its domain. *)
Definition named1 (nm : string -> string) (n0 : nat) (p : Problem)
    (k : string) (v : nat) : Prop :=
  (n0 <= v)%nat /\ fromInternal p !! v = Some (nm k).
Definition named2 (nm : string -> string -> string) (n0 : nat)
    (d1 : list string) (p : Problem) (x : string) (mx : gmap string nat)
  : Prop :=
  (forall y v, mx !! y = Some v -> named1 (nm x) n0 p y v)
  /\ forall y, y ∈ d1 <-> is_Some (mx !! y).
Definition named3 (nm : string -> string -> string -> string) (n0 : nat)
    (d1 d2 : list string) (p : Problem) (x : string)
    (mx : gmap string (gmap string nat)) : Prop :=
  (forall y mxy, mx !! y = Some mxy -> named2 (nm x) n0 d2 p y mxy)
  /\ forall y, y ∈ d1 <-> is_Some (mx !! y).

(** The first argument of [t], with its position counted from [pos], that
    is not in the domain of its position. *)
Fixpoint first_bad (pos : nat) (args : list (list string)) (t : list string)
  : option (nat * string) :=
  match args, t with
  | d :: args', x :: t' =>
      if bool_decide (x ∈ d) then first_bad (S pos) args' t' else Some (pos, x)
  | _, _ => None
  end.

(** A registry entry stored under [name] for the domains [args], in a
    state with the ids of [p1]: what it resolves is an id minted from [n0]
    on whose name is the attribute looked up; it resolves the argument
    tuples of the domains and no others; for another number of arguments,
    up to three, it answers with the wrong-arity error, and for the right
    number with the first argument outside its domain. *)
Definition entry_for (name : string) (args : list (list string))
    (n0 : nat) (p1 : Problem) (slots : AttrSlots) : Prop :=
  (forall attr args' id,
     split_space attr = name :: args' ->
     switch_args attr args' slots = Returned id ->
     (n0 <= id)%nat /\ fromInternal p1 !! id = Some attr)
  /\ (forall t, t ∈ tuples args ->
        exists id, forall attr, switch_args attr t slots = Returned id)
  /\ (forall attr t id,
        switch_args attr t slots = Returned id -> t ∈ tuples args)
  /\ (forall attr t,
        length t <> length args -> (length t < 4)%nat ->
        switch_args attr t slots = Threw (WrongArity attr))
  /\ (forall attr t k x,
        length t = length args -> first_bad 1 args t = Some (k, x) ->
        switch_args attr t slots = Threw (InvalidArgument k x))
  /\ slots_all_undefined slots = false.

(** The registry is its own inverse on what it resolves: the id a name
    resolves to carries that name. *)
Definition names_agree (p : Problem) : Prop :=
  forall attr id,
    lookupAttributeInMap attr (toInternal p) = Returned id ->
    fromInternal p !! id = Some attr.

(** [name] has an entry with a defined slot. *)
Definition declared (name : string) (p : Problem) : Prop :=
  toInternal p !! name ≫= slots_findIndex <> None.

(** The calls that throw without having changed anything: all but
    [solve()] and [equal] of two non-empty lists. *)
Definition throws_atomically (c : Call) : bool :=
  match c with
  | CallSolve _ => false
  | CallEqual (_ :: _) (_ :: _) => false
  | _ => true
  end.

(** Three cats, four colours. *)
Definition cats : Problem :=
  after (CallAttribute "colored"
           [["celeste"; "nimbus"; "terra"];
            ["gray"; "black"; "white"; "orange"]]%string) new_Problem.

(** The bounds of a constraint leave room for a model and rule something
    out: [0 <= lo <= hi <= clause.length], and not both [lo = 0] and
    [hi = clause.length]. *)
Definition proper (c : Constraint) : Prop :=
  0 <= lo c /\ lo c <= hi c /\ hi c <= len (clause c)
  /\ (1 <= lo c \/ hi c < len (clause c)).

(** While the checkpoint is set, the clauses past it are the completion
    clauses of the rules as they are now. *)
Definition checkpoint_current (p : Problem) : Prop :=
  forall n, nonRuleConstraints p = Some n ->
    (n <= length (constraints p))%nat
    /\ drop n (constraints p) = map completion (entries (rules p)).

(** What the counting operations ask for, by their documentation: the
    propositions counted and the counts allowed. *)
Definition cardinality (c : Call) : option (list string * (Z -> Prop)) :=
  match c with
  | CallQuantify min max ps =>
      Some (ps, fun n => (min <= inject_Z n)%Q /\ (inject_Z n <= max)%Q)
  | CallExactly k ps => Some (ps, fun n => (inject_Z n == k)%Q)
  | CallAll ps => Some (ps, fun n => n = len ps)
  | CallAtLeast min ps => Some (ps, fun n => (min <= inject_Z n)%Q)
  | CallAtMost max ps => Some (ps, fun n => (inject_Z n <= max)%Q)
  | CallUnique ps => Some (ps, fun n => n = 1)
  | CallInconsistent a b => Some ([a; b], fun n => n <= 1)
  | CallAssert a => Some ([a], fun n => n = 1)
  | _ => None
  end.

(** The clauses [iff(premises, conclusion)] pushes. *)
Definition iff_clauses (premises : list Z) (conclusion : Z) : list Constraint :=
  map (fun premise => {| clause := [premise; - conclusion]; lo := 1; hi := 2 |})
      premises
  ++ [ {| clause := map Z.opp premises ++ [conclusion];
          lo := 1;
          hi := len (map Z.opp premises ++ [conclusion]) |} ].

(** A declaration whose domains list no element twice; every other call
    qualifies. *)
Definition distinct_domains (c : Call) : Prop :=
  match c with
  | CallAttribute _ args => Forall NoDup args
  | _ => True
  end.

(** [fromInternal] is the inverse of the registry on the named ids. *)
Definition names_resolve (p : Problem) : Prop :=
  forall i name,
    fromInternal p !! i = Some name -> name <> ""%string ->
    lookupAttributeInMap name (toInternal p) = Returned i.

(** Only unnamed ids were minted between [p] and [p']. *)
Definition hidden_only (p p' : Problem) : Prop :=
  exists k, fromInternal p' = fromInternal p ++ replicate k ""%string.

(** [windowSize] in [solve()] on the store of [p]. *)
Definition windowSize_of (p : Problem) : Z :=
  Z.max 3 (Qceiling (inject_Z (len (constraints p)) / 6)).

(** The state in which [solve()] enters its loop, [p] being the state
    with the completed store: [search] is [search_loop] from here. *)
Definition search_init (rand : nat -> Q) (p : Problem) : R LoopState :=
  (let* drawn :=
     rmapM (fun _ => let* r := random rand in rret (Qle_bool (1 # 2) r))
           (fromInternal p) in
   let assignment :=
     match drawn with [] => [true] | _ :: rest => true :: rest end in
   let* result := satisfies rand (constraints p) assignment in
   rret {| l_assignment := assignment;
           l_noise := 0%Q;
           l_result := result;
           l_window := replicate (Z.to_nat (windowSize_of p)) 0;
           l_iteration := 0 |})%rand.

(** The states in which the loop of [solve()] on [p] is at the top of a
    round, each with the number of random numbers drawn until then: the
    state in which the loop is entered, and the state the body leaves when
    it is run from such a state with a pending result. *)
Inductive visits (rand : nat -> Q) (p : Problem) : LoopState -> nat -> Prop :=
| visits_init st k : search_init rand p 0%nat = (st, k) -> visits rand p st k
| visits_round st k r st' k' :
    visits rand p st k -> l_result st = Some r ->
    loop_body rand (constraints p) (windowSize_of p) st r k = (st', k') ->
    visits rand p st' k'.

(** The state in which the loop starts on [two_against_one] when every
    random number is [0]: no atom is true, no clause is satisfied, and the
    suggestion is atom [2]. *)
Definition first_round : LoopState :=
  {| l_assignment := [true; false; false];
     l_noise := 0;
     l_result := Some {| clausesSatisfied := 0; suggestion := Some 2%nat |};
     l_window := [0; 0; 0];
     l_iteration := 0 |}.

(** * Properties *)

(** ** Scoring *)

Lemma score_step_fst a acc sm c :
  fst (score_step a (acc, sm) c) = acc + (if clause_sat a c then 1 else 0).
Proof.
  unfold score_step, clause_sat.
  destruct (_ && _); simpl; lia.
Qed.

Lemma bump_length d l sm : length (bump d l sm) = length sm.
Proof. unfold bump. apply length_alter. Qed.

Lemma bump_where_length a want d cl sm :
  length (bump_where a want d cl sm) = length sm.
Proof.
  unfold bump_where. revert sm.
  induction cl as [|l cl IH]; intros sm; simpl; [done|].
  rewrite IH. destruct (Bool.eqb _ _); [apply bump_length | done].
Qed.

Lemma score_step_length a acc sm c :
  length (snd (score_step a (acc, sm) c)) = length sm.
Proof.
  unfold score_step.
  destruct (_ && _); simpl;
    repeat match goal with
           | |- context [if ?b then _ else _] => destruct b
           end;
    rewrite ?bump_where_length; done.
Qed.

Lemma score_fold a cs : forall acc sm,
  fst (foldl (score_step a) (acc, sm) cs)
    = acc + len (filter (fun c => clause_sat a c = true) cs)
  /\ length (snd (foldl (score_step a) (acc, sm) cs)) = length sm.
Proof.
  induction cs as [|c cs IH]; intros acc sm; cbn [foldl].
  - unfold len. simpl. split; [lia | done].
  - pose proof (score_step_fst a acc sm c) as Hf.
    pose proof (score_step_length a acc sm c) as Hl.
    destruct (score_step a (acc, sm) c) as [acc' sm'] eqn:E.
    simpl in Hf, Hl. destruct (IH acc' sm') as [IH1 IH2].
    rewrite IH1, IH2, Hf, Hl. split; [|done].
    rewrite filter_cons. unfold len.
    destruct (clause_sat a c); simpl; lia.
Qed.

Lemma score_all_sat a cs :
  fst (score cs a) = len cs -> forallb (clause_sat a) cs = true.
Proof.
  unfold score. intros H.
  destruct (score_fold a cs 0 (map (fun _ => 0) a)) as [Hf _].
  rewrite Hf in H. clear Hf. unfold len in H.
  assert (Hlen : length (filter (fun c => clause_sat a c = true) cs) = length cs)
    by lia.
  clear H. induction cs as [|c cs IH]; simpl; [done|].
  rewrite filter_cons in Hlen.
  pose proof (length_filter (fun c => clause_sat a c = true) cs) as Hle.
  destruct (clause_sat a c) eqn:E; simpl in Hlen.
  - rewrite IH; [done | lia].
  - lia.
Qed.

Lemma score_length a cs : length (snd (score cs a)) = length a.
Proof.
  unfold score.
  destruct (score_fold a cs 0 (map (fun _ => 0) a)) as [_ Hl].
  rewrite Hl. apply length_map.
Qed.

Lemma pick_best_range sm i :
  i ∈ pick_best sm -> (1 <= i < length sm)%nat.
Proof.
  unfold pick_best.
  assert (Hgen : forall l best,
    (forall j, j ∈ best -> (1 <= j < length sm)%nat) ->
    (forall j, j ∈ l -> (1 <= j < length sm)%nat) ->
    forall j,
      j ∈ foldl (fun best i =>
                   let s := default 0 (sm !! i) in
                   let best := if s =? 0 then best ++ [i] else best in
                   if s >? 0 then [i] else best) best l ->
      (1 <= j < length sm)%nat).
  { induction l as [|x l IH]; intros best Hb Hl j; simpl; [apply Hb|].
    apply IH.
    - intros j'. destruct (_ >? 0).
      + intros ->%list_elem_of_singleton. apply Hl. left.
      + destruct (_ =? 0); [|apply Hb].
        intros [?| ->%list_elem_of_singleton]%elem_of_app;
          [by apply Hb | apply Hl; left].
    - intros j' Hj'. apply Hl. by right. }
  apply Hgen.
  - intros j Hj. by apply elem_of_nil in Hj.
  - intros j Hj. apply elem_of_seq in Hj. lia.
Qed.

Lemma js_index_elem {A} (l : list A) i x : js_index l i = Some x -> x ∈ l.
Proof.
  unfold js_index. destruct (i <? 0); [done|].
  intros H. by apply list_elem_of_lookup_2 in H.
Qed.

Section SearchFacts.
Variable rand : nat -> Q.

(** What [satisfies] answers: [null] only when every clause is satisfied,
    and otherwise a suggestion that, when defined, is an atom id. *)
Lemma satisfies_spec cs a k :
  match fst (satisfies rand cs a k) with
  | None => forallb (clause_sat a) cs = true
  | Some r =>
      cs <> [] /\ clausesSatisfied r = fst (score cs a)
      /\ forall i, suggestion r = Some i -> (1 <= i < length a)%nat
  end.
Proof.
  unfold satisfies.
  pose proof (score_all_sat a cs) as Hall.
  pose proof (score_length a cs) as Hlen.
  destruct (score cs a) as [n sm] eqn:E. simpl in *.
  destruct (n =? len cs) eqn:En.
  - simpl. apply Hall. lia.
  - unfold rbind, random, rret. simpl. split; [|split; [done|]].
    + intros ->. vm_compute in E. inversion E; subst. done.
    + intros i Hi. apply js_index_elem, pick_best_range in Hi. lia.
Qed.
End SearchFacts.

(** ** The loop counts its runs *)

Lemma loop_body_iteration rand cs w st r k :
  l_iteration (fst (loop_body rand cs w st r k)) = S (l_iteration st).
Proof.
  unfold loop_body, rbind, random, rret.
  destruct (negb _);
    match goal with
    | |- context [satisfies ?r ?c ?a ?k] => by destruct (satisfies r c a k)
    end.
Qed.

(** The loop returns or times out, and the body has then run at most
    [failsafe] times. *)
Lemma search_loop_bound rand cs w f : forall st k,
  exists it,
    (it <= l_iteration st + f)%nat
    /\ ((exists a, fst (search_loop rand cs w f st k) = (Returned a, it))
        \/ (fst (search_loop rand cs w f st k) = (Threw Timeout, it)
            /\ it = (l_iteration st + f)%nat)).
Proof.
  induction f as [|f IH]; intros st k; cbn [search_loop];
    destruct (l_result st) as [r|] eqn:Hres.
  - exists (l_iteration st). split; [lia|]. right. split; [done | lia].
  - exists (l_iteration st). split; [lia|]. left. by eexists.
  - unfold rbind.
    pose proof (loop_body_iteration rand cs w st r k) as Hit.
    destruct (loop_body rand cs w st r k) as [st' k']. simpl in Hit.
    destruct f as [|f'].
    + exists (l_iteration st'). split; [lia|]. right. split; [done | lia].
    + destruct (IH st' k') as (it & Hle & Hcase).
      exists it. split; [lia|].
      destruct Hcase as [Ha | [Ht ->]]; [by left | right].
      split; [done | lia].
  - exists (l_iteration st). split; [lia|]. left. by eexists.
Qed.

(** ** Flips *)

Lemma flip_in_range a i :
  (1 <= i < len a) ->
  length (flip a i) = length a /\ flip a i !! 0%nat = a !! 0%nat.
Proof.
  unfold flip, len. intros Hi.
  destruct (i <? 0) eqn:E; [lia|].
  assert (Hlt : (Z.to_nat i < length a)%nat) by lia.
  apply Nat.ltb_lt in Hlt as Hlt'. rewrite Hlt'.
  split; [apply length_insert|].
  apply list_lookup_insert_ne. lia.
Qed.

Lemma flip_suggestion_in_range a s :
  (forall i, s = Some i -> (1 <= i < length a)%nat) ->
  length (flip_suggestion a s) = length a
  /\ flip_suggestion a s !! 0%nat = a !! 0%nat.
Proof.
  intros H. destruct s as [i|]; simpl; [|done].
  apply flip_in_range. unfold len. specialize (H i eq_refl). lia.
Qed.

(** [Math.floor(r * m)] for [r] in [[0, 1)] and an integer [m >= 1]. *)
Lemma floor_scale_range r m :
  (0 <= r)%Q -> (r < 1)%Q -> 1 <= m ->
  0 <= Qfloor (r * inject_Z m) < m.
Proof.
  intros H0 H1 Hm.
  assert (Hm' : (0 < inject_Z m)%Q).
  { unfold Qlt. simpl. lia. }
  split.
  - rewrite <- (Qfloor_Z 0). apply Qfloor_resp_le.
    apply Qmult_le_0_compat; [done | by apply Qlt_le_weak].
  - rewrite Zlt_Qlt.
    eapply Qle_lt_trans; [apply Qfloor_le|].
    rewrite <- (Qmult_1_l (inject_Z m)) at 2.
    by apply Qmult_lt_compat_r.
Qed.

Section LoopFacts.
Variable rand : nat -> Q.
Hypothesis rand_ok : valid_rand rand.
Variable cs : list Constraint.
Variable n : nat.
Hypothesis atoms : cs <> [] -> (2 <= n)%nat.

Lemma loop_inv_result a k (w : list Z) (noise : Q) (it : nat) :
  length a = n -> a !! 0%nat = Some true ->
  loop_inv cs n {| l_assignment := a; l_noise := noise;
              l_result := fst (satisfies rand cs a k);
              l_window := w; l_iteration := it |}.
Proof.
  intros Hl H0. unfold loop_inv. simpl. split; [done|]. split; [done|].
  pose proof (satisfies_spec rand cs a k) as Hs.
  destruct (fst (satisfies rand cs a k)) as [r|]; [|done].
  destruct Hs as (Hne & _ & Hs). split; [done|].
  intros i Hi. rewrite <- Hl. by apply Hs.
Qed.

Lemma loop_body_spec w st r k :
  loop_inv cs n st -> l_result st = Some r ->
  loop_inv cs n (fst (loop_body rand cs w st r k))
  /\ l_iteration (fst (loop_body rand cs w st r k)) = S (l_iteration st).
Proof.
  intros (Hl & H0 & Hr) Hres. rewrite Hres in Hr. destruct Hr as [Hcs Hr].
  assert (Hfin : forall a1 k1 noise window it,
    length a1 = n -> a1 !! 0%nat = Some true ->
    let res :=
      (let '(a0, k0) := satisfies rand cs a1 k1 in
       ({| l_assignment := a1; l_noise := noise; l_result := a0;
           l_window := window; l_iteration := it |}, k0)) in
    loop_inv cs n res.1 /\ l_iteration res.1 = it).
  { intros a1 k1 noise window it Hl1 H01.
    pose proof (loop_inv_result a1 k1 window noise it Hl1 H01) as Hinv.
    destruct (satisfies rand cs a1 k1) as [res k2]. simpl. by split. }
  unfold loop_body, rbind, random, rret.
  destruct (negb (Qle_bool (rand k) (l_noise st))).
  - destruct (flip_suggestion_in_range (l_assignment st) (suggestion r))
      as [E1 E2]; [by rewrite Hl|].
    apply Hfin; [by rewrite E1 | by rewrite E2].
  - destruct (rand_ok (S k)) as [R0 R1].
    pose proof (atoms Hcs) as Hn.
    destruct (flip_in_range (l_assignment st)
                (1 + Qfloor (rand (S k)
                             * inject_Z (len (l_assignment st) - 1))))
      as [E1 E2].
    + pose proof (floor_scale_range (rand (S k))
                    (len (l_assignment st) - 1) R0 R1) as Hf.
      unfold len in *. lia.
    + apply Hfin; [by rewrite E1 | by rewrite E2].
Qed.

Lemma search_loop_sound w f : forall st k a it,
  loop_inv cs n st ->
  fst (search_loop rand cs w f st k) = (Returned a, it) ->
  length a = n /\ a !! 0%nat = Some true
  /\ forallb (clause_sat a) cs = true.
Proof.
  induction f as [|f IH]; intros st k a it Hinv; cbn [search_loop];
    destruct (l_result st) as [r|] eqn:Hres.
  - done.
  - unfold rret. simpl. intros [= <- <-].
    destruct Hinv as (? & ? & Hn). by rewrite Hres in Hn.
  - unfold rbind.
    destruct (loop_body_spec w st r k Hinv Hres) as [Hinv' _].
    destruct (loop_body rand cs w st r k) as [st' k'].
    destruct f; [done|]. by apply IH.
  - unfold rret. simpl. intros [= <- <-].
    destruct Hinv as (? & ? & Hn). by rewrite Hres in Hn.
Qed.
End LoopFacts.

Lemma rmapM_length {A B} (f : A -> R B) (l : list A) : forall k,
  length (fst (rmapM f l k)) = length l.
Proof.
  induction l as [|x l IH]; intros k; simpl; [done|].
  unfold rbind, rret. destruct (f x k) as [y k1].
  specialize (IH k1). destruct (rmapM f l k1) as [ys k2]. simpl in *.
  by rewrite IH.
Qed.

(** A returned assignment has one entry per id, entry [0] is [true], and
    every clause passes the test of [satisfies]. *)
Lemma search_sound rand p k a it :
  valid_rand rand ->
  fromInternal p <> [] ->
  (constraints p <> [] -> (2 <= length (fromInternal p))%nat) ->
  fst (search rand p k) = (Returned a, it) ->
  length a = length (fromInternal p) /\ a !! 0%nat = Some true
  /\ forallb (clause_sat a) (constraints p) = true.
Proof.
  intros Hrand Hne Hatoms. unfold search, rbind.
  pose proof (rmapM_length
                (fun _ : string => fun k0 =>
                   let '(a0, k') := random rand k0 in
                   rret (Qle_bool (1 # 2) a0) k')
                (fromInternal p) k) as Hlen.
  destruct (rmapM _ (fromInternal p) k) as [drawn k1]. simpl in Hlen.
  set (a0 := match drawn with [] => [true] | _ :: rest => true :: rest end).
  assert (Ha0 : length a0 = length (fromInternal p) /\ a0 !! 0%nat = Some true).
  { subst a0. destruct drawn; simpl in *; [|by rewrite <- Hlen].
    destruct (fromInternal p); done. }
  destruct Ha0 as [Hl0 H00].
  pose proof (loop_inv_result rand (constraints p) (length (fromInternal p))
                a0 k1
                (replicate
                   (Z.to_nat (Z.max 3 (Qceiling (inject_Z (len (constraints p)) / 6))))
                   0)
                0%Q 0%nat Hl0 H00) as Hinv.
  destruct (satisfies rand (constraints p) a0 k1) as [res k2]. simpl in Hinv.
  intros Hs.
  eapply (search_loop_sound rand Hrand (constraints p)
            (length (fromInternal p)) Hatoms); eauto.
Qed.

Lemma search_bound rand p k :
  exists it,
    (it <= 50000)%nat
    /\ ((exists a, fst (search rand p k) = (Returned a, it))
        \/ (fst (search rand p k) = (Threw Timeout, it) /\ it = 50000%nat)).
Proof.
  unfold search, rbind. generalize 50000%nat. intros F.
  destruct (rmapM _ (fromInternal p) k) as [drawn k1].
  destruct (satisfies rand (constraints p) _ k1) as [res k2].
  match goal with
  | |- context [search_loop rand ?cs ?w ?f ?st ?k] =>
      destruct (search_loop_bound rand cs w f st k) as (it & Hle & Hcase)
  end.
  exists it. simpl in Hle. split; [lia|].
  destruct Hcase as [Ha | [Ht ->]]; [by left | right]. split; [done | lia].
Qed.

(** ** The constraint-adding methods in closed form *)

Lemma mapM_lookup l p :
  mapM lookup l p = (p, traverse (lookup_in (toInternal p)) l).
Proof.
  induction l as [|x l IH]; [done|].
  cbn [mapM traverse]. unfold bind at 1. unfold lookup at 1.
  destruct (lookup_in (toInternal p) x); [|done].
  unfold bind at 1. rewrite IH.
  by destruct (traverse (lookup_in (toInternal p)) l).
Qed.

Lemma mapM_neg_lookup l p :
  mapM (fun prem => let* l := lookup prem in ret (- l)) l p
  = (p, match traverse (lookup_in (toInternal p)) l with
        | Returned ls => Returned (map Z.opp ls)
        | Threw e => Threw e
        end).
Proof.
  induction l as [|x l IH]; [done|].
  cbn [mapM traverse]. unfold bind at 1. unfold bind at 1. unfold lookup at 1.
  destruct (lookup_in (toInternal p) x); [|done].
  unfold ret at 1. unfold bind at 1. rewrite IH.
  by destruct (traverse (lookup_in (toInternal p)) l).
Qed.

Lemma traverse_length {A B} (f : A -> Outcome B) l ys :
  traverse f l = Returned ys -> length ys = length l.
Proof.
  revert ys. induction l as [|x l IH]; intros ys; simpl.
  - by intros [= <-].
  - destruct (f x); [|done]. destruct (traverse f l); [|done].
    intros [= <-]. simpl. f_equal. by apply IH.
Qed.

Lemma traverse_Forall {A B} (f : A -> Outcome B) (P : B -> Prop) l ys :
  (forall x y, f x = Returned y -> P y) ->
  traverse f l = Returned ys -> Forall P ys.
Proof.
  intros Hf. revert ys. induction l as [|x l IH]; intros ys; simpl.
  - by intros [= <-].
  - destruct (f x) eqn:E; [|done]. destruct (traverse f l); [|done].
    intros [= <-]. constructor; [by eapply Hf | by apply IH].
Qed.


Lemma iff_eq premises conclusion p :
  iff premises conclusion p = (iff_state premises conclusion p, Returned tt).
Proof. reflexivity. Qed.

Lemma quantify_eq min max props p :
  quantify min max props p =
  if negb (quantify_feasible min max props)
  then (p, Threw QuantifyUnsatisfiable)
  else if quantify_trivial min max props
  then (p, Threw QuantifyTrivial)
  else
    match traverse (lookup_in (toInternal p)) props with
    | Threw e => (p, Threw e)
    | Returned clause =>
        (push_state [ {| clause := clause;
                         lo := Z.max 0 (Qceiling min);
                         hi := Z.min (len props) (Qfloor max) |} ]
           (reset_state p), Returned tt)
    end.
Proof.
  unfold quantify. destruct (negb _); [done|].
  destruct (quantify_trivial _ _ _); [done|].
  unfold bind at 1. rewrite mapM_lookup.
  by destruct (traverse (lookup_in (toInternal p)) props).
Qed.

Lemma implies_eq premises conclusion p :
  implies premises conclusion p =
  match lookup_in (toInternal p) conclusion with
  | Threw e => (p, Threw e)
  | Returned conc =>
      match traverse (lookup_in (toInternal p)) premises with
      | Threw e => (p, Threw e)
      | Returned ls =>
          (push_state [ {| clause := map Z.opp ls ++ [conc];
                           lo := 1;
                           hi := len (map Z.opp ls ++ [conc]) |} ]
             (reset_state p), Returned tt)
      end
  end.
Proof.
  unfold implies. unfold bind at 1. unfold lookup at 1.
  destruct (lookup_in (toInternal p) conclusion); [|done].
  unfold bind at 1. rewrite mapM_neg_lookup.
  by destruct (traverse (lookup_in (toInternal p)) premises).
Qed.

Lemma equal_11_eq a0 b0 p :
  equal [a0] [b0] p =
  match lookup_in (toInternal p) a0 with
  | Threw e => (reset_state p, Threw e)
  | Returned literalA =>
      match lookup_in (toInternal p) b0 with
      | Threw e => (reset_state p, Threw e)
      | Returned literalB =>
          (push_state
             [ {| lo := 1; hi := 2; clause := [literalA; - literalB] |};
               {| lo := 1; hi := 2; clause := [- literalA; literalB] |} ]
             (reset_state p), Returned tt)
      end
  end.
Proof.
  unfold equal, bind, reset, lookup. cbn [toInternal reset_state].
  destruct (lookup_in (toInternal p) a0); [|done].
  by destruct (lookup_in (toInternal p) b0).
Qed.

Lemma equal_1n_eq a0 b1 b2 b p :
  equal [a0] (b1 :: b2 :: b) p = equal_one a0 (b1 :: b2 :: b) p.
Proof.
  unfold equal, equal_one. unfold bind at 1. unfold reset at 1.
  unfold bind at 1. rewrite mapM_lookup. cbn [toInternal reset_state].
  destruct (traverse _ _); [|done].
  unfold bind, lookup. cbn [toInternal reset_state].
  by destruct (lookup_in (toInternal p) a0).
Qed.

Lemma equal_n1_eq a1 a2 a b0 p :
  equal (a1 :: a2 :: a) [b0] p = equal_one b0 (a1 :: a2 :: a) p.
Proof.
  unfold equal, equal_one. unfold bind at 1. unfold reset at 1.
  unfold bind at 1. rewrite mapM_lookup. cbn [toInternal reset_state].
  destruct (traverse _ _); [|done].
  unfold bind, lookup. cbn [toInternal reset_state].
  by destruct (lookup_in (toInternal p) b0).
Qed.

Lemma equal_nn_eq a1 a2 a b1 b2 b p :
  equal (a1 :: a2 :: a) (b1 :: b2 :: b) p =
  let q := generate_state "" (reset_state p) in
  let hiddenPred := Z.of_nat (length (fromInternal p)) in
  match traverse (lookup_in (toInternal p)) (a1 :: a2 :: a) with
  | Threw e => (q, Threw e)
  | Returned conjunctA =>
      match traverse (lookup_in (toInternal p)) (b1 :: b2 :: b) with
      | Threw e => (q, Threw e)
      | Returned conjunctB =>
          (iff_state conjunctB hiddenPred (iff_state conjunctA hiddenPred q),
           Returned tt)
      end
  end.
Proof.
  unfold equal. unfold bind at 1. unfold reset at 1.
  unfold bind at 1. unfold generate at 1.
  unfold bind at 1. rewrite mapM_lookup.
  cbn [toInternal reset_state generate_state fromInternal].
  destruct (traverse _ (a1 :: a2 :: a)); [|done].
  unfold bind at 1. rewrite mapM_lookup.
  cbn [toInternal reset_state generate_state fromInternal].
  by destruct (traverse _ (b1 :: b2 :: b)).
Qed.

Lemma rule_eq conclusion premises p :
  rule conclusion premises p =
  match lookup_in (toInternal p) conclusion with
  | Threw e => (p, Threw e)
  | Returned conc =>
      match traverse (lookup_in (toInternal p)) premises with
      | Threw e => (p, Threw e)
      | Returned prems =>
          if conc <? 0 then (p, Threw (RuleConclusionNegated conclusion))
          else
            (rule_tail conc prems
               (push_state [ {| clause := map Z.opp prems ++ [conc];
                                lo := 1;
                                hi := len (map Z.opp prems ++ [conc]) |} ]
                  (reset_state p)), Returned tt)
      end
  end.
Proof.
  unfold rule. unfold bind at 1. unfold lookup at 1.
  destruct (lookup_in (toInternal p) conclusion) as [conc|] eqn:Ec; [|done].
  unfold bind at 1. rewrite mapM_lookup.
  destruct (traverse _ premises) as [prems|] eqn:Ep; [|done].
  destruct (conc <? 0); [done|].
  unfold bind at 1. rewrite implies_eq, Ec, Ep.
  by destruct prems as [|prem [|prem2 prems]].
Qed.

(** ** Well-formed states *)

Lemma wf_new : wf new_Problem.
Proof.
  split; simpl; try done.
  - intros attr id. unfold lookupAttributeInMap.
    destruct (split_space attr); [done|].
    destruct (negb _); [done|]. destruct (List.find _ _); [done|].
    rewrite lookup_empty. by destruct (inherited _).
  - intros c l Hc. by apply elem_of_nil in Hc.
Qed.

Lemma lookup_in_range p x l :
  wf p -> lookup_in (toInternal p) x = Returned l ->
  lit_in_range (length (fromInternal p)) l.
Proof.
  intros Hwf. unfold lookup_in, lit_in_range.
  destruct (sign_and_attribute x) as [sign attr] eqn:Es.
  destruct (lookupAttributeInMap attr (toInternal p)) as [id|] eqn:E; [|done].
  apply (wf_registry p Hwf) in E. intros [= <-].
  assert (Hs : sign = 1 \/ sign = -1).
  { unfold sign_and_attribute in Es. destruct x as [|c rest].
    - left. congruence.
    - destruct (Ascii.eqb c "!"); [right | left]; congruence. }
  destruct Hs as [-> | ->]; lia.
Qed.

Lemma lookups_in_range p xs ls :
  wf p -> traverse (lookup_in (toInternal p)) xs = Returned ls ->
  Forall (lit_in_range (length (fromInternal p))) ls.
Proof.
  intros Hwf. apply traverse_Forall. intros x y. by apply lookup_in_range.
Qed.

Lemma wf_reset p : wf p -> wf (reset_state p).
Proof.
  intros [H0 H1 H2 H3 H4]. split; simpl; try done.
  - intros c l Hc. apply H2. destruct (nonRuleConstraints p) as [n|]; [|done].
    rewrite <- (take_drop n (constraints p)). apply elem_of_app. by left.
  - intros Hne. apply H4. destruct (nonRuleConstraints p); [|done].
    intros E. rewrite E in Hne. by rewrite take_nil in Hne.
Qed.

Lemma wf_push cs p :
  wf p ->
  (forall c l, c ∈ cs -> l ∈ clause c ->
               (Z.abs_nat l < length (fromInternal p))%nat) ->
  (cs <> [] -> (2 <= length (fromInternal p))%nat) ->
  wf (push_state cs p).
Proof.
  intros [H0 H1 H2 H3 H4] Hcs Hne. split; simpl; try done.
  - intros c l [Hc|Hc]%elem_of_app; [by apply H2 | by apply Hcs].
  - intros Happ. destruct cs; [|by apply Hne].
    rewrite app_nil_r in Happ. by apply H4.
Qed.

Lemma wf_generate name p : wf p -> wf (generate_state name p).
Proof.
  intros [H0 H1 H2 H3 H4]. split; simpl; rewrite ?length_app; simpl.
  - lia.
  - intros attr id Hid. apply H1 in Hid. lia.
  - intros c l Hc Hl. specialize (H2 c l Hc Hl). lia.
  - intros h js Hh. destruct (H3 h js Hh) as [Hr Hjs]. split; [lia|].
    intros j Hj. specialize (Hjs j Hj). lia.
  - intros Hne. specialize (H4 Hne). lia.
Qed.

Lemma wf_push_rule h j p :
  wf p -> (1 <= h < length (fromInternal p))%nat ->
  (Z.abs_nat j < length (fromInternal p))%nat ->
  wf (push_rule_state h j p).
Proof.
  intros [H0 H1 H2 H3 H4] Hh Hj. split; simpl; try done.
  intros h' js. destruct (decide (h = h')) as [<-|Hne].
  - rewrite lookup_insert_eq. intros [= <-]. split; [done|].
    intros j' [Hj'| ->%list_elem_of_singleton]%elem_of_app; [|done].
    destruct (rules p !! h) as [js|] eqn:E; simpl in Hj'.
    + by apply (H3 h js E).
    + by apply elem_of_nil in Hj'.
  - rewrite lookup_insert_ne by done. apply H3.
Qed.

Lemma entries_spec (m : gmap nat (list Z)) h js :
  (h, js) ∈ entries m <-> m !! h = Some js.
Proof.
  unfold entries. rewrite merge_sort_Permutation.
  apply elem_of_map_to_list.
Qed.

Lemma wf_complete p : wf p -> wf (complete_state p).
Proof.
  intros Hwf. unfold complete_state.
  destruct (nonRuleConstraints p); [done|].
  destruct Hwf as [H0 H1 H2 H3 H4]. split; simpl; try done.
  - intros c l [Hc|Hc]%elem_of_app; [by apply H2|].
    apply list_elem_of_fmap in Hc as ([h js] & -> & He).
    apply entries_spec in He. destruct (H3 h js He) as [Hh Hjs].
    simpl. intros [->|Hl]%elem_of_cons; [lia | by apply Hjs].
  - intros Hne. destruct (entries (rules p)) as [|[h js] es] eqn:E.
    + simpl in Hne. rewrite app_nil_r in Hne. by apply H4.
    + assert (He : (h, js) ∈ entries (rules p)) by (rewrite E; left).
      apply entries_spec in He. destruct (H3 h js He) as [Hh _]. lia.
Qed.

Lemma in_range_atoms n ls :
  Forall (lit_in_range n) ls -> ls <> [] -> (2 <= n)%nat.
Proof.
  intros H Hne. destruct ls as [|l ls]; [done|].
  apply Forall_cons in H as [Hl _]. unfold lit_in_range in Hl. lia.
Qed.

Lemma in_range_lt n ls l :
  Forall (lit_in_range n) ls -> l ∈ ls -> (Z.abs_nat l < n)%nat.
Proof.
  intros H Hl. rewrite Forall_forall in H. apply H in Hl.
  unfold lit_in_range in Hl. lia.
Qed.

Lemma in_range_weaken n m ls :
  (n <= m)%nat -> Forall (lit_in_range n) ls -> Forall (lit_in_range m) ls.
Proof.
  intros Hle H. eapply Forall_impl; [exact H|].
  unfold lit_in_range. intros l. simpl. lia.
Qed.

Lemma in_range_opp n ls :
  Forall (lit_in_range n) ls -> Forall (lit_in_range n) (map Z.opp ls).
Proof.
  intros H. apply Forall_fmap. eapply Forall_impl; [exact H|].
  unfold lit_in_range. intros l. simpl. lia.
Qed.

Lemma wf_push_one lo0 hi0 cl p :
  wf p -> Forall (lit_in_range (length (fromInternal p))) cl -> cl <> [] ->
  wf (push_state [ {| lo := lo0; hi := hi0; clause := cl |} ] p).
Proof.
  intros Hwf Hcl Hne. apply wf_push; [done| |].
  - intros c l ->%list_elem_of_singleton Hl. simpl in Hl.
    by eapply in_range_lt.
  - intros _. by eapply in_range_atoms.
Qed.

Lemma wf_iff premises conclusion p :
  wf p ->
  Forall (lit_in_range (length (fromInternal p))) premises ->
  lit_in_range (length (fromInternal p)) conclusion ->
  wf (iff_state premises conclusion p).
Proof.
  intros Hwf Hp Hc. unfold iff_state.
  assert (Hn : (2 <= length (fromInternal p))%nat)
    by (unfold lit_in_range in Hc; lia).
  apply wf_push_one.
  - apply wf_push; [done| |done].
    intros c l (prem & -> & Hprem)%list_elem_of_fmap. simpl.
    intros [->|[->|[]%elem_of_nil]%elem_of_cons]%elem_of_cons.
    + by eapply in_range_lt.
    + unfold lit_in_range in Hc. lia.
  - simpl. apply Forall_app. split; [|by apply Forall_singleton].
    by apply in_range_opp.
  - by destruct (map _ premises).
Qed.

Lemma quantify_nonempty min max (props : list string) :
  quantify_feasible min max props = true ->
  quantify_trivial min max props = false ->
  props <> [].
Proof.
  unfold quantify_feasible, quantify_trivial. intros H1 H2 ->.
  change (inject_Z (len [])) with 0%Q in *.
  destruct (Qle_bool 0 max), (Qle_bool min 0); simpl in *;
    try done; by destruct (_ <=? _).
Qed.

Lemma wf_quantify min max props p :
  wf p -> wf (fst (quantify min max props p)).
Proof.
  intros Hwf. rewrite quantify_eq.
  destruct (quantify_feasible min max props) eqn:E1; [|done].
  destruct (quantify_trivial min max props) eqn:E2; [done|].
  cbn [negb].
  destruct (traverse _ props) as [cl|] eqn:Et; [|done]. simpl.
  apply wf_push_one;
    [by apply wf_reset | exact (lookups_in_range p props cl Hwf Et) |].
  pose proof (quantify_nonempty min max props E1 E2) as Hne.
  apply traverse_length in Et. by destruct cl, props.
Qed.

Lemma wf_implies premises conclusion p :
  wf p -> wf (fst (implies premises conclusion p)).
Proof.
  intros Hwf. rewrite implies_eq.
  destruct (lookup_in _ conclusion) as [conc|] eqn:Ec; [|done].
  destruct (traverse _ premises) as [ls|] eqn:Et; [|done]. simpl.
  apply wf_push_one; [by apply wf_reset | |by destruct (map _ ls)].
  apply Forall_app. split.
  - apply in_range_opp. exact (lookups_in_range p premises ls Hwf Et).
  - apply Forall_singleton. exact (lookup_in_range p conclusion conc Hwf Ec).
Qed.

Lemma wf_equal_one c0 xs p : wf p -> wf (fst (equal_one c0 xs p)).
Proof.
  intros Hwf. unfold equal_one.
  destruct (traverse _ xs) as [prems|] eqn:Et; [|by apply wf_reset].
  destruct (lookup_in _ c0) as [conc|] eqn:Ec; [|by apply wf_reset].
  simpl. apply wf_iff; [by apply wf_reset | |].
  - exact (lookups_in_range p xs prems Hwf Et).
  - exact (lookup_in_range p c0 conc Hwf Ec).
Qed.

Lemma wf_all props p : wf p -> wf (fst (all props p)).
Proof.
  intros Hwf. unfold all. destruct (_ =? _)%nat; [done|].
  by apply wf_quantify.
Qed.

Lemma wf_equal a b p : wf p -> wf (fst (equal a b p)).
Proof.
  intros Hwf.
  destruct a as [|a1 [|a2 a]], b as [|b1 [|b2 b]];
    try done; try (by apply wf_all).
  - rewrite equal_11_eq.
    destruct (lookup_in _ a1) as [la|] eqn:Ea; [|by apply wf_reset].
    destruct (lookup_in _ b1) as [lb|] eqn:Eb; [|by apply wf_reset].
    simpl.
    pose proof (lookup_in_range p a1 la Hwf Ea) as Ha.
    pose proof (lookup_in_range p b1 lb Hwf Eb) as Hb.
    apply wf_push; [by apply wf_reset| |].
    + unfold lit_in_range in *. simpl.
      intros c l [->|[->|[]%elem_of_nil]%elem_of_cons]%elem_of_cons; simpl;
        intros [->|[->|[]%elem_of_nil]%elem_of_cons]%elem_of_cons; lia.
    + intros _. unfold lit_in_range in Ha. simpl. lia.
  - rewrite equal_1n_eq. by apply wf_equal_one.
  - rewrite equal_n1_eq. by apply wf_equal_one.
  - rewrite equal_nn_eq. cbv zeta.
    assert (Hq : wf (generate_state "" (reset_state p)))
      by by apply wf_generate, wf_reset.
    assert (Hlen : length (fromInternal (generate_state "" (reset_state p)))
                   = S (length (fromInternal p))).
    { simpl. rewrite length_app. simpl. lia. }
    pose proof (wf_nonempty p Hwf) as Hn.
    assert (Hh : lit_in_range (S (length (fromInternal p)))
                   (Z.of_nat (length (fromInternal p))))
      by (unfold lit_in_range; lia).
    destruct (traverse _ (a1 :: a2 :: a)) as [ca|] eqn:Ea; [|done].
    destruct (traverse _ (b1 :: b2 :: b)) as [cb|] eqn:Eb; [|done].
    simpl fst.
    apply lookups_in_range in Ea, Eb; try done.
    apply (in_range_weaken _ (S (length (fromInternal p)))) in Ea, Eb;
      try lia.
    apply wf_iff.
    + apply wf_iff; [done|by rewrite Hlen|by rewrite Hlen].
    + by rewrite <- Hlen in Eb.
    + by rewrite <- Hlen in Hh.
Qed.

Lemma wf_rule conclusion premises p :
  wf p -> wf (fst (rule conclusion premises p)).
Proof.
  intros Hwf. rewrite rule_eq.
  destruct (lookup_in _ conclusion) as [conc|] eqn:Ec; [|done].
  destruct (traverse _ premises) as [prems|] eqn:Et; [|done].
  destruct (conc <? 0) eqn:Eneg; [done|]. simpl fst.
  apply lookup_in_range in Ec; [|done].
  apply lookups_in_range in Et; [|done].
  set (q := push_state _ (reset_state p)).
  assert (Hq : wf q).
  { subst q. apply wf_push_one; [by apply wf_reset| |by destruct (map _ prems)].
    apply Forall_app. split; [by apply in_range_opp|by apply Forall_singleton]. }
  assert (Hlen : length (fromInternal q) = length (fromInternal p)) by done.
  assert (Hh : (1 <= Z.to_nat conc < length (fromInternal q))%nat).
  { unfold lit_in_range in Ec. rewrite Hlen. lia. }
  unfold rule_tail. destruct prems as [|prem [|prem2 prems]].
  - apply wf_push_rule; [done|done|simpl; lia].
  - apply wf_push_rule; [done|done|].
    rewrite Forall_singleton in Et. unfold lit_in_range in Et.
    rewrite Hlen. lia.
  - assert (Hlen' : length (fromInternal (generate_state "" q))
                    = S (length (fromInternal q))).
    { simpl. rewrite length_app. simpl. lia. }
    apply wf_push_rule.
    + apply wf_iff; [by apply wf_generate| |].
      * rewrite Hlen', Hlen. eapply in_range_weaken; [|done]. lia.
      * unfold lit_in_range. rewrite Hlen'. lia.
    + change (fromInternal (iff_state _ _ (generate_state "" q)))
        with (fromInternal (generate_state "" q)).
      rewrite Hlen'. lia.
    + change (fromInternal (iff_state _ _ (generate_state "" q)))
        with (fromInternal (generate_state "" q)).
      rewrite Hlen'. lia.
Qed.

(** ** Declaring attributes *)

Lemma grows_refl p : grows p p.
Proof. repeat split. exists []. by rewrite app_nil_r. Qed.

Lemma grows_trans p q r : grows p q -> grows q r -> grows p r.
Proof.
  intros (A1 & A2 & A3 & A4 & n1 & A5) (B1 & B2 & B3 & B4 & n2 & B5).
  repeat split; try congruence.
  exists (n1 ++ n2). by rewrite B5, A5, app_assoc.
Qed.

Lemma grows_generate name p : grows p (generate_state name p).
Proof. repeat split. by exists [name]. Qed.

Lemma grows_length p q :
  grows p q -> (length (fromInternal p) <= length (fromInternal q))%nat.
Proof.
  intros (_ & _ & _ & _ & names & E). rewrite E, length_app. lia.
Qed.

Lemma bounded1_mono n0 n n' m :
  (n <= n')%nat -> bounded1 n0 n m -> bounded1 n0 n' m.
Proof. intros Hle H k v Hk. specialize (H k v Hk). lia. Qed.

Lemma bounded2_mono n0 n n' m :
  (n <= n')%nat -> bounded2 n0 n m -> bounded2 n0 n' m.
Proof. intros Hle H k v Hk. eapply bounded1_mono; [done|by eapply H]. Qed.

Lemma bounded3_mono n0 n n' m :
  (n <= n')%nat -> bounded3 n0 n m -> bounded3 n0 n' m.
Proof. intros Hle H k v Hk. eapply bounded2_mono; [done|by eapply H]. Qed.

(** A loop that only mints ids keeps what holds up to the current number
    of ids. *)
Lemma foldM_grows {A B} (f : B -> A -> M B) (J : nat -> B -> Prop) :
  (forall b x p, J (length (fromInternal p)) b ->
     exists p' b', f b x p = (p', Returned b') /\ grows p p'
                   /\ J (length (fromInternal p')) b') ->
  forall l b p, J (length (fromInternal p)) b ->
    exists p' b', foldM f b l p = (p', Returned b') /\ grows p p'
                  /\ J (length (fromInternal p')) b'.
Proof.
  intros Hstep. induction l as [|x l IH]; intros b p HJ.
  - exists p, b. split; [done|]. split; [apply grows_refl|done].
  - destruct (Hstep b x p HJ) as (p1 & b1 & E1 & G1 & J1).
    destruct (IH b1 p1 J1) as (p2 & b2 & E2 & G2 & J2).
    exists p2, b2. cbn [foldM]. unfold bind at 1. rewrite E1.
    split; [done|]. split; [by eapply grows_trans|done].
Qed.

Lemma fold_ids1 (nm : string -> string) n0 l b p :
  (n0 <= length (fromInternal p))%nat ->
  bounded1 n0 (length (fromInternal p)) b ->
  exists p' b',
    foldM (fun (m : gmap string nat) x =>
             let* id := generate (nm x) in ret (<[x := id]> m)) b l p
    = (p', Returned b')
    /\ grows p p' /\ bounded1 n0 (length (fromInternal p')) b'.
Proof.
  intros Hn Hb.
  destruct (foldM_grows
              (fun (m : gmap string nat) x =>
                 let* id := generate (nm x) in ret (<[x := id]> m))
              (fun n m => (n0 <= n)%nat /\ bounded1 n0 n m)) with
    (l := l) (b := b) (p := p) as (p' & b' & E & G & _ & Hb'); [|done|eauto].
  clear. intros b x p [Hn Hb].
  exists (generate_state (nm x) p), (<[x := length (fromInternal p)]> b).
  split; [done|]. split; [apply grows_generate|].
  simpl. rewrite length_app. simpl. split; [lia|].
  intros k v. destruct (decide (x = k)) as [<-|Hne].
  - rewrite lookup_insert_eq. intros [= <-]. lia.
  - rewrite lookup_insert_ne by done. intros Hk. specialize (Hb k v Hk). lia.
Qed.

Lemma fold_ids2 (nm : string -> string -> string) n0 l1 l b p :
  (n0 <= length (fromInternal p))%nat ->
  bounded2 n0 (length (fromInternal p)) b ->
  exists p' b',
    foldM (fun (m : gmap string (gmap string nat)) x =>
             let* mx :=
               foldM (fun (mx : gmap string nat) y =>
                        let* id := generate (nm x y) in
                        ret (<[y := id]> mx)) ∅ l1 in
             ret (<[x := mx]> m)) b l p
    = (p', Returned b')
    /\ grows p p' /\ bounded2 n0 (length (fromInternal p')) b'.
Proof.
  intros Hn Hb.
  destruct (foldM_grows
              (fun (m : gmap string (gmap string nat)) x =>
                 let* mx :=
                   foldM (fun (mx : gmap string nat) y =>
                            let* id := generate (nm x y) in
                            ret (<[y := id]> mx)) ∅ l1 in
                 ret (<[x := mx]> m))
              (fun n m => (n0 <= n)%nat /\ bounded2 n0 n m)) with
    (l := l) (b := b) (p := p) as (p' & b' & E & G & _ & Hb'); [|done|eauto].
  clear. intros b x p [Hn Hb].
  destruct (fold_ids1 (nm x) n0 l1 ∅ p Hn) as (p1 & mx & E & G & Hmx).
  { intros k v Hk. by rewrite lookup_empty in Hk. }
  exists p1, (<[x := mx]> b). unfold bind at 1. rewrite E.
  split; [done|]. split; [done|].
  pose proof (grows_length p p1 G) as Hle. split; [lia|].
  intros k v. destruct (decide (x = k)) as [<-|Hne].
  - rewrite lookup_insert_eq. by intros [= <-].
  - rewrite lookup_insert_ne by done. intros Hk.
    eapply bounded1_mono; [done|by eapply Hb].
Qed.

Lemma fold_ids3 (nm : string -> string -> string -> string) n0 l2 l1 l b p :
  (n0 <= length (fromInternal p))%nat ->
  bounded3 n0 (length (fromInternal p)) b ->
  exists p' b',
    foldM (fun (m : gmap string (gmap string (gmap string nat))) x =>
             let* mx :=
               foldM (fun (mx : gmap string (gmap string nat)) y =>
                        let* mxy :=
                          foldM (fun (mxy : gmap string nat) z =>
                                   let* id := generate (nm x y z) in
                                   ret (<[z := id]> mxy)) ∅ l2 in
                        ret (<[y := mxy]> mx)) ∅ l1 in
             ret (<[x := mx]> m)) b l p
    = (p', Returned b')
    /\ grows p p' /\ bounded3 n0 (length (fromInternal p')) b'.
Proof.
  intros Hn Hb.
  destruct (foldM_grows
              (fun (m : gmap string (gmap string (gmap string nat))) x =>
                 let* mx :=
                   foldM (fun (mx : gmap string (gmap string nat)) y =>
                            let* mxy :=
                              foldM (fun (mxy : gmap string nat) z =>
                                       let* id := generate (nm x y z) in
                                       ret (<[z := id]> mxy)) ∅ l2 in
                            ret (<[y := mxy]> mx)) ∅ l1 in
                 ret (<[x := mx]> m))
              (fun n m => (n0 <= n)%nat /\ bounded3 n0 n m)) with
    (l := l) (b := b) (p := p) as (p' & b' & E & G & _ & Hb'); [|done|eauto].
  clear. intros b x p [Hn Hb].
  destruct (fold_ids2 (nm x) n0 l2 l1 ∅ p Hn) as (p1 & mx & E & G & Hmx).
  { intros k v Hk. by rewrite lookup_empty in Hk. }
  exists p1, (<[x := mx]> b). unfold bind at 1. rewrite E.
  split; [done|]. split; [done|].
  pose proof (grows_length p p1 G) as Hle. split; [lia|].
  intros k v. destruct (decide (x = k)) as [<-|Hne].
  - rewrite lookup_insert_eq. by intros [= <-].
  - rewrite lookup_insert_ne by done. intros Hk.
    eapply bounded2_mono; [done|by eapply Hb].
Qed.

Lemma truthy_id_Some o id : truthy_id o = Some id -> o = Some id.
Proof. destruct o as [[|k]|]; simpl; congruence. Qed.

Lemma slots_bounded0 n0 n id :
  (n0 <= id < n)%nat -> slots_bounded n0 n (mkSlots (Some id) None None None).
Proof.
  intros Hid attr args id'. unfold switch_args. simpl.
  destruct args as [|x [|y [|z [|w args]]]]; try done.
  destruct id; [done|]. by intros [= <-].
Qed.

Lemma slots_bounded1 n0 n m :
  bounded1 n0 n m -> slots_bounded n0 n (mkSlots None (Some m) None None).
Proof.
  intros Hm attr args id. unfold switch_args. simpl.
  destruct args as [|x [|y [|z [|w args]]]]; try done.
  destruct (truthy_id (m !! x)) eqn:E; [|done].
  apply truthy_id_Some in E. intros [= <-]. by eapply Hm.
Qed.

Lemma slots_bounded2 n0 n m :
  bounded2 n0 n m -> slots_bounded n0 n (mkSlots None None (Some m) None).
Proof.
  intros Hm attr args id. unfold switch_args. simpl.
  destruct args as [|x [|y [|z [|w args]]]]; try done.
  destruct (m !! x) as [m1|] eqn:E1; [|done].
  destruct (truthy_id (m1 !! y)) eqn:E; [|done].
  apply truthy_id_Some in E. intros [= <-]. by eapply Hm.
Qed.

Lemma slots_bounded3 n0 n m :
  bounded3 n0 n m -> slots_bounded n0 n (mkSlots None None None (Some m)).
Proof.
  intros Hm attr args id. unfold switch_args. simpl.
  destruct args as [|x [|y [|z [|w args]]]]; try done.
  destruct (m !! x) as [m2|] eqn:E2; [|done].
  destruct (m2 !! y) as [m1|] eqn:E1; [|done].
  destruct (truthy_id (m1 !! z)) eqn:E; [|done].
  apply truthy_id_Some in E. intros [= <-]. by eapply Hm.
Qed.

(** [attribute] either throws and changes nothing, or mints ids and stores
    an entry that resolves to the ids it minted, under a name that had no
    entry with a defined slot. *)
Lemma attribute_spec name args p :
  (threw (snd (attribute name args p)) /\ fst (attribute name args p) = p)
  \/ exists p1 slots,
       attribute name args p = (set_slots_state name slots p1, Returned tt)
       /\ grows p p1
       /\ toInternal p !! name ≫= slots_findIndex = None
       /\ slots_bounded (length (fromInternal p)) (length (fromInternal p1))
            slots.
Proof.
  remember (attribute name args p) as r eqn:Er. unfold attribute in Er.
  destruct (4 <=? length args)%nat eqn:Ear;
    [subst r; left; split; [by eexists|done]|].
  destruct (negb (IDENT_REGEX name));
    [subst r; left; split; [by eexists|done]|].
  destruct (List.find _ (concat args));
    [subst r; left; split; [by eexists|done]|].
  unfold bind at 1 in Er. unfold get at 1 in Er. cbv beta iota in Er.
  destruct (reads_inherited (toInternal p) name);
    [subst r; left; split; [by eexists|done]|].
  destruct (toInternal p !! name ≫= slots_findIndex) eqn:Edecl;
    [subst r; left; split; [by eexists|done]|].
  right.
  destruct args as [|d0 [|d1 [|d2 [|d3 args]]]]; [| | | |done].
  - exists (generate_state name p),
      (mkSlots (Some (length (fromInternal p))) None None None).
    split; [done|]. split; [apply grows_generate|]. split; [done|].
    apply slots_bounded0. simpl. rewrite length_app. simpl. lia.
  - destruct (fold_ids1 (sp name) (length (fromInternal p)) d0 ∅ p)
      as (p1 & m & E & G & Hm); [lia| |].
    { intros k v Hk. by rewrite lookup_empty in Hk. }
    exists p1, (mkSlots None (Some m) None None).
    unfold bind at 1 in Er. rewrite E in Er.
    split; [done|]. split; [done|]. split; [done|].
    by apply slots_bounded1.
  - destruct (fold_ids2 (fun x y => sp (sp name x) y)
                (length (fromInternal p)) d1 d0 ∅ p)
      as (p1 & m & E & G & Hm); [lia| |].
    { intros k v Hk. by rewrite lookup_empty in Hk. }
    exists p1, (mkSlots None None (Some m) None).
    unfold bind at 1 in Er. rewrite E in Er.
    split; [done|]. split; [done|]. split; [done|].
    by apply slots_bounded2.
  - destruct (fold_ids3 (fun x y z => sp (sp (sp name x) y) z)
                (length (fromInternal p)) d2 d1 d0 ∅ p)
      as (p1 & m & E & G & Hm); [lia| |].
    { intros k v Hk. by rewrite lookup_empty in Hk. }
    exists p1, (mkSlots None None None (Some m)).
    unfold bind at 1 in Er. rewrite E in Er.
    split; [done|]. split; [done|]. split; [done|].
    by apply slots_bounded3.
Qed.

Lemma slots_defined s :
  slots_all_undefined s = false -> slots_findIndex s <> None.
Proof.
  unfold slots_all_undefined, slots_findIndex.
  by destruct (slot0 s), (slot1 s), (slot2 s), (slot3 s).
Qed.

(** An attribute resolved after [toInternal[name] = slots] is resolved by
    the new entry or was resolved before. *)
Lemma lookup_after_set attr name slots (tI : gmap string AttrSlots) id :
  lookupAttributeInMap attr (<[name := slots]> tI) = Returned id ->
  (exists args, switch_args attr args slots = Returned id)
  \/ lookupAttributeInMap attr tI = Returned id.
Proof.
  unfold lookupAttributeInMap.
  destruct (split_space attr) as [|predicate args]; [done|].
  destruct (negb _); [done|]. destruct (List.find _ args); [done|].
  destruct (decide (name = predicate)) as [->|Hne].
  - rewrite lookup_insert_eq. destruct (slots_all_undefined slots); [done|].
    intros H. left. by exists args.
  - rewrite lookup_insert_ne by done. by right.
Qed.

(** What resolved before still resolves, to the same id, when the name had
    no entry with a defined slot. *)
Lemma lookup_before_set attr name slots (tI : gmap string AttrSlots) id :
  tI !! name ≫= slots_findIndex = None ->
  lookupAttributeInMap attr tI = Returned id ->
  lookupAttributeInMap attr (<[name := slots]> tI) = Returned id.
Proof.
  unfold lookupAttributeInMap. intros Hfree.
  destruct (split_space attr) as [|predicate args]; [done|].
  destruct (negb _); [done|]. destruct (List.find _ args); [done|].
  destruct (decide (name = predicate)) as [->|Hne].
  - destruct (tI !! predicate) as [s|] eqn:E; [|by destruct (inherited _)].
    simpl in Hfree.
    destruct (slots_all_undefined s) eqn:Es; [done|].
    by apply slots_defined in Es.
  - by rewrite lookup_insert_ne.
Qed.

Lemma registry_extends_refl p : registry_extends p p.
Proof.
  split; [|done|by left]. exists []. by rewrite app_nil_r.
Qed.

Lemma registry_extends_trans p q r :
  registry_extends p q -> registry_extends q r -> registry_extends p r.
Proof.
  intros [[n1 A1] A2 A3] [[n2 B1] B2 B3]. split.
  - exists (n1 ++ n2). by rewrite B1, A1, app_assoc.
  - intros attr id H. by apply B2, A2.
  - intros attr id H. destruct (B3 attr id H) as [H'|H'].
    + by apply A3.
    + right. rewrite A1, length_app in H'. lia.
Qed.

Lemma same_registry_extends p p' : same_registry p p' -> registry_extends p p'.
Proof.
  intros [E Hn]. split; [done| |]; rewrite E; [done|by left].
Qed.

Lemma attribute_extends name args p :
  registry_extends p (fst (attribute name args p)).
Proof.
  destruct (attribute_spec name args p)
    as [[_ ->]|(p1 & slots & -> & G & Hfree & Hb)];
    [apply registry_extends_refl|].
  destruct G as (GtI & _ & _ & _ & Hnames). split; simpl.
  - done.
  - intros attr id H. rewrite GtI. by apply lookup_before_set.
  - intros attr id H. rewrite GtI in H.
    apply lookup_after_set in H as [[args' H]|H]; [|by left].
    right. apply Hb in H. lia.
Qed.

Lemma wf_attribute name args p : wf p -> wf (fst (attribute name args p)).
Proof.
  intros Hwf.
  destruct (attribute_spec name args p)
    as [[_ ->]|(p1 & slots & -> & G & Hfree & Hb)]; [done|].
  pose proof (grows_length p p1 G) as Hle.
  destruct G as (GtI & Gc & Gr & Gn & Hnames).
  destruct Hwf as [H0 H1 H2 H3 H4]. split; simpl.
  - lia.
  - intros attr id H. rewrite GtI in H.
    apply lookup_after_set in H as [[args' H]|H].
    + apply Hb in H. lia.
    + apply H1 in H. lia.
  - rewrite Gc. intros c l Hc Hl. specialize (H2 c l Hc Hl). lia.
  - rewrite Gr. intros h js Hh. destruct (H3 h js Hh) as [Hr Hjs].
    split; [lia|]. intros j Hj. specialize (Hjs j Hj). lia.
  - rewrite Gc. intros Hne. specialize (H4 Hne). lia.
Qed.

(** ** Every call *)

Lemma solve_state rand p : fst (solve rand p) = complete_state p.
Proof.
  unfold solve, bind, complete_rules.
  by destruct (search rand (complete_state p) 0%nat) as [[[a|e] it] k].
Qed.

Lemma after_solve rand p : after (CallSolve rand) p = complete_state p.
Proof.
  unfold after, run_call. unfold bind at 1.
  pose proof (solve_state rand p) as H.
  destruct (solve rand p) as [p' [s|e]]; simpl in *; done.
Qed.

Lemma wf_after c p : wf p -> wf (after c p).
Proof.
  intros Hwf. destruct c; try rewrite after_solve; unfold after, run_call.
  - by apply wf_attribute.
  - by apply wf_quantify.
  - unfold exactly. destruct (negb _); [done|].
    destruct (_ =? _)%nat; [done|]. by apply wf_quantify.
  - by apply wf_all.
  - unfold atLeast. destruct (negb _); [done|].
    destruct (Qle_bool _ _); [done|]. by apply wf_quantify.
  - unfold atMost. destruct (negb _); [done|].
    destruct (Qle_bool _ _); [done|]. by apply wf_quantify.
  - unfold unique. destruct (_ =? _)%nat; [done|]. by apply wf_quantify.
  - unfold inconsistent, atMost. destruct (negb _); [done|].
    destruct (Qle_bool _ _); [done|]. by apply wf_quantify.
  - by apply wf_implies.
  - by apply wf_equal.
  - by apply wf_all.
  - by apply wf_rule.
  - by apply wf_complete.
Qed.

Lemma wf_reachable p : reachable p -> wf p.
Proof.
  induction 1 as [|c p _ IH]; [apply wf_new | by apply wf_after].
Qed.

Lemma wf_after_all cs : forall p, wf p -> wf (after_all cs p).
Proof.
  induction cs as [|c cs IH]; intros p Hwf; [done|].
  simpl. apply IH. by apply wf_after.
Qed.

Lemma reachable_after_all cs : forall p,
  reachable p -> reachable (after_all cs p).
Proof.
  induction cs as [|c cs IH]; intros p Hr; [done|].
  simpl. apply IH. by constructor.
Qed.

Lemma clean_reachable_reachable p : clean_reachable p -> reachable p.
Proof. induction 1 as [|c p _ IH _]; by constructor. Qed.

Lemma clean_reachable_after_all cs : forall p,
  clean_reachable p -> forallb clean_call cs = true ->
  clean_reachable (after_all cs p).
Proof.
  induction cs as [|c cs IH]; intros p Hr Hcs; [done|].
  cbn [forallb] in Hcs. apply andb_true_iff in Hcs as [Hc Hcs].
  simpl. apply IH; [|done]. by constructor.
Qed.

Lemma clean_reachable_solve p :
  clean_reachable p -> clean_reachable (complete_state p).
Proof.
  intros Hp. apply (clean_step (CallSolve (rand_const 0))) in Hp; [|done].
  unfold after, run_call, solve, bind, complete_rules in Hp.
  cbn [fst] in Hp.
  by destruct (search (rand_const 0) (complete_state p) 0%nat)
    as [[[a|e] it] k].
Qed.

Ltac same_reg :=
  split; [reflexivity
         | first [ by (exists []; rewrite app_nil_r)
                 | by (exists [""%string]) ]].

Lemma same_registry_quantify min max props p :
  same_registry p (fst (quantify min max props p)).
Proof.
  rewrite quantify_eq. destruct (negb _); [same_reg|].
  destruct (quantify_trivial _ _ _); [same_reg|].
  destruct (traverse _ props); same_reg.
Qed.

Lemma same_registry_all props p : same_registry p (fst (all props p)).
Proof.
  unfold all. destruct (_ =? _)%nat; [same_reg|].
  apply same_registry_quantify.
Qed.

Lemma same_registry_equal a b p : same_registry p (fst (equal a b p)).
Proof.
  destruct a as [|a1 [|a2 a]], b as [|b1 [|b2 b]];
    try apply same_registry_all; try same_reg.
  - rewrite equal_11_eq.
    destruct (lookup_in _ a1); [|same_reg]. destruct (lookup_in _ b1); same_reg.
  - rewrite equal_1n_eq. unfold equal_one.
    destruct (traverse _ _); [|same_reg]. destruct (lookup_in _ _); same_reg.
  - rewrite equal_n1_eq. unfold equal_one.
    destruct (traverse _ _); [|same_reg]. destruct (lookup_in _ _); same_reg.
  - rewrite equal_nn_eq. cbv zeta.
    destruct (traverse _ (a1 :: _)); [|same_reg].
    destruct (traverse _ (b1 :: _)); same_reg.
Qed.

Lemma same_registry_rule conclusion premises p :
  same_registry p (fst (rule conclusion premises p)).
Proof.
  rewrite rule_eq.
  destruct (lookup_in _ conclusion); [|same_reg].
  destruct (traverse _ premises) as [prems|]; [|same_reg].
  destruct (_ <? 0); [same_reg|].
  destruct prems as [|prem [|prem2 prems]]; same_reg.
Qed.

Lemma same_registry_after c p :
  (forall name args, c <> CallAttribute name args) ->
  same_registry p (after c p).
Proof.
  intros Hc. destruct c; try rewrite after_solve; unfold after, run_call.
  - by destruct (Hc name args).
  - apply same_registry_quantify.
  - unfold exactly. destruct (negb _); [same_reg|].
    destruct (_ =? _)%nat; [same_reg|]. apply same_registry_quantify.
  - apply same_registry_all.
  - unfold atLeast. destruct (negb _); [same_reg|].
    destruct (Qle_bool _ _); [same_reg|]. apply same_registry_quantify.
  - unfold atMost. destruct (negb _); [same_reg|].
    destruct (Qle_bool _ _); [same_reg|]. apply same_registry_quantify.
  - unfold unique. destruct (_ =? _)%nat; [same_reg|].
    apply same_registry_quantify.
  - unfold inconsistent, atMost. destruct (negb _); [same_reg|].
    destruct (Qle_bool _ _); [same_reg|]. apply same_registry_quantify.
  - rewrite implies_eq. destruct (lookup_in _ _); [|same_reg].
    destruct (traverse _ _); same_reg.
  - apply same_registry_equal.
  - apply same_registry_all.
  - apply same_registry_rule.
  - unfold complete_state. destruct (nonRuleConstraints p); same_reg.
Qed.

Lemma extends_after c p : registry_extends p (after c p).
Proof.
  destruct c;
    try (apply same_registry_extends, same_registry_after; congruence).
  apply attribute_extends.
Qed.

Lemma extends_after_all cs : forall p, registry_extends p (after_all cs p).
Proof.
  induction cs as [|c cs IH]; intros p; [apply registry_extends_refl|].
  simpl. eapply registry_extends_trans; [apply extends_after | apply IH].
Qed.

(** ** Literals as the data model reads them *)

Lemma lookup_lit_spec A l :
  A !! 0%nat = Some true -> (Z.abs_nat l < length A)%nat ->
  lookup_lit A l = literal_true A l.
Proof.
  intros H0 Hl. unfold lookup_lit, literal_true, js_index.
  destruct (l <? 0) eqn:Eneg.
  - assert (E1 : (- l <? 0) = false) by lia. rewrite E1.
    assert (E2 : (l =? 0) = false) by lia. rewrite E2.
    assert (E3 : (0 <? l) = false) by lia. rewrite E3.
    destruct (lookup_lt_is_Some_2 A (Z.to_nat (- l))) as [b Hb]; [lia|].
    rewrite Hb. simpl. destruct b.
    + by rewrite bool_decide_eq_false_2.
    + by rewrite bool_decide_eq_true_2.
  - destruct (l =? 0) eqn:E0.
    + assert (l = 0) as -> by lia.
      change (default false (A !! 0%nat) = true). by rewrite H0.
    + assert (E3 : (0 <? l) = true) by lia. rewrite E3.
      destruct (lookup_lt_is_Some_2 A (Z.to_nat l)) as [b Hb]; [lia|].
      rewrite Hb. simpl. destruct b.
      * by rewrite bool_decide_eq_true_2.
      * by rewrite bool_decide_eq_false_2.
Qed.

Lemma count_spec A L :
  A !! 0%nat = Some true ->
  (forall l, l ∈ L -> (Z.abs_nat l < length A)%nat) ->
  numLiteralsInClauseSatisfied A L = true_literals A L.
Proof.
  intros H0. unfold numLiteralsInClauseSatisfied, true_literals.
  assert (Hgen : forall acc,
    (forall l, l ∈ L -> (Z.abs_nat l < length A)%nat) ->
    foldl (fun accum literal =>
             if lookup_lit A literal then accum + 1 else accum) acc L
    = acc + len (filter (fun l => literal_true A l = true) L)).
  { induction L as [|l L IH]; intros acc HL; cbn [foldl].
    - unfold len. simpl. lia.
    - rewrite IH by (intros l' Hl'; apply HL; by right).
      rewrite (lookup_lit_spec A l H0) by (apply HL; left).
      rewrite filter_cons. unfold len.
      destruct (literal_true A l); simpl; lia. }
  intros HL. by rewrite Hgen.
Qed.

Lemma solve_returned rand p p' s :
  solve rand p = (p', Returned s) ->
  p' = complete_state p
  /\ exists it,
       fst (search rand (complete_state p) 0%nat)
       = (Returned (satisfyingAssignment s), it).
Proof.
  unfold solve, bind, complete_rules.
  destruct (search rand (complete_state p) 0%nat) as [[[a|e] it] k]; [|done].
  simpl. intros [= <- <-]. split; [done|]. by exists it.
Qed.

(** What a returned solution of a well-formed problem looks like. *)
Lemma solve_sound_wf rand p p' s :
  wf p -> valid_rand rand -> solve rand p = (p', Returned s) ->
  p' = complete_state p
  /\ length (satisfyingAssignment s) = length (fromInternal p)
  /\ satisfyingAssignment s !! 0%nat = Some true
  /\ forallb (clause_sat (satisfyingAssignment s)) (constraints p') = true.
Proof.
  intros Hwf Hrand Hs. apply solve_returned in Hs as [-> [it Hs]].
  pose proof (wf_complete p Hwf) as Hwf'.
  apply search_sound in Hs; [|done| |].
  - destruct Hs as (Hl & H0 & Hall). split; [done|]. split; [|done].
    rewrite Hl. unfold complete_state. by destruct (nonRuleConstraints p).
  - pose proof (wf_nonempty _ Hwf') as Hn. intros E. rewrite E in Hn.
    simpl in Hn. lia.
  - apply (wf_atoms _ Hwf').
Qed.

(** ** The checkpoint *)

Lemma appends_refl q : appends q q.
Proof. split; [done|]. exists []. by rewrite app_nil_r. Qed.

Lemma appends_trans q q' q'' : appends q q' -> appends q' q'' -> appends q q''.
Proof.
  intros [A1 [a A2]] [B1 [b B2]]. split; [congruence|].
  exists (a ++ b). by rewrite B2, A2, app_assoc.
Qed.

Lemma appends_push cs q : appends q (push_state cs q).
Proof. split; [done|]. by exists cs. Qed.

Lemma appends_generate name q : appends q (generate_state name q).
Proof. split; [done|]. exists []. simpl. by rewrite app_nil_r. Qed.

Lemma appends_push_rule h j q : appends q (push_rule_state h j q).
Proof. split; [done|]. exists []. simpl. by rewrite app_nil_r. Qed.

Lemma appends_iff prems conc q : appends q (iff_state prems conc q).
Proof.
  unfold iff_state. eapply appends_trans; apply appends_push.
Qed.

Lemma appends_rule_tail conc prems q : appends q (rule_tail conc prems q).
Proof.
  unfold rule_tail. destruct prems as [|prem [|prem2 prems]];
    try apply appends_push_rule.
  eapply appends_trans; [apply appends_generate|].
  eapply appends_trans; [apply appends_iff | apply appends_push_rule].
Qed.

Lemma truncates_intro q c q' :
  appends (push_state [c] q) q' ->
  nonRuleConstraints q = None ->
  nonRuleConstraints q' = None
  /\ exists added, added <> [] /\ constraints q' = constraints q ++ added.
Proof.
  intros [A1 [a A2]] Hq. split; [by rewrite A1|].
  exists ([c] ++ a). split; [done|]. by rewrite A2, app_assoc.
Qed.

Lemma truncates_quantify min max props : truncates (quantify min max props).
Proof.
  intros p p' H. rewrite quantify_eq in H. rewrite quantify_eq.
  change (toInternal (reset_state p)) with (toInternal p).
  destruct (negb _); [done|]. destruct (quantify_trivial _ _ _); [done|].
  destruct (traverse _ props) as [cl|]; [|done].
  injection H as <-.
  split; [done|]. split; [|done]. eexists [_]. by split.
Qed.

Lemma truncates_all props : truncates (all props).
Proof.
  unfold all. destruct (_ =? _)%nat; [done|]. apply truncates_quantify.
Qed.

Lemma truncates_implies premises conclusion :
  truncates (implies premises conclusion).
Proof.
  intros p p' H. rewrite implies_eq in H. rewrite implies_eq.
  change (toInternal (reset_state p)) with (toInternal p).
  destruct (lookup_in _ conclusion); [|done].
  destruct (traverse _ premises); [|done].
  injection H as <-.
  split; [done|]. split; [|done]. eexists [_]. by split.
Qed.

Lemma truncates_equal_one c0 xs : truncates (equal_one c0 xs).
Proof.
  intros p p' H. unfold equal_one in *.
  change (toInternal (reset_state p)) with (toInternal p).
  destruct (traverse _ xs) as [prems|]; [|done].
  destruct (lookup_in _ c0) as [conc|]; [|done].
  injection H as <-. split; [done|]. split; [|done].
  unfold iff_state. simpl. rewrite <- app_assoc.
  eexists. split; [|done]. by destruct (map _ prems).
Qed.

Lemma truncates_equal a b : truncates (equal a b).
Proof.
  destruct a as [|a1 [|a2 a]], b as [|b1 [|b2 b]];
    try apply truncates_all; try done.
  - intros p p' H. rewrite equal_11_eq in H. rewrite equal_11_eq.
    change (toInternal (reset_state p)) with (toInternal p).
    destruct (lookup_in _ a1); [|done]. destruct (lookup_in _ b1); [|done].
    injection H as <-.
    split; [done|]. split; [|done]. eexists [_; _]. by split.
  - intros p p' H. rewrite equal_1n_eq in H. rewrite equal_1n_eq.
    by apply truncates_equal_one.
  - intros p p' H. rewrite equal_n1_eq in H. rewrite equal_n1_eq.
    by apply truncates_equal_one.
  - intros p p' H. rewrite equal_nn_eq in H. rewrite equal_nn_eq.
    cbv zeta in *.
    change (toInternal (reset_state p)) with (toInternal p).
    destruct (traverse _ (a1 :: _)) as [ca|]; [|done].
    destruct (traverse _ (b1 :: _)) as [cb|]; [|done].
    injection H as <-. split; [done|]. split; [|done].
    unfold iff_state. simpl. rewrite <- !app_assoc.
    eexists. split; [|done]. by destruct ca.
Qed.

Lemma truncates_rule conclusion premises :
  truncates (rule conclusion premises).
Proof.
  intros p p' H. rewrite rule_eq in H. rewrite rule_eq.
  change (toInternal (reset_state p)) with (toInternal p).
  destruct (lookup_in _ conclusion) as [conc|]; [|done].
  destruct (traverse _ premises) as [prems|]; [|done].
  destruct (conc <? 0); [done|].
  injection H as <-. split; [|split; [|done]].
  - pose proof (appends_rule_tail conc prems
                  (push_state
                     [ {| clause := map Z.opp prems ++ [conc]; lo := 1;
                          hi := len (map Z.opp prems ++ [conc]) |} ]
                     (reset_state p))) as [A _].
    by rewrite A.
  - eapply truncates_intro; [apply appends_rule_tail | done].
Qed.

Lemma truncates_call c : adds_constraint c = true -> truncates (run_call c).
Proof.
  destruct c; try done; intros _; unfold run_call.
  - apply truncates_quantify.
  - unfold exactly. destruct (negb _); [done|].
    destruct (_ =? _)%nat; [done|]. apply truncates_quantify.
  - apply truncates_all.
  - unfold atLeast. destruct (negb _); [done|].
    destruct (Qle_bool _ _); [done|]. apply truncates_quantify.
  - unfold atMost. destruct (negb _); [done|].
    destruct (Qle_bool _ _); [done|]. apply truncates_quantify.
  - unfold unique. destruct (_ =? _)%nat; [done|].
    apply truncates_quantify.
  - unfold inconsistent, atMost. destruct (negb _); [done|].
    destruct (Qle_bool _ _); [done|]. apply truncates_quantify.
  - apply truncates_implies.
  - apply truncates_equal.
  - apply truncates_all.
  - apply truncates_rule.
Qed.


#[global] Instance completion_inj : Inj eq eq completion.
Proof.
  intros [h js] [h' js']. unfold completion. simpl.
  intros H. injection H as _ Hh ->. f_equal. lia.
Qed.

Lemma entries_NoDup (m : gmap nat (list Z)) : NoDup (entries m).
Proof.
  unfold entries. rewrite merge_sort_Permutation. apply NoDup_map_to_list.
Qed.

Lemma completion_NoDup (m : gmap nat (list Z)) :
  NoDup (map completion (entries m)).
Proof. apply (NoDup_fmap_2 completion), entries_NoDup. Qed.

(** * The claims *)

Lemma valid_rand_const q : (0 <= q)%Q -> (q < 1)%Q -> valid_rand (rand_const q).
Proof. intros H0 H1 k. by split. Qed.

(** C1. Soundness of returned solutions, at an input where the code
    departs from it.  After [attribute('p', [[], []])] and
    [assert('!p constructor length')] the store holds the clause
    [(1, 1, [-1])] and no atom but [0] exists.  Whatever [Math.random()]
    returns, [solve()] returns the assignment [[true]] at once:
    [satisfies] reads the missing entry [1] as falsy and counts the literal
    [-1] as satisfied.  No atom is assigned [false], so with a negative
    literal true when its atom is assigned [false], as the specification
    reads it, the clause has [0] true literals, which is not in
    [[1, 1]]. *)
Theorem unminted_literal_breaks_soundness rand :
  solve rand unminted_negation
  = (complete_state unminted_negation, Returned (mkSolution [true]))
  /\ constraints (complete_state unminted_negation)
     = [ {| lo := 1; hi := 1; clause := [-1] |} ]
  /\ numLiteralsInClauseSatisfied [true] [-1] = 1
  /\ true_literals [true] [-1] = 0.
Proof.
  split; [|by vm_compute].
  unfold solve, bind, complete_rules. cbn [fst].
  by vm_compute.
Qed.

(** C8. Bounded termination: [solve()] returns a [Solution] or throws the
    timeout error, in both cases after at most 50,000 runs of the body of
    the flip-search loop, and a timeout comes after exactly 50,000. *)
Theorem solve_terminates rand p :
  exists it,
    (it <= 50000)%nat
    /\ ((exists a,
           fst (search rand (complete_state p) 0%nat) = (Returned a, it)
           /\ solve rand p = (complete_state p, Returned (mkSolution a)))
        \/ (it = 50000%nat
            /\ fst (search rand (complete_state p) 0%nat) = (Threw Timeout, it)
            /\ solve rand p = (complete_state p, Threw Timeout))).
Proof.
  destruct (search_bound rand (complete_state p) 0%nat) as (it & Hle & Hcase).
  exists it. split; [done|].
  unfold solve, bind, complete_rules.
  destruct Hcase as [[a Ha]|[Ht ->]].
  - left. exists a. split; [done|].
    destruct (search rand (complete_state p) 0%nat) as [[o it'] k].
    simpl in Ha. by inversion Ha.
  - right. split; [done|]. split; [done|].
    destruct (search rand (complete_state p) 0%nat) as [[o it'] k].
    simpl in Ht. by inversion Ht.
Qed.

(** The search on the clause [(1, 1, [1])] with no atom but [0]. *)
Lemma satisfies_unminted rand k :
  satisfies rand [ {| lo := 1; hi := 1; clause := [1] |} ] [true] k
  = (Some {| clausesSatisfied := 0; suggestion := None |}, S k).
Proof.
  unfold satisfies.
  assert (E : score [ {| lo := 1; hi := 1; clause := [1] |} ] [true]
              = (0, [0])) by (vm_compute; reflexivity).
  rewrite E.
  change (0 =? len [ {| lo := 1; hi := 1; clause := [1] |} ]) with false.
  change (pick_best [0]) with (@nil nat).
  unfold rbind, random, rret, js_index. cbv iota.
  by destruct (_ <? 0).
Qed.

Lemma satisfies_grown rand k :
  satisfies rand [ {| lo := 1; hi := 1; clause := [1] |} ] [true; true] k
  = (None, k).
Proof. reflexivity. Qed.

Lemma search_loop_unminted rand w f : forall st k a it,
  l_assignment st = [true] ->
  l_result st = Some {| clausesSatisfied := 0; suggestion := None |} ->
  fst (search_loop rand [ {| lo := 1; hi := 1; clause := [1] |} ] w f st k)
  = (Returned a, it) ->
  a = [true; true].
Proof.
  induction f as [|f IH]; intros st k a it Ha Hres; cbn [search_loop];
    rewrite Hres; [done|].
  unfold rbind at 1. unfold loop_body, rbind, random, rret.
  rewrite Ha. cbn [suggestion flip_suggestion].
  destruct (Qle_bool (rand k) (l_noise st)); cbn [negb].
  - assert (Eg : 1 + Qfloor (rand (S k) * inject_Z (len [true] - 1)) = 1).
    { change (len [true] - 1) with 0. unfold Qfloor, Qmult. simpl.
      by rewrite Z.mul_0_r, Zdiv_0_l. }
    rewrite Eg. change (flip [true] 1) with [true; true].
    rewrite satisfies_grown.
    destruct f; [done|]. cbn [search_loop l_result l_assignment rret fst].
    by intros [= <- _].
  - rewrite satisfies_unminted. destruct f; [done|]. by apply IH.
Qed.


(** C7. Stale lookup, at an input where the code departs from it.  After
    [attribute('p', [[], []])] and [assert('p constructor length')] the
    store holds the clause [(1, 1, [1])] and no atom but [0] exists.  The
    assignment of [solve()] starts as [[true]]; the candidate list of
    [satisfies] is empty, so a greedy round changes nothing, and a random
    round flips [assignment[1]], which makes the array grow: what
    [solve()] returns, when it returns, is [[true, true]], and with
    [Math.random()] returning [0] it returns after one round.  The id [1]
    is minted afterwards, by [attribute('z')], and the solution answers
    [lookup['z']] with [true] where the specification has it throw. *)
Theorem lookup_after_the_array_grew rand :
  (forall p' s,
     solve rand unminted_assertion = (p', Returned s) ->
     s = mkSolution [true; true])
  /\ solve (rand_const 0) unminted_assertion
     = (complete_state unminted_assertion, Returned (mkSolution [true; true]))
  /\ fromInternal (complete_state unminted_assertion) = [""%string]
  /\ lookupAttributeInMap "z" (toInternal (complete_state unminted_assertion))
     = Threw (NoPredicateDeclared "z")
  /\ lookupAttributeInMap "z"
       (toInternal (after (CallAttribute "z" [])
                      (complete_state unminted_assertion)))
     = Returned 1%nat
  /\ Solution_lookup (mkSolution [true; true])
       (after (CallAttribute "z" []) (complete_state unminted_assertion)) "z"
     = Returned true.
Proof.
  split; [|by vm_compute].
  intros p' s. unfold solve, bind, complete_rules.
  destruct (search rand (complete_state unminted_assertion) 0%nat)
    as [[o it] k] eqn:Es.
  cbn [fst]. destruct o as [a|e]; [|done]. intros [= _ <-]. f_equal.
  unfold search in Es.
  change (fromInternal (complete_state unminted_assertion))
    with [""%string] in Es.
  change (constraints (complete_state unminted_assertion))
    with [ {| lo := 1; hi := 1; clause := [1] |} ] in Es.
  cbn [rmapM] in Es. unfold rbind, random, rret in Es.
  rewrite satisfies_unminted in Es.
  eapply search_loop_unminted; [| |by rewrite Es]; done.
Qed.

(** C3. Rule completion clause shape: the first [solve()] after a
    constraint was added (the checkpoint is clear) appends, for every rule
    head [h] with recorded justifications [js], exactly one clause
    [(1, |js|+1, -h :: js)], and nothing else; a [solve()] that follows
    immediately appends nothing.  A successful [rule()] records its
    justification ([0] without premises, the literal of a single premise,
    a fresh id for a conjunction) after those already recorded for its
    head. *)
Theorem rule_completion_shape rand rand' p :
  nonRuleConstraints p = None ->
  (exists appended,
     constraints (fst (solve rand p)) = constraints p ++ appended
     /\ NoDup appended
     /\ length appended = size (rules p)
     /\ forall c,
          c ∈ appended <->
          exists h js,
            rules p !! h = Some js
            /\ c = {| lo := 1; hi := len js + 1;
                      clause := - Z.of_nat h :: js |})
  /\ fst (solve rand' (fst (solve rand p))) = fst (solve rand p)
  /\ forall conclusion premises q q',
       rule conclusion premises q = (q', Returned tt) ->
       exists conc prems,
         lookup_in (toInternal q) conclusion = Returned conc
         /\ traverse (lookup_in (toInternal q)) premises = Returned prems
         /\ rules q'
            = <[Z.to_nat conc :=
                  default [] (rules q !! Z.to_nat conc)
                  ++ [match prems with
                      | [] => 0
                      | [prem] => prem
                      | _ => Z.of_nat (length (fromInternal q))
                      end]]> (rules q).
Proof.
  intros Hck. rewrite !solve_state. split; [|split].
  - exists (map completion (entries (rules p))).
    unfold complete_state at 1. rewrite Hck. simpl.
    split; [done|]. split; [apply completion_NoDup|]. split.
    + rewrite length_map. unfold entries.
      rewrite merge_sort_Permutation. apply length_map_to_list.
    + intros c. rewrite list_elem_of_fmap. split.
      * intros ([h js] & -> & He). apply entries_spec in He.
        by exists h, js.
      * intros (h & js & Hh & ->). exists (h, js). split; [done|].
        by apply entries_spec.
  - unfold complete_state. by rewrite Hck.
  - intros conclusion premises q q' H. rewrite rule_eq in H.
    destruct (lookup_in _ conclusion) as [conc|]; [|done].
    destruct (traverse _ premises) as [prems|]; [|done].
    destruct (conc <? 0); [done|]. injection H as <-.
    exists conc, prems. split; [done|]. split; [done|].
    by destruct prems as [|prem [|prem2 prems]].
Qed.

(** The theorem at the negative-loop problem. *)
Lemma rule_completion_shape_witness :
  nonRuleConstraints negloop = None
  /\ (exists appended,
        constraints (fst (solve (rand_const 0) negloop))
        = constraints negloop ++ appended
        /\ NoDup appended
        /\ length appended = size (rules negloop)
        /\ forall c,
             c ∈ appended <->
             exists h js,
               rules negloop !! h = Some js
               /\ c = {| lo := 1; hi := len js + 1;
                         clause := - Z.of_nat h :: js |})
  /\ fst (solve (rand_const (1 # 2)) (fst (solve (rand_const 0) negloop)))
     = fst (solve (rand_const 0) negloop)
  /\ forall conclusion premises q q',
       rule conclusion premises q = (q', Returned tt) ->
       exists conc prems,
         lookup_in (toInternal q) conclusion = Returned conc
         /\ traverse (lookup_in (toInternal q)) premises = Returned prems
         /\ rules q'
            = <[Z.to_nat conc :=
                  default [] (rules q !! Z.to_nat conc)
                  ++ [match prems with
                      | [] => 0
                      | [prem] => prem
                      | _ => Z.of_nat (length (fromInternal q))
                      end]]> (rules q).
Proof.
  assert (Hck : nonRuleConstraints negloop = None) by reflexivity.
  split; [exact Hck|].
  exact (rule_completion_shape (rand_const 0) (rand_const (1 # 2)) negloop Hck).
Defined.





(** C2. Negative-loop rule semantics: with the rules [q <- !p] and
    [p <- !q] over two nullary attributes, whether or not the problem has
    been solved before, every returned solution assigns [true] to exactly
    one of [p] and [q], and its [trueAttributes] is [["p"]] or [["q"]]. *)
Theorem negloop_models rand p p' s :
  p = negloop \/ p = complete_state negloop ->
  valid_rand rand -> solve rand p = (p', Returned s) ->
  (satisfyingAssignment s = [true; true; false]
   /\ trueAttributes s p' = ["p"%string])
  \/ (satisfyingAssignment s = [true; false; true]
      /\ trueAttributes s p' = ["q"%string]).
Proof.
  intros Hp Hrand Hs.
  assert (Hwf : wf p).
  { apply wf_reachable. destruct Hp as [-> | ->].
    - apply (reachable_after_all negloop_calls new_Problem), reachable_new.
    - rewrite <- (after_solve rand).
      apply reachable_call,
        (reachable_after_all negloop_calls new_Problem), reachable_new. }
  destruct (solve_sound_wf rand p p' s Hwf Hrand Hs) as (-> & Hl & H0 & Hall).
  assert (Hp' : complete_state p = complete_state negloop)
    by (by destruct Hp as [-> | ->]).
  assert (Hlen : length (fromInternal p) = 3%nat)
    by (by destruct Hp as [-> | ->]).
  rewrite Hp' in *. rewrite Hlen in Hl. clear Hp Hp' Hlen Hs Hwf.
  destruct s as [a]. cbn [satisfyingAssignment] in *.
  destruct a as [|b0 [|b1 [|b2 [|b3 a]]]]; try discriminate Hl.
  injection H0 as ->.
  destruct b1, b2; vm_compute in Hall; try discriminate Hall.
  - left. split; [done|]. vm_compute. reflexivity.
  - right. split; [done|]. vm_compute. reflexivity.
Qed.

(** The theorem at the first [solve()], with [Math.random()] returning
    [0] every time. *)
Lemma negloop_models_witness :
  (negloop = negloop \/ negloop = complete_state negloop)
  /\ valid_rand (rand_const 0)
  /\ solve (rand_const 0) negloop
     = (complete_state negloop, Returned (mkSolution [true; true; false]))
  /\ ((satisfyingAssignment (mkSolution [true; true; false])
       = [true; true; false]
       /\ trueAttributes (mkSolution [true; true; false])
            (complete_state negloop) = ["p"%string])
      \/ (satisfyingAssignment (mkSolution [true; true; false])
          = [true; false; true]
          /\ trueAttributes (mkSolution [true; true; false])
               (complete_state negloop) = ["q"%string])).
Proof.
  assert (H1 : negloop = negloop \/ negloop = complete_state negloop)
    by (left; reflexivity).
  assert (H2 : valid_rand (rand_const 0)) by (by apply valid_rand_const).
  assert (H3 : solve (rand_const 0) negloop
               = (complete_state negloop,
                  Returned (mkSolution [true; true; false])))
    by (vm_compute; reflexivity).
  split; [exact H1|]. split; [exact H2|]. split; [exact H3|].
  exact (negloop_models (rand_const 0) negloop (complete_state negloop)
           (mkSolution [true; true; false]) H1 H2 H3).
Defined.

(** C5. Suggestion selection, at an input where the code departs from it:
    with both atoms false, flipping [a] would satisfy two clauses and
    flipping [b] one (scores [2] and [1]); the candidate list holds [b]
    alone, so the suggestion is [b] whatever [Math.random()] returns,
    never the atom with the highest score. *)
Theorem suggestion_misses_highest_score :
  snd (score (constraints two_against_one) [true; false; false]) = [0; 2; 1]
  /\ pick_best (snd (score (constraints two_against_one)
                       [true; false; false])) = [2%nat]
  /\ fst (satisfies (rand_const 0) (constraints two_against_one)
            [true; false; false] 0%nat)
     = Some {| clausesSatisfied := 0; suggestion := Some 2%nat |}
  /\ fst (satisfies (rand_const (9 # 10)) (constraints two_against_one)
            [true; false; false] 0%nat)
     = Some {| clausesSatisfied := 0; suggestion := Some 2%nat |}.
Proof. vm_compute. repeat split. Qed.




(** C10. An empty candidate list: in a reachable state there is an
    assignment that violates a clause while every atom has a strictly
    negative score; [satisfies] then reports a result whose suggestion is
    undefined, whatever [Math.random()] returns, and the greedy flip of
    the loop body leaves the assignment as it was. *)
Theorem undefined_suggestion :
  exists p a,
    reachable p
    /\ length a = length (fromInternal p) /\ a !! 0%nat = Some true
    /\ (exists c, c ∈ constraints p /\ clause_sat a c = false)
    /\ (forall i x, (1 <= i)%nat ->
          snd (score (constraints p) a) !! i = Some x -> x < 0)
    /\ pick_best (snd (score (constraints p) a)) = []
    /\ (forall rand k,
          exists n,
            fst (satisfies rand (constraints p) a k)
            = Some {| clausesSatisfied := n; suggestion := None |})
    /\ forall rand k w st r,
         l_assignment st = a -> suggestion r = None ->
         Qle_bool (rand k) (l_noise st) = false ->
         l_assignment (fst (loop_body rand (constraints p) w st r k)) = a.
Proof.
  exists (complete_state both_or_neither), [true; false; false].
  assert (Hs : score (constraints (complete_state both_or_neither))
                 [true; false; false] = (2, [0; -1; -1]))
    by (vm_compute; reflexivity).
  split.
  { rewrite <- (after_solve (rand_const 0)).
    apply reachable_call.
    apply (reachable_after_all
             [ CallAttribute "a" []; CallAttribute "b" [];
               CallAll ["a"; "b"]%string;
               CallEqual ["a"%string] ["b"%string] ] new_Problem),
      reachable_new. }
  split; [reflexivity|]. split; [reflexivity|]. split.
  { exists {| lo := 2; hi := 2; clause := [1; 2] |}. split; [|reflexivity].
    vm_compute. apply list_elem_of_In. simpl. tauto. }
  rewrite Hs. cbn [snd]. split.
  { intros [|[|[|i]]] x Hi; simpl; intros [= <-]; lia. }
  split; [reflexivity|]. split.
  { intros rand k. exists 2. unfold satisfies. rewrite Hs.
    change (2 =? len (constraints (complete_state both_or_neither)))
      with false.
    change (pick_best [0; -1; -1]) with (@nil nat).
    unfold rbind, random, rret, js_index. cbn [fst].
    by destruct (_ <? 0). }
  intros rand k w st r Ha Hsugg Hgreedy.
  unfold loop_body, rbind, random. rewrite Hgreedy, Hsugg, Ha.
  cbn [negb flip_suggestion rret].
  by destruct (satisfies rand _ [true; false; false] (S k)).
Qed.

(** * Further properties *)

(** ** Names and their pieces *)

Lemma append_cons c (a b : string) :
  (String c a +:+ b = String c (a +:+ b))%string.
Proof. reflexivity. Qed.

Lemma append_assoc (a b c : string) : ((a +:+ b) +:+ c = a +:+ (b +:+ c))%string.
Proof.
  induction a as [|ch a IH]; [done|]. rewrite !append_cons. by f_equal.
Qed.

Lemma split_space_nonempty s : split_space s <> [].
Proof.
  destruct s as [|c s]; simpl; [done|].
  destruct (Ascii.eqb c " "); [done|]. by destruct (split_space s).
Qed.

Lemma concat_head c w ws :
  String.concat " " (String c w :: ws)
  = String c (String.concat " " (w :: ws)).
Proof. by destruct ws. Qed.

(** [s.split(' ').join(' ')] is [s]. *)
Lemma concat_split_space s : String.concat " " (split_space s) = s.
Proof.
  induction s as [|c s IH]; [done|]. cbn [split_space].
  pose proof (split_space_nonempty s) as Hne.
  destruct (Ascii.eqb c " ") eqn:E.
  - apply Ascii.eqb_eq in E as ->.
    destruct (split_space s) as [|w ws]; [done|].
    change (String.concat " " ("" :: w :: ws))
      with (String " " (String.concat " " (w :: ws)))%string.
    by rewrite IH.
  - destruct (split_space s) as [|w ws]; [done|].
    by rewrite concat_head, IH.
Qed.

Lemma is_word_not_space c : is_word c = true -> Ascii.eqb c " " = false.
Proof.
  intros H. destruct (Ascii.eqb c " ") eqn:E; [|done].
  apply Ascii.eqb_eq in E as ->. by vm_compute in H.
Qed.

(** A string of word characters is one piece. *)
Lemma split_space_word s : all_word s = true -> split_space s = [s].
Proof.
  induction s as [|c s IH]; [done|]. cbn [all_word split_space].
  intros [Hc Hs]%andb_true_iff. rewrite (is_word_not_space c Hc).
  by rewrite (IH Hs).
Qed.

Lemma split_space_app s t :
  all_word s = true ->
  split_space (s +:+ " " +:+ t)%string = s :: split_space t.
Proof.
  induction s as [|c s IH]; [done|]. cbn [all_word].
  intros [Hc Hs]%andb_true_iff.
  change ((String c s +:+ " " +:+ t)%string)
    with (String c (s +:+ " " +:+ t))%string.
  cbn [split_space]. rewrite (is_word_not_space c Hc). by rewrite (IH Hs).
Qed.

Lemma IDENT_REGEX_word s : IDENT_REGEX s = true -> all_word s = true.
Proof.
  destruct s as [|c s]; [done|]. cbn [IDENT_REGEX all_word].
  intros [Hc Hs]%andb_true_iff. rewrite Hs, andb_true_r.
  unfold is_word. by rewrite Hc, orb_true_r.
Qed.

(** ** What a declaration stores *)

Lemma grows_lookup p p' i x :
  grows p p' -> fromInternal p !! i = Some x -> fromInternal p' !! i = Some x.
Proof.
  intros (_ & _ & _ & _ & names & ->) H. by apply lookup_app_l_Some.
Qed.

(** A loop that stores one value per element under the element's key:
    what holds of every stored value, which keys are present, how many ids
    were minted. *)
Lemma foldM_insert {V} (f : gmap string V -> string -> M (gmap string V))
    (J : Problem -> string -> V -> Prop) (n0 c : nat) :
  (forall p p' k v, grows p p' -> J p k v -> J p' k v) ->
  (forall b x p,
     (n0 <= length (fromInternal p))%nat ->
     exists p' v,
       f b x p = (p', Returned (<[x := v]> b)) /\ grows p p' /\ J p' x v
       /\ length (fromInternal p') = (length (fromInternal p) + c)%nat) ->
  forall l b p,
    (n0 <= length (fromInternal p))%nat ->
    (forall k v, b !! k = Some v -> J p k v) ->
    exists p' b',
      foldM f b l p = (p', Returned b') /\ grows p p'
      /\ (forall k v, b' !! k = Some v -> J p' k v)
      /\ (forall k, k ∈ l \/ is_Some (b !! k) <-> is_Some (b' !! k))
      /\ length (fromInternal p')
         = (length (fromInternal p) + length l * c)%nat.
Proof.
  intros Hmono Hstep. induction l as [|x l IH]; intros b p Hn Hb.
  - exists p, b. split; [done|]. split; [apply grows_refl|].
    split; [done|]. split; [|simpl; lia].
    intros k. split; [|by right].
    intros [Hk|Hk]; [by apply elem_of_nil in Hk | done].
  - destruct (Hstep b x p Hn) as (p1 & v & E1 & G1 & J1 & L1).
    pose proof (grows_length p p1 G1) as Hle.
    destruct (IH (<[x := v]> b) p1) as (p2 & b2 & E2 & G2 & J2 & D2 & L2);
      [lia| |].
    { intros k v'. destruct (decide (x = k)) as [<-|Hne].
      - rewrite lookup_insert_eq. by intros [= <-].
      - rewrite lookup_insert_ne by done. intros Hk.
        eapply Hmono; [done|by apply Hb]. }
    exists p2, b2. cbn [foldM]. unfold bind at 1. rewrite E1.
    split; [done|]. split; [by eapply grows_trans|]. split; [done|].
    split; [|simpl; lia].
    intros k. rewrite <- D2. destruct (decide (x = k)) as [<-|Hne].
    + rewrite lookup_insert_eq. split; [|intros _; left; left].
      intros _. right. by eexists.
    + rewrite lookup_insert_ne by done. rewrite elem_of_cons. split.
      * intros [[E|Hk]|Hk]; [by destruct Hne|by left|by right].
      * intros [Hk|Hk]; [left; by right|by right].
Qed.

Lemma named1_mono nm n0 p p' k v :
  grows p p' -> named1 nm n0 p k v -> named1 nm n0 p' k v.
Proof. intros G [H1 H2]. split; [done|by eapply grows_lookup]. Qed.

Lemma named2_mono nm n0 d1 p p' x mx :
  grows p p' -> named2 nm n0 d1 p x mx -> named2 nm n0 d1 p' x mx.
Proof.
  intros G [H1 H2]. split; [|done].
  intros y v Hy. eapply named1_mono; [done|by apply H1].
Qed.

Lemma named3_mono nm n0 d1 d2 p p' x mx :
  grows p p' -> named3 nm n0 d1 d2 p x mx -> named3 nm n0 d1 d2 p' x mx.
Proof.
  intros G [H1 H2]. split; [|done].
  intros y v Hy. eapply named2_mono; [done|by apply H1].
Qed.

Lemma fold_named1 (nm : string -> string) n0 l b p :
  (n0 <= length (fromInternal p))%nat ->
  (forall k v, b !! k = Some v -> named1 nm n0 p k v) ->
  exists p' b',
    foldM (fun (m : gmap string nat) x =>
             let* id := generate (nm x) in ret (<[x := id]> m)) b l p
    = (p', Returned b')
    /\ grows p p'
    /\ (forall k v, b' !! k = Some v -> named1 nm n0 p' k v)
    /\ (forall k, k ∈ l \/ is_Some (b !! k) <-> is_Some (b' !! k))
    /\ length (fromInternal p') = (length (fromInternal p) + length l * 1)%nat.
Proof.
  apply (foldM_insert
           (fun (m : gmap string nat) x =>
              let* id := generate (nm x) in ret (<[x := id]> m))
           (named1 nm n0) n0 1).
  - intros. by eapply named1_mono.
  - clear. intros b x p Hn.
    exists (generate_state (nm x) p), (length (fromInternal p)).
    split; [done|]. split; [apply grows_generate|]. split.
    + split; [done|]. simpl. by rewrite lookup_app_r, Nat.sub_diag.
    + simpl. by rewrite length_app.
Qed.

Lemma fold_named2 (nm : string -> string -> string) n0 d1 l b p :
  (n0 <= length (fromInternal p))%nat ->
  (forall k v, b !! k = Some v -> named2 nm n0 d1 p k v) ->
  exists p' b',
    foldM (fun (m : gmap string (gmap string nat)) x =>
             let* mx :=
               foldM (fun (mx : gmap string nat) y =>
                        let* id := generate (nm x y) in
                        ret (<[y := id]> mx)) ∅ d1 in
             ret (<[x := mx]> m)) b l p
    = (p', Returned b')
    /\ grows p p'
    /\ (forall k v, b' !! k = Some v -> named2 nm n0 d1 p' k v)
    /\ (forall k, k ∈ l \/ is_Some (b !! k) <-> is_Some (b' !! k))
    /\ length (fromInternal p')
       = (length (fromInternal p) + length l * (length d1 * 1))%nat.
Proof.
  apply (foldM_insert
           (fun (m : gmap string (gmap string nat)) x =>
              let* mx :=
                foldM (fun (mx : gmap string nat) y =>
                         let* id := generate (nm x y) in
                         ret (<[y := id]> mx)) ∅ d1 in
              ret (<[x := mx]> m))
           (named2 nm n0 d1) n0 (length d1 * 1)).
  - intros. by eapply named2_mono.
  - clear. intros b x p Hn.
    destruct (fold_named1 (nm x) n0 d1 ∅ p Hn)
      as (p1 & mx & E & G & Hmx & Hdom & Hlen).
    { intros k v Hk. by rewrite lookup_empty in Hk. }
    exists p1, mx. unfold bind at 1. rewrite E.
    split; [done|]. split; [done|]. split; [|done].
    split; [done|]. intros y. rewrite <- Hdom. split; [by left|].
    intros [Hy|[? Hy]]; [done|by rewrite lookup_empty in Hy].
Qed.

Lemma fold_named3 (nm : string -> string -> string -> string) n0 d1 d2 l b p :
  (n0 <= length (fromInternal p))%nat ->
  (forall k v, b !! k = Some v -> named3 nm n0 d1 d2 p k v) ->
  exists p' b',
    foldM (fun (m : gmap string (gmap string (gmap string nat))) x =>
             let* mx :=
               foldM (fun (mx : gmap string (gmap string nat)) y =>
                        let* mxy :=
                          foldM (fun (mxy : gmap string nat) z =>
                                   let* id := generate (nm x y z) in
                                   ret (<[z := id]> mxy)) ∅ d2 in
                        ret (<[y := mxy]> mx)) ∅ d1 in
             ret (<[x := mx]> m)) b l p
    = (p', Returned b')
    /\ grows p p'
    /\ (forall k v, b' !! k = Some v -> named3 nm n0 d1 d2 p' k v)
    /\ (forall k, k ∈ l \/ is_Some (b !! k) <-> is_Some (b' !! k))
    /\ length (fromInternal p')
       = (length (fromInternal p)
          + length l * (length d1 * (length d2 * 1)))%nat.
Proof.
  apply (foldM_insert
           (fun (m : gmap string (gmap string (gmap string nat))) x =>
              let* mx :=
                foldM (fun (mx : gmap string (gmap string nat)) y =>
                         let* mxy :=
                           foldM (fun (mxy : gmap string nat) z =>
                                    let* id := generate (nm x y z) in
                                    ret (<[z := id]> mxy)) ∅ d2 in
                         ret (<[y := mxy]> mx)) ∅ d1 in
              ret (<[x := mx]> m))
           (named3 nm n0 d1 d2) n0 (length d1 * (length d2 * 1))).
  - intros. by eapply named3_mono.
  - clear. intros b x p Hn.
    destruct (fold_named2 (nm x) n0 d2 d1 ∅ p Hn)
      as (p1 & mx & E & G & Hmx & Hdom & Hlen).
    { intros k v Hk. by rewrite lookup_empty in Hk. }
    exists p1, mx. unfold bind at 1. rewrite E.
    split; [done|]. split; [done|]. split; [|done].
    split; [done|]. intros y. rewrite <- Hdom. split; [by left|].
    intros [Hy|[? Hy]]; [done|by rewrite lookup_empty in Hy].
Qed.

Lemma attribute_name_concat name xs :
  attribute_name name xs = String.concat " " (name :: xs).
Proof.
  unfold attribute_name. revert name.
  induction xs as [|x xs IH]; intros name; [done|].
  cbn [foldl]. rewrite IH. unfold sp.
  destruct xs as [|x' xs]; [done|].
  change (String.concat " " ((name +:+ " " +:+ x)%string :: x' :: xs))
    with ((name +:+ " " +:+ x) +:+ " " +:+ String.concat " " (x' :: xs))%string.
  change (String.concat " " (name :: x :: x' :: xs))
    with (name +:+ " " +:+ x +:+ " " +:+ String.concat " " (x' :: xs))%string.
  rewrite append_assoc. by f_equal.
Qed.

(** A name that splits into [name] and [xs] is the name [attribute]
    builds from them. *)
Lemma split_space_name attr name xs :
  split_space attr = name :: xs -> attr = attribute_name name xs.
Proof.
  intros H. rewrite attribute_name_concat, <- H.
  by rewrite concat_split_space.
Qed.

Lemma tuples_spec args t :
  t ∈ tuples args <-> Forall2 (fun x d => x ∈ d) t args.
Proof.
  revert t. induction args as [|d args IH]; intros t; cbn [tuples].
  - rewrite list_elem_of_singleton. split; [by intros ->|].
    by intros ->%Forall2_nil_inv_r.
  - rewrite list_elem_of_bind. split.
    + intros (x & (t' & -> & Ht')%list_elem_of_fmap & Hx).
      constructor; [done|by apply IH].
    + intros (x & t' & Hx & Ht' & ->)%Forall2_cons_inv_r.
      exists x. split; [|done]. apply list_elem_of_fmap.
      exists t'. split; [done|by apply IH].
Qed.

Lemma truthy_id_pos v : (1 <= v)%nat -> truthy_id (Some v) = Some v.
Proof. by destruct v; [lia|]. Qed.

(** What a successful [attribute(name, args)] did. *)
Lemma attribute_success name args p p' :
  (1 <= length (fromInternal p))%nat ->
  attribute name args p = (p', Returned tt) ->
  (length args < 4)%nat /\ IDENT_REGEX name = true
  /\ (forall d x, d ∈ args -> x ∈ d -> IDENT_REGEX x = true)
  /\ toInternal p !! name ≫= slots_findIndex = None
  /\ exists p1 slots,
       p' = set_slots_state name slots p1 /\ grows p p1
       /\ length (fromInternal p1)
          = (length (fromInternal p) + ids_count args)%nat
       /\ entry_for name args (length (fromInternal p)) p1 slots.
Proof.
  intros Hn. unfold attribute.
  destruct (4 <=? length args)%nat eqn:Ear; [done|].
  destruct (IDENT_REGEX name) eqn:Ename; [|done]. cbn [negb].
  destruct (List.find _ (concat args)) eqn:Efind; [done|].
  unfold bind at 1. unfold get at 1. cbv beta iota.
  destruct (reads_inherited (toInternal p) name); [done|].
  destruct (toInternal p !! name ≫= slots_findIndex) eqn:Edecl; [done|].
  intros H.
  split; [by apply Nat.leb_gt in Ear|]. split; [done|]. split.
  { intros d x Hd Hx.
    pose proof (find_none _ _ Efind x) as Hf.
    destruct (IDENT_REGEX x) eqn:Ex; [done|]. exfalso.
    assert (Hin : In x (concat args)).
    { apply in_concat. exists d. split; by apply list_elem_of_In. }
    specialize (Hf Hin). simpl in Hf. by rewrite Ex in Hf. }
  split; [done|].
  destruct args as [|d0 [|d1 [|d2 [|d3 args]]]]; [| | | |done].
  - injection H as <-.
    exists (generate_state name p),
      (mkSlots (Some (length (fromInternal p))) None None None).
    split; [done|]. split; [apply grows_generate|]. split.
    { simpl. by rewrite length_app. }
    split; [|split; [|split; [|split; [|split; [|done]]]]].
    + intros attr args' id Hsplit. unfold switch_args.
      destruct args' as [|x [|y [|z [|w args']]]];
        cbn [slot0 slot1 slot2 slot3]; try done.
      rewrite truthy_id_pos by done. intros [= <-]. split; [done|].
      rewrite (split_space_name _ _ _ Hsplit). simpl.
      by rewrite lookup_app_r, Nat.sub_diag.
    + intros t ->%tuples_spec%Forall2_nil_inv_r.
      exists (length (fromInternal p)). intros attr.
      unfold switch_args; cbn [slot0 slot1 slot2 slot3].
      by rewrite truthy_id_pos.
    + intros attr t id. unfold switch_args.
      destruct t as [|x [|y [|z [|w t]]]];
        cbn [slot0 slot1 slot2 slot3]; try done.
      intros _. apply tuples_spec. constructor.
    + intros attr t. unfold switch_args.
      destruct t as [|x [|y [|z [|w t]]]];
        cbn [slot0 slot1 slot2 slot3 length]; try done; lia.
    + intros attr t k x Hlt. by destruct t.
  - destruct (fold_named1 (sp name) (length (fromInternal p)) d0 ∅ p)
      as (p1 & m & E & G & Hm & Hdom & Hlen); [lia| |].
    { intros k v Hk. by rewrite lookup_empty in Hk. }
    unfold bind at 1 in H. rewrite E in H. injection H as <-.
    exists p1, (mkSlots None (Some m) None None).
    split; [done|]. split; [done|]. split; [simpl; lia|].
    assert (Hd0 : forall x, x ∈ d0 <-> is_Some (m !! x)).
    { intros x. rewrite <- Hdom. split; [by left|].
      intros [Hy|[? Hy]]; [done|by rewrite lookup_empty in Hy]. }
    split; [|split; [|split; [|split; [|split; [|done]]]]].
    + intros attr args' id Hsplit. unfold switch_args.
      destruct args' as [|x [|y [|z [|w args']]]];
        cbn [slot0 slot1 slot2 slot3]; try done.
      destruct (truthy_id (m !! x)) eqn:Et; [|done].
      apply truthy_id_Some in Et. intros [= <-].
      destruct (Hm x _ Et) as [H1 H2]. split; [done|].
      by rewrite (split_space_name _ _ _ Hsplit).
    + intros t Ht%tuples_spec.
      apply Forall2_cons_inv_r in Ht as (x & t' & Hx & Ht' & ->).
      apply Forall2_nil_inv_r in Ht' as ->.
      apply Hd0 in Hx as [v Hv].
      destruct (Hm x v Hv) as [H1 _].
      exists v. intros attr.
      unfold switch_args; cbn [slot0 slot1 slot2 slot3].
      rewrite Hv. by rewrite truthy_id_pos by lia.
    + intros attr t id. unfold switch_args.
      destruct t as [|x [|y [|z [|w t]]]];
        cbn [slot0 slot1 slot2 slot3]; try done.
      destruct (truthy_id (m !! x)) eqn:Et; [|done].
      apply truthy_id_Some in Et. intros _. apply tuples_spec.
      constructor; [|constructor]. apply Hd0. by eexists.
    + intros attr t. unfold switch_args.
      destruct t as [|x [|y [|z [|w t]]]];
        cbn [slot0 slot1 slot2 slot3 length]; try done; lia.
    + intros attr t k x Hlt.
      destruct t as [|x1 [|y1 t]]; try done. cbn [first_bad].
      case_bool_decide as Hx1; [done|]. intros [= <- <-].
      unfold switch_args; cbn [slot0 slot1 slot2 slot3].
      destruct (m !! x1) as [v|] eqn:Ev; [|done].
      exfalso. apply Hx1, Hd0. by eexists.
  - destruct (fold_named2 (fun x y => sp (sp name x) y)
                (length (fromInternal p)) d1 d0 ∅ p)
      as (p1 & m & E & G & Hm & Hdom & Hlen); [lia| |].
    { intros k v Hk. by rewrite lookup_empty in Hk. }
    unfold bind at 1 in H. rewrite E in H. injection H as <-.
    exists p1, (mkSlots None None (Some m) None).
    split; [done|]. split; [done|]. split; [simpl; lia|].
    assert (Hd0 : forall x, x ∈ d0 <-> is_Some (m !! x)).
    { intros x. rewrite <- Hdom. split; [by left|].
      intros [Hy|[? Hy]]; [done|by rewrite lookup_empty in Hy]. }
    split; [|split; [|split; [|split; [|split; [|done]]]]].
    + intros attr args' id Hsplit. unfold switch_args.
      destruct args' as [|x [|y [|z [|w args']]]];
        cbn [slot0 slot1 slot2 slot3]; try done.
      destruct (m !! x) as [mx|] eqn:Ex; [|done].
      destruct (truthy_id (mx !! y)) eqn:Et; [|done].
      apply truthy_id_Some in Et. intros [= <-].
      destruct (Hm x mx Ex) as [Hmx _].
      destruct (Hmx y _ Et) as [H1 H2]. split; [done|].
      by rewrite (split_space_name _ _ _ Hsplit).
    + intros t Ht%tuples_spec.
      apply Forall2_cons_inv_r in Ht as (x & t' & Hx & Ht' & ->).
      apply Forall2_cons_inv_r in Ht' as (y & t'' & Hy & Ht'' & ->).
      apply Forall2_nil_inv_r in Ht'' as ->.
      apply Hd0 in Hx as [mx Hmx].
      destruct (Hm x mx Hmx) as [Hnamed Hd1].
      apply Hd1 in Hy as [v Hv].
      destruct (Hnamed y v Hv) as [H1 _].
      exists v. intros attr.
      unfold switch_args; cbn [slot0 slot1 slot2 slot3].
      rewrite Hmx, Hv. by rewrite truthy_id_pos by lia.
    + intros attr t id. unfold switch_args.
      destruct t as [|x [|y [|z [|w t]]]];
        cbn [slot0 slot1 slot2 slot3]; try done.
      destruct (m !! x) as [mx|] eqn:Ex; [|done].
      destruct (truthy_id (mx !! y)) eqn:Et; [|done].
      apply truthy_id_Some in Et. intros _. apply tuples_spec.
      destruct (Hm x mx Ex) as [_ Hd1].
      constructor; [|constructor; [|constructor]].
      * apply Hd0. by eexists.
      * apply Hd1. by eexists.
    + intros attr t. unfold switch_args.
      destruct t as [|x [|y [|z [|w t]]]];
        cbn [slot0 slot1 slot2 slot3 length]; try done; lia.
    + intros attr t k x Hlt.
      destruct t as [|x1 [|y1 [|z1 t]]]; try done. cbn [first_bad].
      unfold switch_args; cbn [slot0 slot1 slot2 slot3].
      case_bool_decide as Hx1.
      * apply Hd0 in Hx1 as [mx Hmx]. rewrite Hmx.
        destruct (Hm x1 mx Hmx) as [_ Hd1].
        case_bool_decide as Hy1; [done|]. intros [= <- <-].
        destruct (mx !! y1) as [v|] eqn:Ev; [|done].
        exfalso. apply Hy1, Hd1. by eexists.
      * intros [= <- <-].
        destruct (m !! x1) as [mx|] eqn:Emx; [|done].
        exfalso. apply Hx1, Hd0. by eexists.
  - destruct (fold_named3 (fun x y z => sp (sp (sp name x) y) z)
                (length (fromInternal p)) d1 d2 d0 ∅ p)
      as (p1 & m & E & G & Hm & Hdom & Hlen); [lia| |].
    { intros k v Hk. by rewrite lookup_empty in Hk. }
    unfold bind at 1 in H. rewrite E in H. injection H as <-.
    exists p1, (mkSlots None None None (Some m)).
    split; [done|]. split; [done|]. split; [simpl; lia|].
    assert (Hd0 : forall x, x ∈ d0 <-> is_Some (m !! x)).
    { intros x. rewrite <- Hdom. split; [by left|].
      intros [Hy|[? Hy]]; [done|by rewrite lookup_empty in Hy]. }
    split; [|split; [|split; [|split; [|split; [|done]]]]].
    + intros attr args' id Hsplit. unfold switch_args.
      destruct args' as [|x [|y [|z [|w args']]]];
        cbn [slot0 slot1 slot2 slot3]; try done.
      destruct (m !! x) as [mx|] eqn:Ex; [|done].
      destruct (mx !! y) as [mxy|] eqn:Ey; [|done].
      destruct (truthy_id (mxy !! z)) eqn:Et; [|done].
      apply truthy_id_Some in Et. intros [= <-].
      destruct (Hm x mx Ex) as [Hmx _].
      destruct (Hmx y mxy Ey) as [Hmxy _].
      destruct (Hmxy z _ Et) as [H1 H2]. split; [done|].
      by rewrite (split_space_name _ _ _ Hsplit).
    + intros t Ht%tuples_spec.
      apply Forall2_cons_inv_r in Ht as (x & t' & Hx & Ht' & ->).
      apply Forall2_cons_inv_r in Ht' as (y & t'' & Hy & Ht'' & ->).
      apply Forall2_cons_inv_r in Ht'' as (z & t3 & Hz & Ht3 & ->).
      apply Forall2_nil_inv_r in Ht3 as ->.
      apply Hd0 in Hx as [mx Hmx].
      destruct (Hm x mx Hmx) as [Hnamed Hd1].
      apply Hd1 in Hy as [mxy Hmxy].
      destruct (Hnamed y mxy Hmxy) as [Hnamed2 Hd2].
      apply Hd2 in Hz as [v Hv].
      destruct (Hnamed2 z v Hv) as [H1 _].
      exists v. intros attr.
      unfold switch_args; cbn [slot0 slot1 slot2 slot3].
      rewrite Hmx, Hmxy, Hv. by rewrite truthy_id_pos by lia.
    + intros attr t id. unfold switch_args.
      destruct t as [|x [|y [|z [|w t]]]];
        cbn [slot0 slot1 slot2 slot3]; try done.
      destruct (m !! x) as [mx|] eqn:Ex; [|done].
      destruct (mx !! y) as [mxy|] eqn:Ey; [|done].
      destruct (truthy_id (mxy !! z)) eqn:Et; [|done].
      apply truthy_id_Some in Et. intros _. apply tuples_spec.
      destruct (Hm x mx Ex) as [Hnamed Hd1].
      destruct (Hnamed y mxy Ey) as [_ Hd2].
      constructor; [|constructor; [|constructor; [|constructor]]].
      * apply Hd0. by eexists.
      * apply Hd1. by eexists.
      * apply Hd2. by eexists.
    + intros attr t. unfold switch_args.
      destruct t as [|x [|y [|z [|w t]]]];
        cbn [slot0 slot1 slot2 slot3 length]; try done; lia.
    + intros attr t k x Hlt.
      destruct t as [|x1 [|y1 [|z1 [|w1 t]]]]; try done. cbn [first_bad].
      unfold switch_args; cbn [slot0 slot1 slot2 slot3].
      case_bool_decide as Hx1.
      * apply Hd0 in Hx1 as [mx Hmx]. rewrite Hmx.
        destruct (Hm x1 mx Hmx) as [Hnamed Hd1].
        case_bool_decide as Hy1.
        -- apply Hd1 in Hy1 as [mxy Hmxy]. rewrite Hmxy.
           destruct (Hnamed y1 mxy Hmxy) as [_ Hd2].
           case_bool_decide as Hz1; [done|]. intros [= <- <-].
           destruct (mxy !! z1) as [v|] eqn:Ev; [|done].
           exfalso. apply Hz1, Hd2. by eexists.
        -- intros [= <- <-].
           destruct (mx !! y1) as [mxy|] eqn:Emxy; [|done].
           exfalso. apply Hy1, Hd1. by eexists.
      * intros [= <- <-].
        destruct (m !! x1) as [mx|] eqn:Emx; [|done].
        exfalso. apply Hx1, Hd0. by eexists.
Qed.

(** ** The registry *)

Lemma lookup_after_set_split attr name slots (tI : gmap string AttrSlots) id :
  lookupAttributeInMap attr (<[name := slots]> tI) = Returned id ->
  (exists args, split_space attr = name :: args
                /\ switch_args attr args slots = Returned id)
  \/ lookupAttributeInMap attr tI = Returned id.
Proof.
  unfold lookupAttributeInMap.
  destruct (split_space attr) as [|predicate args]; [done|].
  destruct (negb _); [done|]. destruct (List.find _ args); [done|].
  destruct (decide (name = predicate)) as [->|Hne].
  - rewrite lookup_insert_eq. destruct (slots_all_undefined slots); [done|].
    intros H. left. by exists args.
  - rewrite lookup_insert_ne by done. by right.
Qed.

Lemma split_space_attribute_name name t :
  all_word name = true -> Forall (fun x => all_word x = true) t ->
  split_space (attribute_name name t) = name :: t.
Proof.
  rewrite attribute_name_concat. revert name.
  induction t as [|x t IH]; intros name Hname Ht.
  - by apply split_space_word.
  - apply Forall_cons in Ht as [Hx Ht].
    change (String.concat " " (name :: x :: t))
      with (name +:+ " " +:+ String.concat " " (x :: t))%string.
    rewrite split_space_app by done. f_equal. by apply IH.
Qed.

Lemma find_ident_none t :
  Forall (fun x => IDENT_REGEX x = true) t ->
  List.find (fun arg => negb (IDENT_REGEX arg)) t = None.
Proof.
  induction 1 as [|x t Hx _ IH]; [done|]. simpl. by rewrite Hx.
Qed.

(** Looking up the name of a well-formed argument tuple under a declared
    predicate comes down to the predicate's entry. *)
Lemma lookup_entry name t slots (tI : gmap string AttrSlots) :
  IDENT_REGEX name = true -> Forall (fun x => IDENT_REGEX x = true) t ->
  tI !! name = Some slots -> slots_all_undefined slots = false ->
  lookupAttributeInMap (attribute_name name t) tI
  = switch_args (attribute_name name t) t slots.
Proof.
  intros Hname Ht Hslots Hdef. unfold lookupAttributeInMap.
  rewrite split_space_attribute_name.
  - by rewrite Hname, (find_ident_none t Ht), Hslots, Hdef.
  - by apply IDENT_REGEX_word.
  - eapply Forall_impl; [exact Ht|]. apply IDENT_REGEX_word.
Qed.

Lemma attribute_failure name args p e :
  snd (attribute name args p) = Threw e -> fst (attribute name args p) = p.
Proof.
  intros H.
  destruct (attribute_spec name args p) as [[_ E]|(p1 & slots & E & _)];
    [done|].
  rewrite E in H. done.
Qed.

Lemma names_agree_same_registry p p' :
  same_registry p p' -> names_agree p -> names_agree p'.
Proof.
  intros [E [names Hn]] H attr id. rewrite E, Hn. intros Hid.
  apply lookup_app_l_Some. by apply H.
Qed.

Lemma names_agree_after c p : wf p -> names_agree p -> names_agree (after c p).
Proof.
  intros Hwf H. destruct c;
    try (apply (names_agree_same_registry p); [|done];
         apply same_registry_after; congruence).
  unfold after, run_call.
  destruct (attribute name args p) as [p' [[]|e]] eqn:Ea; simpl.
  - apply attribute_success in Ea as (_ & _ & _ & Hfree & p1 & slots & -> & G
                                      & _ & Hnamed & _);
      [|by apply wf_nonempty].
    intros attr id Hid. simpl in Hid. destruct G as (GtI & _ & _ & _ & names & Hn).
    rewrite GtI in Hid.
    apply lookup_after_set_split in Hid as [(t & Hsplit & Hs)|Hid].
    + by apply (Hnamed attr t id Hsplit Hs).
    + simpl. rewrite Hn. by apply lookup_app_l_Some, H.
  - pose proof (attribute_failure name args p e) as Hf.
    rewrite Ea in Hf. simpl in Hf. by rewrite Hf.
Qed.

Lemma names_agree_reachable p : reachable p -> names_agree p.
Proof.
  induction 1 as [|c p Hr IH].
  - intros attr id H. by apply (wf_registry _ wf_new) in H; simpl in H; lia.
  - apply names_agree_after; [by apply wf_reachable|done].
Qed.

Lemma lookup_empty_name (tI : gmap string AttrSlots) id :
  lookupAttributeInMap "" tI <> Returned id.
Proof. done. Qed.

(** X1. Registry round trip: in every state a client can reach by calls
    that name no inherited property, the id that a name without such an
    argument resolves to is at least [1] and carries exactly that name in
    [fromInternal]; the name is never the empty name of the anonymous
    ids. *)
Theorem registry_round_trip p attr id :
  clean_reachable p -> clean_attr attr = true ->
  lookupAttributeInMap attr (toInternal p) = Returned id ->
  fromInternal p !! id = Some attr /\ (1 <= id)%nat /\ attr <> ""%string.
Proof.
  intros Hr%clean_reachable_reachable _ Hid. split; [by apply names_agree_reachable|]. split.
  - pose proof (wf_registry p (wf_reachable p Hr) attr id Hid). lia.
  - intros ->. by apply lookup_empty_name in Hid.
Qed.

(** The theorem at the attribute [colored terra gray]. *)
Lemma registry_round_trip_witness :
  clean_reachable cats
  /\ clean_attr "colored terra gray" = true
  /\ lookupAttributeInMap "colored terra gray" (toInternal cats) = Returned 9%nat
  /\ fromInternal cats !! 9%nat = Some "colored terra gray"%string
  /\ (1 <= 9)%nat /\ "colored terra gray"%string <> ""%string.
Proof.
  assert (Hr : clean_reachable cats)
    by (unfold cats; apply clean_step; [apply clean_new | reflexivity]).
  assert (Hc : clean_attr "colored terra gray" = true) by reflexivity.
  assert (Hl : lookupAttributeInMap "colored terra gray" (toInternal cats)
               = Returned 9%nat) by (vm_compute; reflexivity).
  split; [exact Hr|]. split; [exact Hc|]. split; [exact Hl|].
  exact (registry_round_trip cats "colored terra gray" 9%nat Hr Hc Hl).
Defined.

Lemma attribute_entry name args p p' :
  (1 <= length (fromInternal p))%nat ->
  attribute name args p = (p', Returned tt) ->
  IDENT_REGEX name = true
  /\ (forall d x, d ∈ args -> x ∈ d -> IDENT_REGEX x = true)
  /\ exists p1 slots,
       toInternal p' !! name = Some slots
       /\ fromInternal p' = fromInternal p1 /\ grows p p1
       /\ entry_for name args (length (fromInternal p)) p1 slots.
Proof.
  intros Hn Ha.
  apply attribute_success in Ha
    as (_ & Hname & Hargs & _ & p1 & slots & -> & G & _ & He); [|done].
  split; [done|]. split; [done|]. exists p1, slots.
  split; [apply lookup_insert_eq|]. by split.
Qed.

Lemma tuples_ident args t :
  (forall d x, d ∈ args -> x ∈ d -> IDENT_REGEX x = true) ->
  t ∈ tuples args -> Forall (fun x => IDENT_REGEX x = true) t.
Proof.
  intros Hargs Ht%tuples_spec. induction Ht as [|x d t args Hx _ IH]; [done|].
  constructor.
  - eapply Hargs; [left|done].
  - apply IH. intros d' x' Hd'. apply Hargs. by right.
Qed.

(** X2. A declared predicate resolves exactly the argument tuples of its
    domains: right after a successful [attribute(name, args)], the name
    built from [name] and well-formed arguments [t], none of them the name
    of an inherited property, resolves if and only if [t] takes one
    argument from each domain; the id it resolves to was minted by this
    declaration, carries that name, and is what the name resolves to after
    any further calls. *)
Theorem declared_attribute_resolves name args p p' t calls :
  reachable p ->
  attribute name args p = (p', Returned tt) ->
  Forall (fun x => IDENT_REGEX x = true) t ->
  Forall (fun x => x ∉ inherited_names) t ->
  (t ∈ tuples args <->
   exists id,
     lookupAttributeInMap (attribute_name name t) (toInternal p')
     = Returned id)
  /\ forall id,
       lookupAttributeInMap (attribute_name name t) (toInternal p')
       = Returned id ->
       (length (fromInternal p) <= id)%nat
       /\ fromInternal p' !! id = Some (attribute_name name t)
       /\ lookupAttributeInMap (attribute_name name t)
            (toInternal (after_all calls p')) = Returned id.
Proof.
  intros Hr Ha Ht _.
  pose proof (wf_nonempty p (wf_reachable p Hr)) as Hn.
  destruct (attribute_entry name args p p' Hn Ha)
    as (Hname & Hargs & p1 & slots & Hslots & HfI & G & He).
  destruct He as (Hnamed & Hres & Honly & _ & _ & Hdef).
  rewrite (lookup_entry name t slots _ Hname Ht Hslots Hdef). split.
  - split.
    + intros Hin. destruct (Hres t Hin) as [id Hid]. by exists id.
    + intros [id Hid]. by eapply Honly.
  - intros id Hid.
    assert (Hsplit : split_space (attribute_name name t) = name :: t).
    { apply split_space_attribute_name; [by apply IDENT_REGEX_word|].
      eapply Forall_impl; [exact Ht|]. apply IDENT_REGEX_word. }
    destruct (Hnamed _ t id Hsplit Hid) as [H1 H2].
    split; [done|]. split; [by rewrite HfI|].
    apply (ext_keeps _ _ (extends_after_all calls p')).
    by rewrite (lookup_entry name t slots _ Hname Ht Hslots Hdef).
Qed.

(** The theorem at [colored terra gray] of the cats, with a later
    declaration and a later constraint. *)
Lemma declared_attribute_resolves_witness :
  reachable new_Problem
  /\ attribute "colored"
       [["celeste"; "nimbus"; "terra"];
        ["gray"; "black"; "white"; "orange"]]%string new_Problem
     = (cats, Returned tt)
  /\ Forall (fun x => IDENT_REGEX x = true) ["terra"; "gray"]%string
  /\ Forall (fun x => x ∉ inherited_names) ["terra"; "gray"]%string
  /\ (["terra"; "gray"]%string
        ∈ tuples [["celeste"; "nimbus"; "terra"];
                  ["gray"; "black"; "white"; "orange"]]%string <->
      exists id,
        lookupAttributeInMap
          (attribute_name "colored" ["terra"; "gray"]%string)
          (toInternal cats) = Returned id)
  /\ forall id,
       lookupAttributeInMap
         (attribute_name "colored" ["terra"; "gray"]%string)
         (toInternal cats) = Returned id ->
       (length (fromInternal new_Problem) <= id)%nat
       /\ fromInternal cats !! id
          = Some (attribute_name "colored" ["terra"; "gray"]%string)
       /\ lookupAttributeInMap
            (attribute_name "colored" ["terra"; "gray"]%string)
            (toInternal
               (after_all [ CallAttribute "p" [];
                            CallAssert "colored terra gray" ] cats))
          = Returned id.
Proof.
  assert (H1 : reachable new_Problem) by apply reachable_new.
  assert (H2 : attribute "colored"
                 [["celeste"; "nimbus"; "terra"];
                  ["gray"; "black"; "white"; "orange"]]%string new_Problem
               = (cats, Returned tt)) by (vm_compute; reflexivity).
  assert (H3 : Forall (fun x => IDENT_REGEX x = true)
                 ["terra"; "gray"]%string)
    by (repeat constructor).
  assert (H4 : Forall (fun x => x ∉ inherited_names)
                 ["terra"; "gray"]%string)
    by (repeat constructor; apply (bool_decide_unpack _); vm_compute;
        exact I).
  split; [exact H1|]. split; [exact H2|]. split; [exact H3|].
  split; [exact H4|].
  exact (declared_attribute_resolves "colored"
           [["celeste"; "nimbus"; "terra"];
            ["gray"; "black"; "white"; "orange"]]%string
           new_Problem cats ["terra"; "gray"]%string
           [ CallAttribute "p" []; CallAssert "colored terra gray" ]
           H1 H2 H3 H4).
Defined.

Lemma switch_args_many attr t slots :
  (4 <= length t)%nat -> switch_args attr t slots = Threw (ImpossibleArity attr).
Proof.
  destruct t as [|x [|y [|z [|w t]]]]; simpl; try lia. done.
Qed.

(** X3. The wrong number of arguments: right after a successful
    [attribute(name, args)], looking up [name] with well-formed arguments
    whose number differs from the number of domains throws the wrong-arity
    error when there are at most three of them, and with four or more the
    internal error that the source marks as impossible. *)
Theorem wrong_arity_lookup name args p p' t :
  reachable p ->
  attribute name args p = (p', Returned tt) ->
  Forall (fun x => IDENT_REGEX x = true) t ->
  length t <> length args ->
  lookupAttributeInMap (attribute_name name t) (toInternal p')
  = Threw (if (length t <? 4)%nat
           then WrongArity (attribute_name name t)
           else ImpossibleArity (attribute_name name t)).
Proof.
  intros Hr Ha Ht Hlen.
  pose proof (wf_nonempty p (wf_reachable p Hr)) as Hn.
  destruct (attribute_entry name args p p' Hn Ha)
    as (Hname & Hargs & p1 & slots & Hslots & HfI & G & He).
  destruct He as (_ & _ & _ & Hwrong & _ & Hdef).
  rewrite (lookup_entry name t slots _ Hname Ht Hslots Hdef).
  destruct (length t <? 4)%nat eqn:E.
  - apply Hwrong; [done|by apply Nat.ltb_lt].
  - apply switch_args_many. apply Nat.ltb_ge in E. lia.
Qed.

(** The theorem at [colored w x y z] of the cats. *)
Lemma wrong_arity_lookup_witness :
  reachable new_Problem
  /\ attribute "colored"
       [["celeste"; "nimbus"; "terra"];
        ["gray"; "black"; "white"; "orange"]]%string new_Problem
     = (cats, Returned tt)
  /\ Forall (fun x => IDENT_REGEX x = true) ["w"; "x"; "y"; "z"]%string
  /\ length ["w"; "x"; "y"; "z"]%string
     <> length [["celeste"; "nimbus"; "terra"];
                ["gray"; "black"; "white"; "orange"]]%string
  /\ lookupAttributeInMap
       (attribute_name "colored" ["w"; "x"; "y"; "z"]%string)
       (toInternal cats)
     = Threw (if (length ["w"; "x"; "y"; "z"]%string <? 4)%nat
              then WrongArity
                     (attribute_name "colored" ["w"; "x"; "y"; "z"]%string)
              else ImpossibleArity
                     (attribute_name "colored" ["w"; "x"; "y"; "z"]%string)).
Proof.
  assert (H1 : reachable new_Problem) by apply reachable_new.
  assert (H2 : attribute "colored"
                 [["celeste"; "nimbus"; "terra"];
                  ["gray"; "black"; "white"; "orange"]]%string new_Problem
               = (cats, Returned tt)) by (vm_compute; reflexivity).
  assert (H3 : Forall (fun x => IDENT_REGEX x = true)
                 ["w"; "x"; "y"; "z"]%string)
    by (repeat constructor).
  assert (H4 : length ["w"; "x"; "y"; "z"]%string
               <> length [["celeste"; "nimbus"; "terra"];
                          ["gray"; "black"; "white"; "orange"]]%string)
    by (simpl; lia).
  split; [exact H1|]. split; [exact H2|]. split; [exact H3|].
  split; [exact H4|].
  exact (wrong_arity_lookup "colored"
           [["celeste"; "nimbus"; "terra"];
            ["gray"; "black"; "white"; "orange"]]%string
           new_Problem cats ["w"; "x"; "y"; "z"]%string H1 H2 H3 H4).
Defined.

(** X4. An argument outside its domain: right after a successful
    [attribute(name, args)], looking up [name] with the right number of
    well-formed arguments, none of them the name of an inherited property,
    one of which is not in the domain of its position, throws the
    invalid-argument error for the first such position, counted from [1],
    and its argument. *)
Theorem invalid_argument_lookup name args p p' t k x :
  reachable p ->
  attribute name args p = (p', Returned tt) ->
  Forall (fun x => IDENT_REGEX x = true) t ->
  Forall (fun x => x ∉ inherited_names) t ->
  length t = length args ->
  first_bad 1 args t = Some (k, x) ->
  lookupAttributeInMap (attribute_name name t) (toInternal p')
  = Threw (InvalidArgument k x).
Proof.
  intros Hr Ha Ht _ Hlen Hbad.
  pose proof (wf_nonempty p (wf_reachable p Hr)) as Hn.
  destruct (attribute_entry name args p p' Hn Ha)
    as (Hname & Hargs & p1 & slots & Hslots & HfI & G & He).
  destruct He as (_ & _ & _ & _ & Hinvalid & Hdef).
  rewrite (lookup_entry name t slots _ Hname Ht Hslots Hdef).
  by apply Hinvalid.
Qed.

(** The theorem at [colored terra purple] and at [colored rex purple] of
    the cats: the first offending argument is reported. *)
Lemma invalid_argument_lookup_witness :
  reachable new_Problem
  /\ attribute "colored"
       [["celeste"; "nimbus"; "terra"];
        ["gray"; "black"; "white"; "orange"]]%string new_Problem
     = (cats, Returned tt)
  /\ Forall (fun x => IDENT_REGEX x = true) ["rex"; "purple"]%string
  /\ Forall (fun x => x ∉ inherited_names) ["rex"; "purple"]%string
  /\ length ["rex"; "purple"]%string
     = length [["celeste"; "nimbus"; "terra"];
               ["gray"; "black"; "white"; "orange"]]%string
  /\ first_bad 1 [["celeste"; "nimbus"; "terra"];
                  ["gray"; "black"; "white"; "orange"]]%string
       ["rex"; "purple"]%string = Some (1%nat, "rex"%string)
  /\ lookupAttributeInMap
       (attribute_name "colored" ["rex"; "purple"]%string) (toInternal cats)
     = Threw (InvalidArgument 1 "rex").
Proof.
  assert (H1 : reachable new_Problem) by apply reachable_new.
  assert (H2 : attribute "colored"
                 [["celeste"; "nimbus"; "terra"];
                  ["gray"; "black"; "white"; "orange"]]%string new_Problem
               = (cats, Returned tt)) by (vm_compute; reflexivity).
  assert (H3 : Forall (fun x => IDENT_REGEX x = true)
                 ["rex"; "purple"]%string)
    by (repeat constructor).
  assert (H4 : Forall (fun x => x ∉ inherited_names)
                 ["rex"; "purple"]%string)
    by (repeat constructor; apply (bool_decide_unpack _); vm_compute;
        exact I).
  assert (H5 : length ["rex"; "purple"]%string
               = length [["celeste"; "nimbus"; "terra"];
                         ["gray"; "black"; "white"; "orange"]]%string)
    by reflexivity.
  assert (H6 : first_bad 1 [["celeste"; "nimbus"; "terra"];
                            ["gray"; "black"; "white"; "orange"]]%string
                 ["rex"; "purple"]%string = Some (1%nat, "rex"%string))
    by (vm_compute; reflexivity).
  split; [exact H1|]. split; [exact H2|]. split; [exact H3|].
  split; [exact H4|]. split; [exact H5|]. split; [exact H6|].
  exact (invalid_argument_lookup "colored"
           [["celeste"; "nimbus"; "terra"];
            ["gray"; "black"; "white"; "orange"]]%string
           new_Problem cats ["rex"; "purple"]%string 1%nat "rex"
           H1 H2 H3 H4 H5 H6).
Defined.

(** A loop whose body appends the names [g x] appends them for every
    element, in order. *)
Lemma foldM_names {A B} (f : B -> A -> M B) (g : A -> list string) :
  (forall b x p, exists p' b',
     f b x p = (p', Returned b')
     /\ fromInternal p' = fromInternal p ++ g x) ->
  forall l b p, exists p' b',
    foldM f b l p = (p', Returned b')
    /\ fromInternal p' = fromInternal p ++ (l ≫= g).
Proof.
  intros Hstep. induction l as [|x l IH]; intros b p.
  - exists p, b. split; [done|]. by rewrite app_nil_r.
  - destruct (Hstep b x p) as (p1 & b1 & E1 & N1).
    destruct (IH b1 p1) as (p2 & b2 & E2 & N2).
    exists p2, b2. cbn [foldM]. unfold bind at 1. rewrite E1.
    split; [done|]. rewrite N2, N1, <- app_assoc. done.
Qed.

Lemma fold_names1 (nm : string -> string) l b p :
  exists p' b',
    foldM (fun (m : gmap string nat) x =>
             let* id := generate (nm x) in ret (<[x := id]> m)) b l p
    = (p', Returned b')
    /\ fromInternal p' = fromInternal p ++ (l ≫= fun x => [nm x]).
Proof.
  apply (foldM_names
           (fun (m : gmap string nat) x =>
              let* id := generate (nm x) in ret (<[x := id]> m))
           (fun x => [nm x])).
  clear. intros b x p. by eexists _, _.
Qed.

Lemma fold_names2 (nm : string -> string -> string) d1 l b p :
  exists p' b',
    foldM (fun (m : gmap string (gmap string nat)) x =>
             let* mx :=
               foldM (fun (mx : gmap string nat) y =>
                        let* id := generate (nm x y) in
                        ret (<[y := id]> mx)) ∅ d1 in
             ret (<[x := mx]> m)) b l p
    = (p', Returned b')
    /\ fromInternal p'
       = fromInternal p ++ (l ≫= fun x => d1 ≫= fun y => [nm x y]).
Proof.
  apply (foldM_names
           (fun (m : gmap string (gmap string nat)) x =>
              let* mx :=
                foldM (fun (mx : gmap string nat) y =>
                         let* id := generate (nm x y) in
                         ret (<[y := id]> mx)) ∅ d1 in
              ret (<[x := mx]> m))
           (fun x => d1 ≫= fun y => [nm x y])).
  clear. intros b x p.
  destruct (fold_names1 (nm x) d1 ∅ p) as (p1 & mx & E & N).
  exists p1, (<[x := mx]> b). unfold bind at 1. by rewrite E.
Qed.

Lemma fold_names3 (nm : string -> string -> string -> string) d1 d2 l b p :
  exists p' b',
    foldM (fun (m : gmap string (gmap string (gmap string nat))) x =>
             let* mx :=
               foldM (fun (mx : gmap string (gmap string nat)) y =>
                        let* mxy :=
                          foldM (fun (mxy : gmap string nat) z =>
                                   let* id := generate (nm x y z) in
                                   ret (<[z := id]> mxy)) ∅ d2 in
                        ret (<[y := mxy]> mx)) ∅ d1 in
             ret (<[x := mx]> m)) b l p
    = (p', Returned b')
    /\ fromInternal p'
       = fromInternal p
         ++ (l ≫= fun x => d1 ≫= fun y => d2 ≫= fun z => [nm x y z]).
Proof.
  apply (foldM_names
           (fun (m : gmap string (gmap string (gmap string nat))) x =>
              let* mx :=
                foldM (fun (mx : gmap string (gmap string nat)) y =>
                         let* mxy :=
                           foldM (fun (mxy : gmap string nat) z =>
                                    let* id := generate (nm x y z) in
                                    ret (<[z := id]> mxy)) ∅ d2 in
                         ret (<[y := mxy]> mx)) ∅ d1 in
              ret (<[x := mx]> m))
           (fun x => d1 ≫= fun y => d2 ≫= fun z => [nm x y z])).
  clear. intros b x p.
  destruct (fold_names2 (nm x) d2 d1 ∅ p) as (p1 & mx & E & N).
  exists p1, (<[x := mx]> b). unfold bind at 1. by rewrite E.
Qed.

Lemma tuples_names name d args :
  attribute_name name <$> tuples (d :: args)
  = d ≫= fun x => attribute_name (sp name x) <$> tuples args.
Proof.
  cbn [tuples]. induction d as [|x d IH]; [done|].
  cbn [mbind list_bind] in *. rewrite fmap_app, IH. f_equal.
  rewrite <- list_fmap_compose. done.
Qed.

Lemma tuples_length args : length (tuples args) = ids_count args.
Proof.
  induction args as [|d args IH]; [done|]. cbn [tuples ids_count foldr].
  fold (ids_count args). rewrite <- IH. clear IH.
  induction d as [|x d IHd]; [done|].
  cbn [mbind list_bind] in *. rewrite length_app, length_fmap, IHd.
  simpl. lia.
Qed.

(** The names a successful [attribute(name, args)] appends: one for each
    argument tuple, the first domain varying slowest. *)
Lemma attribute_names name args p p' :
  attribute name args p = (p', Returned tt) ->
  fromInternal p'
  = fromInternal p ++ (attribute_name name <$> tuples args).
Proof.
  unfold attribute.
  destruct (4 <=? length args)%nat eqn:Ear; [done|].
  destruct (negb (IDENT_REGEX name)); [done|].
  destruct (List.find _ (concat args)); [done|].
  unfold bind at 1. unfold get at 1. cbv beta iota.
  destruct (reads_inherited (toInternal p) name); [done|].
  destruct (toInternal p !! name ≫= slots_findIndex); [done|].
  destruct args as [|d0 [|d1 [|d2 [|d3 args]]]]; [| | | |done].
  - by intros [= <-].
  - destruct (fold_names1 (sp name) d0 ∅ p) as (p1 & m & E & N).
    unfold bind at 1. rewrite E. intros [= <-].
    cbn [fromInternal set_slots_state]. rewrite N. f_equal.
    rewrite tuples_names. done.
  - destruct (fold_names2 (fun x y => sp (sp name x) y) d1 d0 ∅ p)
      as (p1 & m & E & N).
    unfold bind at 1. rewrite E. intros [= <-].
    cbn [fromInternal set_slots_state]. rewrite N. f_equal.
    rewrite tuples_names. apply list_bind_ext; [|done]. intros x.
    rewrite tuples_names. done.
  - destruct (fold_names3 (fun x y z => sp (sp (sp name x) y) z) d1 d2 d0 ∅ p)
      as (p1 & m & E & N).
    unfold bind at 1. rewrite E. intros [= <-].
    cbn [fromInternal set_slots_state]. rewrite N. f_equal.
    rewrite tuples_names. apply list_bind_ext; [|done]. intros x.
    rewrite tuples_names. apply list_bind_ext; [|done]. intros y.
    rewrite tuples_names. done.
Qed.

(** X5. Eager grounding: a successful [attribute(name, args)] appends to
    [fromInternal] the names [name x y ...] of the argument tuples of its
    domains, in order, the first domain varying slowest: as many ids as the
    product of the sizes of the domains (one for no domain).  It changes
    neither the clauses, nor the rules, nor the checkpoint. *)
Theorem attribute_mints_product name args p p' :
  reachable p ->
  attribute name args p = (p', Returned tt) ->
  fromInternal p' = fromInternal p ++ (attribute_name name <$> tuples args)
  /\ length (attribute_name name <$> tuples args) = ids_count args
  /\ constraints p' = constraints p /\ rules p' = rules p
  /\ nonRuleConstraints p' = nonRuleConstraints p.
Proof.
  intros Hr Ha. split; [by apply attribute_names|].
  split; [by rewrite length_fmap, tuples_length|].
  pose proof (wf_nonempty p (wf_reachable p Hr)) as Hn.
  apply attribute_success in Ha
    as (_ & _ & _ & _ & p1 & slots & -> & G & Hlen & _); [|done].
  by destruct G as (_ & Gc & Gr & Gk & _).
Qed.

(** The theorem at the declaration of the cats: twelve ids. *)
Lemma attribute_mints_product_witness :
  reachable new_Problem
  /\ attribute "colored"
       [["celeste"; "nimbus"; "terra"];
        ["gray"; "black"; "white"; "orange"]]%string new_Problem
     = (cats, Returned tt)
  /\ fromInternal cats
     = fromInternal new_Problem
       ++ (attribute_name "colored"
             <$> tuples [["celeste"; "nimbus"; "terra"];
                         ["gray"; "black"; "white"; "orange"]]%string)
  /\ length (attribute_name "colored"
               <$> tuples [["celeste"; "nimbus"; "terra"];
                           ["gray"; "black"; "white"; "orange"]]%string)
     = ids_count [["celeste"; "nimbus"; "terra"];
                  ["gray"; "black"; "white"; "orange"]]%string
  /\ constraints cats = constraints new_Problem
  /\ rules cats = rules new_Problem
  /\ nonRuleConstraints cats = nonRuleConstraints new_Problem.
Proof.
  assert (H1 : reachable new_Problem) by apply reachable_new.
  assert (H2 : attribute "colored"
                 [["celeste"; "nimbus"; "terra"];
                  ["gray"; "black"; "white"; "orange"]]%string new_Problem
               = (cats, Returned tt)) by (vm_compute; reflexivity).
  split; [exact H1|]. split; [exact H2|].
  exact (attribute_mints_product "colored"
           [["celeste"; "nimbus"; "terra"];
            ["gray"; "black"; "white"; "orange"]]%string
           new_Problem cats H1 H2).
Defined.

Lemma declared_after name c p : declared name p -> declared name (after c p).
Proof.
  unfold declared. intros H.
  destruct c;
    try (match goal with
         | |- context [after ?c p] =>
             assert (S : same_registry p (after c p))
               by (apply same_registry_after; congruence);
             destruct S as [-> _]; exact H
         end).
  unfold after, run_call.
  destruct (attribute_spec name0 args p)
    as [[_ ->]|(p1 & slots & -> & G & Hfree & _)]; [done|].
  destruct G as (GtI & _). simpl. rewrite GtI.
  destruct (decide (name0 = name)) as [->|Hne]; [done|].
  by rewrite lookup_insert_ne.
Qed.

Lemma declared_after_all name cs : forall p,
  declared name p -> declared name (after_all cs p).
Proof.
  induction cs as [|c cs IH]; intros p H; [done|].
  simpl. by apply IH, declared_after.
Qed.

(** X6. A predicate is declared once: after a successful
    [attribute(name, args)], and whatever calls follow, every further
    [attribute(name, args')] throws and leaves the [Problem] as it was. *)
Theorem redeclaration_rejected name args args' p p' calls :
  reachable p ->
  attribute name args p = (p', Returned tt) ->
  threw (snd (attribute name args' (after_all calls p')))
  /\ fst (attribute name args' (after_all calls p')) = after_all calls p'.
Proof.
  intros Hr Ha.
  pose proof (wf_nonempty p (wf_reachable p Hr)) as Hn.
  destruct (attribute_entry name args p p' Hn Ha)
    as (_ & _ & p1 & slots & Hslots & _ & _ & He).
  destruct He as (_ & _ & _ & _ & _ & Hdef).
  assert (Hd : declared name (after_all calls p')).
  { apply declared_after_all. unfold declared. rewrite Hslots. simpl.
    by apply slots_defined. }
  destruct (attribute_spec name args' (after_all calls p'))
    as [[Ht E]|(p2 & slots2 & _ & _ & Hfree & _)]; [done|].
  by destruct Hd.
Qed.

(** The theorem at a second declaration of [colored], with one domain,
    after another declaration and a [solve()]. *)
Lemma redeclaration_rejected_witness :
  reachable new_Problem
  /\ attribute "colored"
       [["celeste"; "nimbus"; "terra"];
        ["gray"; "black"; "white"; "orange"]]%string new_Problem
     = (cats, Returned tt)
  /\ threw (snd (attribute "colored" [["gray"%string]]
                   (after_all [ CallAttribute "p" [];
                                CallSolve (rand_const 0) ] cats)))
  /\ fst (attribute "colored" [["gray"%string]]
            (after_all [ CallAttribute "p" [];
                         CallSolve (rand_const 0) ] cats))
     = after_all [ CallAttribute "p" []; CallSolve (rand_const 0) ] cats.
Proof.
  assert (H1 : reachable new_Problem) by apply reachable_new.
  assert (H2 : attribute "colored"
                 [["celeste"; "nimbus"; "terra"];
                  ["gray"; "black"; "white"; "orange"]]%string new_Problem
               = (cats, Returned tt)) by (vm_compute; reflexivity).
  split; [exact H1|]. split; [exact H2|].
  exact (redeclaration_rejected "colored"
           [["celeste"; "nimbus"; "terra"];
            ["gray"; "black"; "white"; "orange"]]%string
           [["gray"%string]] new_Problem cats
           [ CallAttribute "p" []; CallSolve (rand_const 0) ] H1 H2).
Defined.

(** X7. Ids are never recycled or renamed: whatever calls a [Problem]
    receives, an id keeps the name it has, and the number of ids does not
    decrease. *)
Theorem ids_are_stable calls p i name :
  fromInternal p !! i = Some name ->
  fromInternal (after_all calls p) !! i = Some name
  /\ (length (fromInternal p) <= length (fromInternal (after_all calls p)))%nat.
Proof.
  intros H. destruct (extends_after_all calls p) as [[names Hn] _ _].
  rewrite Hn. split; [by apply lookup_app_l_Some|].
  rewrite length_app. lia.
Qed.

(** The theorem at the id of [q] in the negative-loop problem, through a
    failing [equal], a declaration and a [solve()]. *)
Lemma ids_are_stable_witness :
  fromInternal negloop !! 2%nat = Some "q"%string
  /\ fromInternal
       (after_all [ CallEqual ["p"; "q"]%string ["q"; "r"]%string;
                    CallAttribute "r" [["a"; "b"]%string];
                    CallSolve (rand_const 0) ] negloop) !! 2%nat
     = Some "q"%string
  /\ (length (fromInternal negloop)
      <= length (fromInternal
                   (after_all [ CallEqual ["p"; "q"]%string ["q"; "r"]%string;
                                CallAttribute "r" [["a"; "b"]%string];
                                CallSolve (rand_const 0) ] negloop)))%nat.
Proof.
  assert (H1 : fromInternal negloop !! 2%nat = Some "q"%string)
    by reflexivity.
  split; [exact H1|].
  exact (ids_are_stable
           [ CallEqual ["p"; "q"]%string ["q"; "r"]%string;
             CallAttribute "r" [["a"; "b"]%string];
             CallSolve (rand_const 0) ] negloop 2%nat "q" H1).
Defined.

Lemma quantify_failure min max props p e :
  snd (quantify min max props p) = Threw e ->
  fst (quantify min max props p) = p.
Proof.
  rewrite quantify_eq. destruct (negb _); [done|].
  destruct (quantify_trivial _ _ _); [done|].
  by destruct (traverse _ props).
Qed.

Lemma all_failure props p e :
  snd (all props p) = Threw e -> fst (all props p) = p.
Proof.
  unfold all. destruct (_ =? _)%nat; [done|]. apply quantify_failure.
Qed.

(** X8. Errors are atomic everywhere but in [equal] of two non-empty
    lists: a call of [attribute], [quantify], [exactly], [all], [atLeast],
    [atMost], [unique], [inconsistent], [implies], [assert], [rule], or of
    [equal] with an empty side, that throws leaves the [Problem] exactly as
    it was, checkpoint and completion clauses included. *)
Theorem failing_call_changes_nothing c p e :
  throws_atomically c = true ->
  snd (run_call c p) = Threw e ->
  fst (run_call c p) = p.
Proof.
  intros Hc. destruct c; try done; unfold run_call.
  - apply attribute_failure.
  - apply quantify_failure.
  - unfold exactly. destruct (negb _); [done|].
    destruct (_ =? _)%nat; [done|]. apply quantify_failure.
  - apply all_failure.
  - unfold atLeast. destruct (negb _); [done|].
    destruct (Qle_bool _ _); [done|]. apply quantify_failure.
  - unfold atMost. destruct (negb _); [done|].
    destruct (Qle_bool _ _); [done|]. apply quantify_failure.
  - unfold unique. destruct (_ =? _)%nat; [done|]. apply quantify_failure.
  - unfold inconsistent, atMost. destruct (negb _); [done|].
    destruct (Qle_bool _ _); [done|]. apply quantify_failure.
  - rewrite implies_eq. destruct (lookup_in _ _); [|done].
    by destruct (traverse _ _).
  - destruct a as [|a1 a], b as [|b1 b]; try done; unfold equal;
      [|destruct a]; apply all_failure.
  - apply all_failure.
  - rewrite rule_eq. destruct (lookup_in _ _); [|done].
    destruct (traverse _ _); [|done]. by destruct (_ <? 0).
Qed.

(** The theorem at [rule("!p", ["q"])] after a [solve()]. *)
Lemma failing_call_changes_nothing_witness :
  throws_atomically (CallRule "!p" ["q"%string]) = true
  /\ snd (run_call (CallRule "!p" ["q"%string]) (complete_state negloop))
     = Threw (RuleConclusionNegated "!p")
  /\ fst (run_call (CallRule "!p" ["q"%string]) (complete_state negloop))
     = complete_state negloop.
Proof.
  assert (H1 : throws_atomically (CallRule "!p" ["q"%string]) = true)
    by reflexivity.
  assert (H2 : snd (run_call (CallRule "!p" ["q"%string])
                      (complete_state negloop))
               = Threw (RuleConclusionNegated "!p"))
    by (vm_compute; reflexivity).
  split; [exact H1|]. split; [exact H2|].
  exact (failing_call_changes_nothing (CallRule "!p" ["q"%string])
           (complete_state negloop) (RuleConclusionNegated "!p") H1 H2).
Defined.

Lemma split_space_head c s predicate args :
  split_space (String c s) = predicate :: args ->
  IDENT_REGEX predicate = true ->
  Ascii.eqb c "!" = false.
Proof.
  cbn [split_space]. destruct (Ascii.eqb c " ") eqn:E.
  - by intros [= <- _].
  - pose proof (split_space_nonempty s).
    destruct (split_space s) as [|w ws]; [done|].
    intros [= <- _]. cbn [IDENT_REGEX]. intros [Hc _]%andb_true_iff.
    destruct (Ascii.eqb c "!") eqn:E'; [|done].
    apply Ascii.eqb_eq in E' as ->. by vm_compute in Hc.
Qed.

Lemma lookup_first_char c s (tI : gmap string AttrSlots) id :
  lookupAttributeInMap (String c s) tI = Returned id ->
  Ascii.eqb c "!" = false.
Proof.
  unfold lookupAttributeInMap.
  destruct (split_space (String c s)) as [|predicate args] eqn:E; [done|].
  destruct (IDENT_REGEX predicate) eqn:Ei; [|done]. intros _.
  by eapply split_space_head.
Qed.

Lemma lookup_in_bang (tI : gmap string AttrSlots) attr :
  lookup_in tI (String "!" attr) =
  match lookupAttributeInMap attr tI with
  | Returned id => Returned (- Z.of_nat id)
  | Threw e => Threw e
  end.
Proof.
  unfold lookup_in, sign_and_attribute.
  change (Ascii.eqb "!" "!") with true. cbv iota.
  destruct (lookupAttributeInMap attr tI); [f_equal; lia|done].
Qed.

Lemma lookup_in_plain (tI : gmap string AttrSlots) c s :
  Ascii.eqb c "!" = false ->
  lookup_in tI (String c s) =
  match lookupAttributeInMap (String c s) tI with
  | Returned id => Returned (Z.of_nat id)
  | Threw e => Threw e
  end.
Proof.
  intros Hc. unfold lookup_in, sign_and_attribute. rewrite Hc.
  destruct (lookupAttributeInMap _ tI); [f_equal; lia|done].
Qed.

Lemma lookup_in_double_bang (tI : gmap string AttrSlots) attr :
  threw (lookup_in tI (String "!" (String "!" attr))).
Proof.
  rewrite lookup_in_bang.
  destruct (lookupAttributeInMap _ tI) as [id|e] eqn:E; [|by eexists].
  by apply lookup_first_char in E.
Qed.

Lemma truthy_id_ge o id : truthy_id o = Some id -> (1 <= id)%nat.
Proof. destruct o as [[|k]|]; simpl; [done| |done]. intros [= <-]. lia. Qed.

Lemma lookup_positive attr (tI : gmap string AttrSlots) id :
  lookupAttributeInMap attr tI = Returned id -> (1 <= id)%nat.
Proof.
  unfold lookupAttributeInMap.
  destruct (split_space attr) as [|predicate args]; [done|].
  destruct (negb _); [done|]. destruct (List.find _ _); [done|].
  destruct (tI !! predicate) as [slots|]; [|by destruct (inherited _)].
  destruct (slots_all_undefined slots); [done|].
  unfold switch_args.
  destruct args as [|x [|y [|z [|w args]]]]; try done;
    repeat case_match; try done; intros [= <-];
    eapply truthy_id_ge; eassumption.
Qed.

Lemma lookup_in_nonzero (tI : gmap string AttrSlots) prop l :
  lookup_in tI prop = Returned l -> l <> 0.
Proof.
  unfold lookup_in. destruct (sign_and_attribute prop) as [sign attr] eqn:Es.
  destruct (lookupAttributeInMap attr tI) as [id|] eqn:E; [|done].
  apply lookup_positive in E. intros [= <-].
  unfold sign_and_attribute in Es. destruct prop as [|c s].
  - injection Es as <- _. lia.
  - destruct (Ascii.eqb c "!"); injection Es as <- _; lia.
Qed.

(** X9. Negation: whatever the registry, a proposition none of whose
    arguments is the name of an inherited property resolves to a non-zero
    literal, negative exactly when it starts with [!]; if [attr] resolves
    to [l] then [!attr] resolves to [-l], and a doubly negated proposition
    never resolves. *)
Theorem negation_flips_sign (tI : gmap string AttrSlots) prop l :
  clean_prop prop = true ->
  lookup_in tI prop = Returned l ->
  l <> 0
  /\ (l < 0 <-> exists attr, prop = String "!" attr)
  /\ (0 < l -> lookup_in tI (String "!" prop) = Returned (- l))
  /\ threw (lookup_in tI (String "!" (String "!" prop))).
Proof.
  intros _ H. split; [|split; [|split]]; [| | |apply lookup_in_double_bang].
  - destruct prop as [|c s].
    + unfold lookup_in in H. simpl in H.
      destruct (lookupAttributeInMap "" tI) eqn:E; [|done].
      by apply lookup_empty_name in E.
    + destruct (Ascii.eqb c "!") eqn:Ec.
      * apply Ascii.eqb_eq in Ec as ->. rewrite lookup_in_bang in H.
        destruct (lookupAttributeInMap s tI) as [id|] eqn:E; [|done].
        apply lookup_positive in E. injection H as <-. lia.
      * rewrite lookup_in_plain in H by done.
        destruct (lookupAttributeInMap _ tI) as [id|] eqn:E; [|done].
        apply lookup_positive in E. injection H as <-. lia.
  - destruct prop as [|c s].
    + unfold lookup_in in H. simpl in H.
      destruct (lookupAttributeInMap "" tI) eqn:E; [|done].
      by apply lookup_empty_name in E.
    + destruct (Ascii.eqb c "!") eqn:Ec.
      * apply Ascii.eqb_eq in Ec as ->. rewrite lookup_in_bang in H.
        destruct (lookupAttributeInMap s tI) as [id|] eqn:E; [|done].
        apply lookup_positive in E. injection H as <-.
        split; [by eexists|lia].
      * rewrite lookup_in_plain in H by done.
        destruct (lookupAttributeInMap _ tI) as [id|] eqn:E; [|done].
        injection H as <-. split; [lia|]. intros [attr [= -> _]]. done.
  - intros Hl. destruct prop as [|c s].
    + unfold lookup_in in H. simpl in H.
      destruct (lookupAttributeInMap "" tI) eqn:E; [|done].
      by apply lookup_empty_name in E.
    + destruct (Ascii.eqb c "!") eqn:Ec.
      * apply Ascii.eqb_eq in Ec as ->. rewrite lookup_in_bang in H.
        destruct (lookupAttributeInMap s tI) as [id|] eqn:E; [|done].
        injection H as <-. lia.
      * rewrite lookup_in_bang. rewrite lookup_in_plain in H by done.
        destruct (lookupAttributeInMap _ tI) as [id|] eqn:E; [|done].
        by injection H as <-.
Qed.

(** The theorem at [colored terra gray] in the registry of the cats. *)
Lemma negation_flips_sign_witness :
  clean_prop "colored terra gray" = true
  /\ lookup_in (toInternal cats) "colored terra gray" = Returned 9
  /\ 9 <> 0
  /\ (9 < 0 <-> exists attr, "colored terra gray"%string = String "!" attr)
  /\ (0 < 9 ->
      lookup_in (toInternal cats) (String "!" "colored terra gray")
      = Returned (- 9))
  /\ threw (lookup_in (toInternal cats)
              (String "!" (String "!" "colored terra gray"))).
Proof.
  assert (H0 : clean_prop "colored terra gray" = true) by reflexivity.
  assert (H1 : lookup_in (toInternal cats) "colored terra gray"
               = Returned 9) by (vm_compute; reflexivity).
  split; [exact H0|]. split; [exact H1|].
  exact (negation_flips_sign (toInternal cats) "colored terra gray" 9 H0 H1).
Defined.

(** ** The bounds of the stored constraints *)

Lemma quantify_bounds min max (props : list string) :
  quantify_feasible min max props = true ->
  quantify_trivial min max props = false ->
  0 <= Z.max 0 (Qceiling min)
  /\ Z.max 0 (Qceiling min) <= Z.min (len props) (Qfloor max)
  /\ Z.min (len props) (Qfloor max) <= len props
  /\ (1 <= Z.max 0 (Qceiling min)
      \/ Z.min (len props) (Qfloor max) < len props).
Proof.
  unfold quantify_feasible, quantify_trivial.
  intros [[H1 H2]%andb_true_iff H3]%andb_true_iff Ht.
  apply Qle_bool_iff in H1, H3. apply Z.leb_le in H2.
  assert (F0 : 0 <= Qfloor max).
  { change 0 with (Qfloor 0). by apply Qfloor_resp_le. }
  assert (C1 : Qceiling min <= len props).
  { rewrite <- (Qceiling_Z (len props)). by apply Qceiling_resp_le. }
  assert (Hlen : 0 <= len props) by (unfold len; lia).
  split; [lia|]. split; [lia|]. split; [lia|].
  apply andb_false_iff in Ht as [Ht|Ht].
  - left. destruct (Z_lt_le_dec 0 (Qceiling min)) as [|Hle]; [lia|].
    exfalso. assert (Hq : (min <= 0)%Q).
    { eapply Qle_trans; [apply Qle_ceiling|].
      change 0%Q with (inject_Z 0). by rewrite <- Zle_Qle. }
    apply Qle_bool_iff in Hq. congruence.
  - right. destruct (Z_lt_le_dec (Qfloor max) (len props)) as [|Hle]; [lia|].
    exfalso. assert (Hq : (inject_Z (len props) <= max)%Q).
    { eapply Qle_trans; [|apply Qfloor_le]. by rewrite <- Zle_Qle. }
    apply Qle_bool_iff in Hq. congruence.
Qed.

Lemma proper_reset p :
  Forall proper (constraints p) -> Forall proper (constraints (reset_state p)).
Proof.
  simpl. destruct (nonRuleConstraints p); [apply Forall_take|done].
Qed.

Lemma proper_implication ls conc :
  proper {| clause := map Z.opp ls ++ [conc]; lo := 1;
            hi := len (map Z.opp ls ++ [conc]) |}.
Proof.
  unfold proper, len. cbn [lo hi clause]. rewrite length_app. simpl. lia.
Qed.

Lemma proper_iff prems conc p :
  Forall proper (constraints p) ->
  Forall proper (constraints (iff_state prems conc p)).
Proof.
  intros H. unfold iff_state. cbn [constraints push_state].
  apply Forall_app. split; [apply Forall_app; split; [done|]|].
  - apply Forall_fmap, Forall_true. intros prem.
    unfold proper, len. simpl. lia.
  - apply Forall_singleton, (proper_implication prems conc).
Qed.

Lemma proper_quantify min max props p :
  Forall proper (constraints p) ->
  Forall proper (constraints (fst (quantify min max props p))).
Proof.
  intros H. rewrite quantify_eq.
  destruct (quantify_feasible min max props) eqn:E1; [|done].
  destruct (quantify_trivial min max props) eqn:E2; [done|].
  cbn [negb].
  destruct (traverse _ props) as [cl|] eqn:Et; [|done].
  cbn [fst constraints push_state].
  apply Forall_app. split; [by apply proper_reset|].
  apply Forall_singleton. apply traverse_length in Et.
  unfold proper. cbn [lo hi clause].
  replace (len cl) with (len props) by (unfold len; congruence).
  by apply quantify_bounds.
Qed.

Lemma proper_all props p :
  Forall proper (constraints p) ->
  Forall proper (constraints (fst (all props p))).
Proof.
  intros H. unfold all. destruct (_ =? _)%nat; [done|].
  by apply proper_quantify.
Qed.

Lemma proper_implies premises conclusion p :
  Forall proper (constraints p) ->
  Forall proper (constraints (fst (implies premises conclusion p))).
Proof.
  intros H. rewrite implies_eq.
  destruct (lookup_in _ conclusion) as [conc|]; [|done].
  destruct (traverse _ premises) as [ls|]; [|done].
  cbn [fst constraints push_state].
  apply Forall_app. split; [by apply proper_reset|].
  apply Forall_singleton, proper_implication.
Qed.

Lemma proper_equal_one c0 xs p :
  Forall proper (constraints p) ->
  Forall proper (constraints (fst (equal_one c0 xs p))).
Proof.
  intros H. unfold equal_one.
  destruct (traverse _ xs) as [prems|]; [|by apply proper_reset].
  destruct (lookup_in _ c0) as [conc|]; [|by apply proper_reset].
  by apply proper_iff, proper_reset.
Qed.

Lemma proper_equal a b p :
  Forall proper (constraints p) ->
  Forall proper (constraints (fst (equal a b p))).
Proof.
  intros H.
  destruct a as [|a1 [|a2 a]], b as [|b1 [|b2 b]];
    try done; try (by apply proper_all).
  - rewrite equal_11_eq.
    destruct (lookup_in _ a1) as [la|]; [|by apply proper_reset].
    destruct (lookup_in _ b1) as [lb|]; [|by apply proper_reset].
    cbn [fst constraints push_state].
    apply Forall_app. split; [by apply proper_reset|].
    repeat apply Forall_cons_2; [| |done]; unfold proper, len; simpl; lia.
  - rewrite equal_1n_eq. by apply proper_equal_one.
  - rewrite equal_n1_eq. by apply proper_equal_one.
  - rewrite equal_nn_eq. cbv zeta.
    destruct (traverse _ (a1 :: a2 :: a)) as [ca|]; [|by apply proper_reset].
    destruct (traverse _ (b1 :: b2 :: b)) as [cb|]; [|by apply proper_reset].
    cbn [fst]. by apply proper_iff, proper_iff, proper_reset.
Qed.

Lemma proper_rule conclusion premises p :
  Forall proper (constraints p) ->
  Forall proper (constraints (fst (rule conclusion premises p))).
Proof.
  intros H. rewrite rule_eq.
  destruct (lookup_in _ conclusion) as [conc|]; [|done].
  destruct (traverse _ premises) as [prems|]; [|done].
  destruct (conc <? 0); [done|]. cbn [fst].
  set (q := push_state _ (reset_state p)).
  assert (Hq : Forall proper (constraints q)).
  { subst q. cbn [constraints push_state].
    apply Forall_app. split; [by apply proper_reset|].
    apply Forall_singleton, proper_implication. }
  unfold rule_tail. destruct prems as [|prem [|prem2 prems]]; try done.
  cbn [constraints push_rule_state]. by apply proper_iff.
Qed.

Lemma proper_complete p :
  Forall proper (constraints p) ->
  Forall proper (constraints (complete_state p)).
Proof.
  intros H. unfold complete_state. destruct (nonRuleConstraints p); [done|].
  cbn [constraints]. apply Forall_app. split; [done|].
  apply Forall_fmap, Forall_true. intros [h js].
  unfold proper, completion, len. simpl. lia.
Qed.

Lemma proper_attribute name args p :
  Forall proper (constraints p) ->
  Forall proper (constraints (fst (attribute name args p))).
Proof.
  intros H.
  destruct (attribute_spec name args p)
    as [[_ ->]|(p1 & slots & -> & G & _)]; [done|].
  destruct G as (_ & E & _). cbn [fst constraints set_slots_state].
  by rewrite E.
Qed.

Lemma proper_after c p :
  Forall proper (constraints p) -> Forall proper (constraints (after c p)).
Proof.
  intros H. destruct c; try rewrite after_solve; unfold after, run_call.
  - by apply proper_attribute.
  - by apply proper_quantify.
  - unfold exactly. destruct (negb _); [done|].
    destruct (_ =? _)%nat; [done|]. by apply proper_quantify.
  - by apply proper_all.
  - unfold atLeast. destruct (negb _); [done|].
    destruct (Qle_bool _ _); [done|]. by apply proper_quantify.
  - unfold atMost. destruct (negb _); [done|].
    destruct (Qle_bool _ _); [done|]. by apply proper_quantify.
  - unfold unique. destruct (_ =? _)%nat; [done|]. by apply proper_quantify.
  - unfold inconsistent, atMost. destruct (negb _); [done|].
    destruct (Qle_bool _ _); [done|]. by apply proper_quantify.
  - by apply proper_implies.
  - by apply proper_equal.
  - by apply proper_all.
  - by apply proper_rule.
  - by apply proper_complete.
Qed.

(** X10. Every constraint a client can bring into the store has bounds
    [0 <= lo <= hi <= clause.length] that exclude at least one count, so
    its clause is not empty: constraints that no count or every count would
    satisfy are rejected before they are stored, and the completion
    clauses of [solve()] are of this kind too. *)
Theorem stored_bounds_are_proper p c :
  reachable p -> c ∈ constraints p ->
  0 <= lo c <= hi c /\ hi c <= len (clause c)
  /\ (1 <= lo c \/ hi c < len (clause c))
  /\ clause c <> [].
Proof.
  intros Hr Hc.
  assert (H : Forall proper (constraints p)).
  { clear c Hc. induction Hr as [|c p _ IH]; [by constructor|].
    by apply proper_after. }
  rewrite Forall_forall in H. destruct (H c Hc) as (H1 & H2 & H3 & H4).
  repeat split; try done.
  intros E. rewrite E in H3, H4. unfold len in *. simpl in *. lia.
Qed.

(** The theorem at the completion clause of [p] in the negative loop. *)
Lemma stored_bounds_are_proper_witness :
  reachable (complete_state negloop)
  /\ {| lo := 1; hi := 2; clause := [-1; -2] |}
       ∈ constraints (complete_state negloop)
  /\ 0 <= 1 <= 2 /\ 2 <= len [-1; -2]
  /\ (1 <= 1 \/ 2 < len [-1; -2])
  /\ [-1; -2] <> [].
Proof.
  assert (H1 : reachable (complete_state negloop)).
  { rewrite <- (after_solve (rand_const 0)).
    apply reachable_call,
      (reachable_after_all negloop_calls new_Problem), reachable_new. }
  assert (H2 : {| lo := 1; hi := 2; clause := [-1; -2] |}
                 ∈ constraints (complete_state negloop)).
  { apply list_elem_of_In. vm_compute. tauto. }
  split; [exact H1|]. split; [exact H2|].
  exact (stored_bounds_are_proper (complete_state negloop)
           {| lo := 1; hi := 2; clause := [-1; -2] |} H1 H2).
Defined.

(** ** The checkpoint and the rules *)

Lemma quantify_resets_or_keeps min max props p :
  fst (quantify min max props p) = p
  \/ appends (reset_state p) (fst (quantify min max props p)).
Proof.
  rewrite quantify_eq. destruct (negb _); [by left|].
  destruct (quantify_trivial _ _ _); [by left|].
  destruct (traverse _ props); [right; apply appends_push|by left].
Qed.

Lemma all_resets_or_keeps props p :
  fst (all props p) = p \/ appends (reset_state p) (fst (all props p)).
Proof.
  unfold all. destruct (_ =? _)%nat; [by left|].
  apply quantify_resets_or_keeps.
Qed.

Lemma equal_one_resets c0 xs p :
  appends (reset_state p) (fst (equal_one c0 xs p)).
Proof.
  unfold equal_one. destruct (traverse _ xs); [|apply appends_refl].
  destruct (lookup_in _ c0); [apply appends_iff|apply appends_refl].
Qed.

(** A call other than [attribute] and [solve] changes nothing at all, or
    leaves what [reset()] keeps followed by new clauses, under a cleared
    checkpoint. *)
Lemma call_resets_or_keeps c p :
  adds_constraint c = true ->
  after c p = p \/ appends (reset_state p) (after c p).
Proof.
  intros Hc. destruct c; try done; unfold after, run_call.
  - apply quantify_resets_or_keeps.
  - unfold exactly. destruct (negb _); [by left|].
    destruct (_ =? _)%nat; [by left|]. apply quantify_resets_or_keeps.
  - apply all_resets_or_keeps.
  - unfold atLeast. destruct (negb _); [by left|].
    destruct (Qle_bool _ _); [by left|]. apply quantify_resets_or_keeps.
  - unfold atMost. destruct (negb _); [by left|].
    destruct (Qle_bool _ _); [by left|]. apply quantify_resets_or_keeps.
  - unfold unique. destruct (_ =? _)%nat; [by left|].
    apply quantify_resets_or_keeps.
  - unfold inconsistent, atMost. destruct (negb _); [by left|].
    destruct (Qle_bool _ _); [by left|]. apply quantify_resets_or_keeps.
  - rewrite implies_eq. destruct (lookup_in _ _); [|by left].
    destruct (traverse _ _); [right; apply appends_push|by left].
  - destruct a as [|a1 [|a2 a]], b as [|b1 [|b2 b]];
      try (by left); try apply all_resets_or_keeps.
    + rewrite equal_11_eq. right.
      destruct (lookup_in _ a1); [|apply appends_refl].
      destruct (lookup_in _ b1); [apply appends_push|apply appends_refl].
    + rewrite equal_1n_eq. right. apply equal_one_resets.
    + rewrite equal_n1_eq. right. apply equal_one_resets.
    + rewrite equal_nn_eq. cbv zeta. right.
      destruct (traverse _ (a1 :: a2 :: a)); [|apply appends_generate].
      destruct (traverse _ (b1 :: b2 :: b)); [|apply appends_generate].
      cbn [fst]. eapply appends_trans; [apply appends_generate|].
      eapply appends_trans; apply appends_iff.
  - apply all_resets_or_keeps.
  - rewrite rule_eq. destruct (lookup_in _ _); [|by left].
    destruct (traverse _ _) as [prems|]; [|by left].
    destruct (_ <? 0); [by left|]. right. cbn [fst].
    eapply appends_trans; [apply appends_push|apply appends_rule_tail].
Qed.

Lemma checkpoint_current_complete p :
  checkpoint_current p -> checkpoint_current (complete_state p).
Proof.
  intros H. unfold complete_state.
  destruct (nonRuleConstraints p) eqn:E; [done|].
  intros n. cbn [nonRuleConstraints constraints rules]. intros [= <-].
  rewrite length_app. split; [lia|]. by rewrite drop_app_length.
Qed.

Lemma checkpoint_current_after c p :
  checkpoint_current p -> checkpoint_current (after c p).
Proof.
  intros H. destruct (adds_constraint c) eqn:Ec.
  - destruct (call_resets_or_keeps c p Ec) as [->|[E _]]; [done|].
    intros n. by rewrite E.
  - destruct c; try done.
    + unfold after, run_call.
      destruct (attribute_spec name args p)
        as [[_ ->]|(p1 & slots & -> & G & _)]; [done|].
      destruct G as (_ & Ec' & Er & En & _).
      intros n. cbn [fst nonRuleConstraints constraints rules set_slots_state].
      rewrite Ec', Er, En. apply H.
    + rewrite after_solve. by apply checkpoint_current_complete.
Qed.

Lemma checkpoint_current_reachable p : reachable p -> checkpoint_current p.
Proof.
  induction 1 as [|c p _ IH]; [done|by apply checkpoint_current_after].
Qed.

(** X11. The completion clauses in the store are never stale: in every
    state a client can reach, if the checkpoint is set then the clauses
    past it are exactly the completion clauses of the rules as they are
    now, so the store is what [reset()] keeps followed by them. *)
Theorem checkpoint_is_current p n :
  reachable p -> nonRuleConstraints p = Some n ->
  (n <= length (constraints p))%nat
  /\ drop n (constraints p) = map completion (entries (rules p))
  /\ constraints p
     = constraints (reset_state p) ++ map completion (entries (rules p)).
Proof.
  intros Hr Hn.
  destruct (checkpoint_current_reachable p Hr n Hn) as [Hle Hd].
  split; [done|]. split; [done|].
  cbn [constraints reset_state]. rewrite Hn, <- Hd. by rewrite take_drop.
Qed.

(** The theorem at the negative loop after a [solve()] and a declaration. *)
Lemma checkpoint_is_current_witness :
  reachable (after (CallAttribute "r" []) (complete_state negloop))
  /\ nonRuleConstraints (after (CallAttribute "r" []) (complete_state negloop))
     = Some 2%nat
  /\ (2 <= length (constraints
                     (after (CallAttribute "r" []) (complete_state negloop))))%nat
  /\ drop 2 (constraints
               (after (CallAttribute "r" []) (complete_state negloop)))
     = map completion
         (entries (rules (after (CallAttribute "r" [])
                            (complete_state negloop))))
  /\ constraints (after (CallAttribute "r" []) (complete_state negloop))
     = constraints (reset_state (after (CallAttribute "r" [])
                                   (complete_state negloop)))
       ++ map completion
            (entries (rules (after (CallAttribute "r" [])
                               (complete_state negloop)))).
Proof.
  assert (H1 : reachable (after (CallAttribute "r" [])
                            (complete_state negloop))).
  { rewrite <- (after_solve (rand_const 0)).
    apply reachable_call, reachable_call,
      (reachable_after_all negloop_calls new_Problem), reachable_new. }
  assert (H2 : nonRuleConstraints (after (CallAttribute "r" [])
                                     (complete_state negloop))
               = Some 2%nat) by (vm_compute; reflexivity).
  split; [exact H1|]. split; [exact H2|].
  exact (checkpoint_is_current _ 2%nat H1 H2).
Defined.

(** ** What a solution says about the rules *)

Lemma complete_fromInternal p :
  fromInternal (complete_state p) = fromInternal p.
Proof. unfold complete_state. by destruct (nonRuleConstraints p). Qed.

Lemma complete_checkpoint p : is_Some (nonRuleConstraints (complete_state p)).
Proof.
  unfold complete_state. destruct (nonRuleConstraints p) eqn:E.
  - by rewrite E.
  - by eexists.
Qed.

(** What [solve()] returned, in the vocabulary of the data model. *)
Lemma solve_model rand p p' s :
  reachable p -> valid_rand rand -> solve rand p = (p', Returned s) ->
  p' = complete_state p /\ reachable p'
  /\ length (satisfyingAssignment s) = length (fromInternal p')
  /\ satisfyingAssignment s !! 0%nat = Some true
  /\ forall c, c ∈ constraints p' ->
       lo c <= true_literals (satisfyingAssignment s) (clause c) <= hi c.
Proof.
  intros Hreach Hrand Hs.
  pose proof (wf_reachable p Hreach) as Hwf.
  destruct (solve_sound_wf rand p p' s Hwf Hrand Hs) as (-> & Hl & H0 & Hall).
  pose proof (wf_complete p Hwf) as Hwf'.
  split; [done|]. split.
  { rewrite <- (after_solve rand). by constructor. }
  rewrite complete_fromInternal. split; [done|]. split; [done|].
  intros c Hc. rewrite forallb_forall in Hall.
  assert (Hin : In c (constraints (complete_state p)))
    by by apply list_elem_of_In.
  apply Hall in Hin. unfold clause_sat in Hin.
  rewrite count_spec in Hin; [lia|done|].
  intros l Hlc. rewrite Hl, <- (complete_fromInternal p).
  by eapply (wf_clauses _ Hwf').
Qed.

Lemma true_literals_pos A L :
  1 <= true_literals A L -> exists l, l ∈ L /\ literal_true A l = true.
Proof.
  unfold true_literals, len. intros H.
  destruct (filter _ L) as [|l ls] eqn:E; [simpl in H; lia|].
  assert (Hl : l ∈ filter (fun l => literal_true A l = true) L)
    by (rewrite E; left).
  apply list_elem_of_filter in Hl as [H1 H2]. by exists l.
Qed.

(** X12. Solutions are supported: for a problem built by calls that name
    no inherited property, in what [solve()] returns an atom that heads a
    rule is true only if one of the justifications recorded for it in
    [rules] is true ([0], recorded for a rule without premises, always
    is). *)
Theorem true_heads_are_justified rand p p' s h js :
  clean_reachable p -> valid_rand rand -> solve rand p = (p', Returned s) ->
  rules p' !! h = Some js ->
  satisfyingAssignment s !! h = Some true ->
  exists j, j ∈ js /\ literal_true (satisfyingAssignment s) j = true.
Proof.
  intros Hreach%clean_reachable_reachable Hrand Hs Hh Hth.
  destruct (solve_model rand p p' s Hreach Hrand Hs)
    as (Ep & Hr' & Hl & H0 & Hall).
  destruct (complete_checkpoint p) as [n Hn]. rewrite <- Ep in Hn.
  destruct (checkpoint_current_reachable p' Hr' n Hn) as [_ Hd].
  assert (Hc : completion (h, js) ∈ constraints p').
  { rewrite <- (take_drop n (constraints p')), Hd.
    apply elem_of_app. right. apply list_elem_of_fmap.
    exists (h, js). split; [done|]. by apply entries_spec. }
  apply Hall in Hc. cbn [completion lo hi clause fst snd] in Hc.
  destruct Hc as [Hc _]. apply true_literals_pos in Hc as (l & Hl1 & Hl2).
  apply elem_of_cons in Hl1 as [->|Hl1]; [|by exists l].
  pose proof (wf_rules p' (wf_reachable p' Hr') h js Hh) as [Hh1 _].
  unfold literal_true in Hl2.
  assert (E1 : (- Z.of_nat h =? 0) = false) by lia.
  assert (E2 : (0 <? - Z.of_nat h) = false) by lia.
  rewrite E1, E2 in Hl2. apply bool_decide_eq_true in Hl2.
  replace (Z.to_nat (- - Z.of_nat h)) with h in Hl2 by lia. congruence.
Qed.

(** The theorem at the model of the negative loop in which [p] is true. *)
Lemma true_heads_are_justified_witness :
  clean_reachable negloop /\ valid_rand (rand_const 0)
  /\ solve (rand_const 0) negloop
     = (complete_state negloop, Returned (mkSolution [true; true; false]))
  /\ rules (complete_state negloop) !! 1%nat = Some [-2]
  /\ satisfyingAssignment (mkSolution [true; true; false]) !! 1%nat
     = Some true
  /\ exists j, j ∈ [-2]
       /\ literal_true (satisfyingAssignment (mkSolution [true; true; false]))
            j = true.
Proof.
  assert (Hr : clean_reachable negloop)
    by (apply (clean_reachable_after_all negloop_calls new_Problem);
        [apply clean_new | reflexivity]).
  assert (Hv : valid_rand (rand_const 0)) by (by apply valid_rand_const).
  assert (Hs : solve (rand_const 0) negloop
               = (complete_state negloop,
                  Returned (mkSolution [true; true; false])))
    by (vm_compute; reflexivity).
  assert (Hh : rules (complete_state negloop) !! 1%nat = Some [-2])
    by (vm_compute; reflexivity).
  assert (Ht : satisfyingAssignment (mkSolution [true; true; false]) !! 1%nat
               = Some true) by reflexivity.
  split; [exact Hr|]. split; [exact Hv|]. split; [exact Hs|].
  split; [exact Hh|]. split; [exact Ht|].
  exact (true_heads_are_justified (rand_const 0) negloop
           (complete_state negloop) (mkSolution [true; true; false])
           1%nat [-2] Hr Hv Hs Hh Ht).
Defined.

(** X13. Unsatisfiability is only ever reported as a timeout: for a
    problem built by calls that name no inherited property, when no
    assignment of the right length satisfies the clauses [solve()] works
    on, every run of [solve()] makes exactly 50000 rounds of the loop and
    throws the timeout error, leaving the completed store behind. *)
Theorem unsatisfiable_times_out rand p :
  clean_reachable p -> valid_rand rand ->
  (forall a, length a = length (fromInternal p) ->
     forallb (clause_sat a) (constraints (complete_state p)) = false) ->
  solve rand p = (complete_state p, Threw Timeout)
  /\ fst (search rand (complete_state p) 0%nat) = (Threw Timeout, 50000%nat).
Proof.
  intros Hreach%clean_reachable_reachable Hrand Hunsat.
  pose proof (wf_complete p (wf_reachable p Hreach)) as Hwf.
  destruct (search_bound rand (complete_state p) 0%nat)
    as (it & _ & [[a Ha]|[Ht ->]]).
  - exfalso.
    destruct (search_sound rand (complete_state p) 0%nat a it Hrand)
      as (Hl & _ & Hall); try done.
    + pose proof (wf_nonempty _ Hwf) as Hn. intros E. rewrite E in Hn.
      simpl in Hn. lia.
    + apply (wf_atoms _ Hwf).
    + rewrite complete_fromInternal in Hl.
      rewrite (Hunsat a Hl) in Hall. done.
  - split; [|done]. unfold solve, bind, complete_rules. by rewrite Ht.
Qed.

(** The theorem at [assert("a")] together with [assert("!a")]. *)
Lemma unsatisfiable_times_out_witness :
  clean_reachable (after_all [ CallAttribute "a" []; CallAssert "a";
                         CallAssert "!a" ] new_Problem)
  /\ valid_rand (rand_const 0)
  /\ (forall a,
        length a
        = length (fromInternal
                    (after_all [ CallAttribute "a" []; CallAssert "a";
                                 CallAssert "!a" ] new_Problem)) ->
        forallb (clause_sat a)
          (constraints
             (complete_state
                (after_all [ CallAttribute "a" []; CallAssert "a";
                             CallAssert "!a" ] new_Problem))) = false)
  /\ solve (rand_const 0)
       (after_all [ CallAttribute "a" []; CallAssert "a";
                    CallAssert "!a" ] new_Problem)
     = (complete_state
          (after_all [ CallAttribute "a" []; CallAssert "a";
                       CallAssert "!a" ] new_Problem), Threw Timeout)
  /\ fst (search (rand_const 0)
            (complete_state
               (after_all [ CallAttribute "a" []; CallAssert "a";
                            CallAssert "!a" ] new_Problem)) 0%nat)
     = (Threw Timeout, 50000%nat).
Proof.
  assert (Hr : clean_reachable
                 (after_all [ CallAttribute "a" []; CallAssert "a";
                              CallAssert "!a" ] new_Problem))
    by (apply clean_reachable_after_all; [apply clean_new | reflexivity]).
  assert (Hv : valid_rand (rand_const 0)) by (by apply valid_rand_const).
  assert (Hu : forall a,
             length a
             = length (fromInternal
                         (after_all [ CallAttribute "a" []; CallAssert "a";
                                      CallAssert "!a" ] new_Problem)) ->
             forallb (clause_sat a)
               (constraints
                  (complete_state
                     (after_all [ CallAttribute "a" []; CallAssert "a";
                                  CallAssert "!a" ] new_Problem))) = false).
  { intros [|x [|y [|z a]]] Hl; try discriminate Hl.
    destruct x, y; vm_compute; reflexivity. }
  split; [exact Hr|]. split; [exact Hv|]. split; [exact Hu|].
  exact (unsatisfiable_times_out (rand_const 0) _ Hr Hv Hu).
Defined.

(** ** What the stored clauses mean *)

Lemma count_filter A L :
  numLiteralsInClauseSatisfied A L
  = len (filter (fun l => lookup_lit A l = true) L).
Proof.
  unfold numLiteralsInClauseSatisfied.
  assert (Hgen : forall acc,
    foldl (fun accum literal =>
             if lookup_lit A literal then accum + 1 else accum) acc L
    = acc + len (filter (fun l => lookup_lit A l = true) L)).
  { induction L as [|l L IH]; intros acc; cbn [foldl].
    - unfold len. simpl. lia.
    - rewrite IH, filter_cons. unfold len.
      destruct (lookup_lit A l); simpl; lia. }
  by rewrite Hgen.
Qed.

Lemma count_range A L :
  0 <= numLiteralsInClauseSatisfied A L <= len L.
Proof.
  rewrite count_filter. unfold len.
  pose proof (length_filter (fun l => lookup_lit A l = true) L). lia.
Qed.

Lemma count_cons A l L :
  numLiteralsInClauseSatisfied A (l :: L)
  = (if lookup_lit A l then 1 else 0) + numLiteralsInClauseSatisfied A L.
Proof.
  rewrite !count_filter, filter_cons. unfold len.
  destruct (lookup_lit A l); simpl; lia.
Qed.

Lemma count_full A L :
  numLiteralsInClauseSatisfied A L = len L
  <-> forallb (lookup_lit A) L = true.
Proof.
  induction L as [|l L IH]; [done|].
  rewrite count_cons. cbn [forallb]. unfold len in *. cbn [length].
  pose proof (count_range A L) as Hr. unfold len in Hr.
  destruct (lookup_lit A l); cbn [andb].
  - rewrite <- IH. lia.
  - split; [lia|done].
Qed.

Lemma count_zero A L :
  numLiteralsInClauseSatisfied A L = 0
  <-> existsb (lookup_lit A) L = false.
Proof.
  induction L as [|l L IH]; [done|].
  rewrite count_cons. cbn [existsb].
  pose proof (count_range A L) as Hr.
  destruct (lookup_lit A l); cbn [orb].
  - split; [lia|done].
  - rewrite <- IH. lia.
Qed.

(** The integer bounds [quantify] stores accept the counts between [min]
    and [max], and no others. *)
Lemma quantify_rounding min max m n :
  0 <= n <= m ->
  (Z.max 0 (Qceiling min) <=? n) && (n <=? Z.min m (Qfloor max)) = true
  <-> (min <= inject_Z n)%Q /\ (inject_Z n <= max)%Q.
Proof.
  intros Hn. rewrite andb_true_iff, !Z.leb_le. split.
  - intros [H1 H2]. split.
    + eapply Qle_trans; [apply Qle_ceiling|]. rewrite <- Zle_Qle. lia.
    + eapply Qle_trans; [|apply Qfloor_le]. rewrite <- Zle_Qle. lia.
  - intros [H1 H2]. split.
    + apply Qceiling_resp_le in H1. rewrite Qceiling_Z in H1. lia.
    + apply Qfloor_resp_le in H2. rewrite Qfloor_Z in H2. lia.
Qed.

Lemma quantify_meaning min max props p p' :
  quantify min max props p = (p', Returned tt) ->
  exists cl k,
    traverse (lookup_in (toInternal p)) props = Returned cl
    /\ p' = push_state [k] (reset_state p)
    /\ clause k = cl
    /\ forall A, clause_sat A k = true <->
         (min <= inject_Z (numLiteralsInClauseSatisfied A cl))%Q
         /\ (inject_Z (numLiteralsInClauseSatisfied A cl) <= max)%Q.
Proof.
  rewrite quantify_eq. destruct (negb _); [done|].
  destruct (quantify_trivial _ _ _); [done|].
  destruct (traverse _ props) as [cl|] eqn:Et; [|done].
  intros [= <-]. eexists cl, _. split; [done|]. split; [done|].
  split; [done|]. intros A. unfold clause_sat. cbn [lo hi clause].
  apply quantify_rounding. apply traverse_length in Et.
  replace (len props) with (len cl) by (unfold len; congruence).
  apply count_range.
Qed.

(** X14. The counting operations mean what they say: a successful
    [quantify], [exactly], [all], [atLeast], [atMost], [unique],
    [inconsistent] or [assert] clears the checkpoint and stores one
    constraint over the literals of its propositions, which an assignment
    satisfies exactly when the number of those literals it makes true is
    one the operation allows; the rounding of the bounds loses nothing. *)
Theorem counting_calls_count c ps allowed p p' :
  cardinality c = Some (ps, allowed) ->
  run_call c p = (p', Returned tt) ->
  exists cl k,
    traverse (lookup_in (toInternal p)) ps = Returned cl
    /\ p' = push_state [k] (reset_state p)
    /\ clause k = cl
    /\ forall A, clause_sat A k = true <->
         allowed (numLiteralsInClauseSatisfied A cl).
Proof.
  assert (Hq : forall min max props (ok : Z -> Prop),
    (forall n, 0 <= n <= len props ->
       ((min <= inject_Z n)%Q /\ (inject_Z n <= max)%Q) <-> ok n) ->
    quantify min max props p = (p', Returned tt) ->
    exists cl k,
      traverse (lookup_in (toInternal p)) props = Returned cl
      /\ p' = push_state [k] (reset_state p)
      /\ clause k = cl
      /\ forall A, clause_sat A k = true <->
           ok (numLiteralsInClauseSatisfied A cl)).
  { intros min max props ok Hok H.
    destruct (quantify_meaning min max props p p' H)
      as (cl & k & Et & Ep & Ek & Hk).
    exists cl, k. repeat split; try done; intros HA.
    - apply Hok; [|by apply Hk].
      apply traverse_length in Et.
      replace (len props) with (len cl) by (unfold len; congruence).
      apply count_range.
    - apply Hk, Hok; [|done].
      apply traverse_length in Et.
      replace (len props) with (len cl) by (unfold len; congruence).
      apply count_range. }
  assert (Hall : forall props,
    all props p = (p', Returned tt) ->
    exists cl k,
      traverse (lookup_in (toInternal p)) props = Returned cl
      /\ p' = push_state [k] (reset_state p)
      /\ clause k = cl
      /\ forall A, clause_sat A k = true <->
           numLiteralsInClauseSatisfied A cl = len props).
  { intros props. unfold all. destruct (_ =? _)%nat; [done|].
    apply (Hq _ _ _ (fun n => n = len props)).
    intros n Hn. rewrite <- !Zle_Qle. lia. }
  assert (Hmost : forall max props,
    atMost max props p = (p', Returned tt) ->
    exists cl k,
      traverse (lookup_in (toInternal p)) props = Returned cl
      /\ p' = push_state [k] (reset_state p)
      /\ clause k = cl
      /\ forall A, clause_sat A k = true <->
           (inject_Z (numLiteralsInClauseSatisfied A cl) <= max)%Q).
  { intros max props. unfold atMost. destruct (negb _); [done|].
    destruct (Qle_bool _ _); [done|].
    apply (Hq _ _ _ (fun n => (inject_Z n <= max)%Q)).
    intros n Hn. split; [tauto|]. intros H. split; [|done].
    change 0%Q with (inject_Z 0). rewrite <- Zle_Qle. lia. }
  intros Hc. destruct c; try done; injection Hc as <- <-; unfold run_call.
  - apply (Hq _ _ _ (fun n => (min <= inject_Z n)%Q /\ (inject_Z n <= max)%Q)).
    tauto.
  - unfold exactly. destruct (negb _); [done|].
    destruct (_ =? _)%nat; [done|].
    apply (Hq _ _ _ (fun m => (inject_Z m == n)%Q)). intros m _. split.
    + intros [H1 H2]. by apply Qle_antisym.
    + intros H. rewrite H. split; apply Qle_refl.
  - apply Hall.
  - unfold atLeast. destruct (negb _); [done|].
    destruct (Qle_bool _ _); [done|].
    apply (Hq _ _ _ (fun n => (min <= inject_Z n)%Q)). intros n Hn.
    split; [tauto|]. intros H. split; [done|]. rewrite <- Zle_Qle. lia.
  - apply Hmost.
  - unfold unique. destruct (_ =? _)%nat; [done|].
    apply (Hq _ _ _ (fun n => n = 1)). intros n _.
    change 1%Q with (inject_Z 1). rewrite <- !Zle_Qle. lia.
  - unfold inconsistent. intros H.
    destruct (Hmost 1%Q [a; b] H) as (cl & k & Et & Ep & Ek & Hk).
    exists cl, k. repeat split; try done; intros HA.
    + apply Hk in HA. change 1%Q with (inject_Z 1) in HA.
      by rewrite <- Zle_Qle in HA.
    + apply Hk. change 1%Q with (inject_Z 1). by rewrite <- Zle_Qle.
  - apply Hall.
Qed.

(** The theorem at [atLeast(1.5, ["colored terra gray", "colored terra
    black", "!colored nimbus white"])] on the cats. *)
Lemma counting_calls_count_witness :
  cardinality
    (CallAtLeast (3 # 2)
       [ "colored terra gray"; "colored terra black";
         "!colored nimbus white" ]%string)
  = Some ([ "colored terra gray"; "colored terra black";
            "!colored nimbus white" ]%string,
          fun n => ((3 # 2) <= inject_Z n)%Q)
  /\ run_call
       (CallAtLeast (3 # 2)
          [ "colored terra gray"; "colored terra black";
            "!colored nimbus white" ]%string) cats
     = (push_state [ {| lo := 2; hi := 3; clause := [9; 10; -7] |} ]
          (reset_state cats), Returned tt)
  /\ exists cl k,
       traverse (lookup_in (toInternal cats))
         [ "colored terra gray"; "colored terra black";
           "!colored nimbus white" ]%string = Returned cl
       /\ push_state [ {| lo := 2; hi := 3; clause := [9; 10; -7] |} ]
            (reset_state cats)
          = push_state [k] (reset_state cats)
       /\ clause k = cl
       /\ forall A, clause_sat A k = true <->
            ((3 # 2) <= inject_Z (numLiteralsInClauseSatisfied A cl))%Q.
Proof.
  assert (H1 : cardinality
                 (CallAtLeast (3 # 2)
                    [ "colored terra gray"; "colored terra black";
                      "!colored nimbus white" ]%string)
               = Some ([ "colored terra gray"; "colored terra black";
                         "!colored nimbus white" ]%string,
                       fun n => ((3 # 2) <= inject_Z n)%Q))
    by reflexivity.
  assert (H2 : run_call
                 (CallAtLeast (3 # 2)
                    [ "colored terra gray"; "colored terra black";
                      "!colored nimbus white" ]%string) cats
               = (push_state [ {| lo := 2; hi := 3; clause := [9; 10; -7] |} ]
                    (reset_state cats), Returned tt))
    by (vm_compute; reflexivity).
  split; [exact H1|]. split; [exact H2|].
  exact (counting_calls_count _ _ _ cats _ H1 H2).
Defined.

Lemma lookup_lit_opp A l : l <> 0 -> lookup_lit A (- l) = negb (lookup_lit A l).
Proof.
  intros Hl. unfold lookup_lit. destruct (l <? 0) eqn:E.
  - assert (E' : (- l <? 0) = false) by lia. rewrite E'.
    by rewrite negb_involutive.
  - assert (E' : (- l <? 0) = true) by lia. rewrite E'.
    by rewrite Z.opp_involutive.
Qed.

Lemma lookups_nonzero (tI : gmap string AttrSlots) props ls :
  traverse (lookup_in tI) props = Returned ls -> Forall (fun l => l <> 0) ls.
Proof. apply traverse_Forall. apply lookup_in_nonzero. Qed.

Lemma existsb_opp A ls :
  Forall (fun l => l <> 0) ls ->
  existsb (lookup_lit A) (map Z.opp ls) = negb (forallb (lookup_lit A) ls).
Proof.
  induction 1 as [|l ls Hl _ IH]; [done|].
  cbn [map existsb forallb]. rewrite IH, lookup_lit_opp by done.
  by destruct (lookup_lit A l).
Qed.

Lemma at_least_one_sat A cl :
  clause_sat A {| clause := cl; lo := 1; hi := len cl |}
  = existsb (lookup_lit A) cl.
Proof.
  unfold clause_sat. cbn [lo hi clause].
  pose proof (count_range A cl) as Hr. pose proof (count_zero A cl) as Hz.
  destruct (existsb (lookup_lit A) cl).
  - apply andb_true_iff. rewrite !Z.leb_le. split; [|lia].
    destruct (Z.eq_dec (numLiteralsInClauseSatisfied A cl) 0) as [E|]; [|lia].
    by apply Hz in E.
  - apply andb_false_iff. left. apply Z.leb_gt.
    destruct Hz as [_ Hz]. rewrite Hz by done. lia.
Qed.

(** The clause of [implies]: the premises imply the conclusion. *)
Lemma implication_sat A ls conc :
  Forall (fun l => l <> 0) ls ->
  clause_sat A {| clause := map Z.opp ls ++ [conc]; lo := 1;
                  hi := len (map Z.opp ls ++ [conc]) |}
  = implb (forallb (lookup_lit A) ls) (lookup_lit A conc).
Proof.
  intros Hls. rewrite at_least_one_sat, existsb_app, existsb_opp by done.
  cbn [existsb]. rewrite orb_false_r.
  by destruct (forallb _ ls), (lookup_lit A conc).
Qed.

(** A clause of [iff]: the conclusion implies one premise. *)
Lemma converse_sat A prem conc :
  conc <> 0 ->
  clause_sat A {| clause := [prem; - conc]; lo := 1; hi := 2 |}
  = implb (lookup_lit A conc) (lookup_lit A prem).
Proof.
  intros Hc. change 2 with (len [prem; - conc]).
  rewrite at_least_one_sat. cbn [existsb]. rewrite lookup_lit_opp by done.
  by destruct (lookup_lit A conc), (lookup_lit A prem).
Qed.

Lemma iff_state_constraints premises conclusion p :
  constraints (iff_state premises conclusion p)
  = constraints p ++ iff_clauses premises conclusion.
Proof.
  unfold iff_state, iff_clauses. cbn [constraints push_state].
  by rewrite <- app_assoc.
Qed.

Lemma iff_sat A prems conc :
  Forall (fun l => l <> 0) prems -> conc <> 0 ->
  forallb (clause_sat A) (iff_clauses prems conc)
  = Bool.eqb (lookup_lit A conc) (forallb (lookup_lit A) prems).
Proof.
  intros Hp Hc. unfold iff_clauses. rewrite forallb_app.
  cbn [forallb]. rewrite andb_true_r.
  rewrite (implication_sat A prems conc Hp).
  assert (E : forallb (clause_sat A)
                (map (fun premise =>
                        {| clause := [premise; - conc]; lo := 1; hi := 2 |})
                     prems)
              = implb (lookup_lit A conc) (forallb (lookup_lit A) prems)).
  { clear Hp. induction prems as [|prem prems IH]; cbn [map forallb].
    - by destruct (lookup_lit A conc).
    - rewrite IH, converse_sat by done.
      by destruct (lookup_lit A conc), (lookup_lit A prem), (forallb _ prems). }
  rewrite E. by destruct (lookup_lit A conc), (forallb _ prems).
Qed.

(** X15. [implies] means implication: on propositions none of whose
    arguments is the name of an inherited property, in a state reached by
    calls on such propositions, a successful
    [implies(premises, conclusion)] clears the checkpoint and stores one
    constraint, which an assignment satisfies exactly when it makes the
    conclusion true or one of the premises false. *)
Theorem implies_means_implication premises conclusion p p' :
  clean_reachable p ->
  forallb clean_prop premises = true -> clean_prop conclusion = true ->
  implies premises conclusion p = (p', Returned tt) ->
  exists ls conc k,
    traverse (lookup_in (toInternal p)) premises = Returned ls
    /\ lookup_in (toInternal p) conclusion = Returned conc
    /\ p' = push_state [k] (reset_state p)
    /\ forall A, clause_sat A k = true <->
         (forallb (lookup_lit A) ls = true -> lookup_lit A conc = true).
Proof.
  intros _ _ _. rewrite implies_eq.
  destruct (lookup_in _ conclusion) as [conc|] eqn:Ec; [|done].
  destruct (traverse _ premises) as [ls|] eqn:Et; [|done].
  intros [= <-]. exists ls, conc. eexists. split; [done|]. split; [done|].
  split; [done|]. intros A.
  rewrite (implication_sat A ls conc (lookups_nonzero _ _ _ Et)).
  destruct (forallb _ ls), (lookup_lit A conc); simpl; split; try done.
  - intros H. by apply H.
Qed.

(** The theorem at [implies(["colored terra gray", "!colored nimbus
    white"], "colored celeste black")] on the cats. *)
Lemma implies_means_implication_witness :
  clean_reachable cats
  /\ forallb clean_prop
       [ "colored terra gray"; "!colored nimbus white" ]%string = true
  /\ clean_prop "colored celeste black" = true
  /\ implies [ "colored terra gray"; "!colored nimbus white" ]%string
    "colored celeste black" cats
  = (push_state [ {| clause := [-9; 7; 2]; lo := 1; hi := 3 |} ]
       (reset_state cats), Returned tt)
  /\ exists ls conc k,
       traverse (lookup_in (toInternal cats))
         [ "colored terra gray"; "!colored nimbus white" ]%string
       = Returned ls
       /\ lookup_in (toInternal cats) "colored celeste black" = Returned conc
       /\ push_state [ {| clause := [-9; 7; 2]; lo := 1; hi := 3 |} ]
            (reset_state cats)
          = push_state [k] (reset_state cats)
       /\ forall A, clause_sat A k = true <->
            (forallb (lookup_lit A) ls = true -> lookup_lit A conc = true).
Proof.
  assert (Hr : clean_reachable cats)
    by (unfold cats; apply clean_step; [apply clean_new | reflexivity]).
  assert (Hp : forallb clean_prop
                 [ "colored terra gray"; "!colored nimbus white" ]%string
               = true) by reflexivity.
  assert (Hc : clean_prop "colored celeste black" = true) by reflexivity.
  assert (H1 : implies [ "colored terra gray";
                         "!colored nimbus white" ]%string
                 "colored celeste black" cats
               = (push_state [ {| clause := [-9; 7; 2]; lo := 1; hi := 3 |} ]
                    (reset_state cats), Returned tt))
    by (vm_compute; reflexivity).
  split; [exact Hr|]. split; [exact Hp|]. split; [exact Hc|].
  split; [exact H1|].
  exact (implies_means_implication _ _ cats _ Hr Hp Hc H1).
Defined.

Lemma all_meaning props p p' :
  all props p = (p', Returned tt) ->
  exists cl k,
    traverse (lookup_in (toInternal p)) props = Returned cl
    /\ p' = push_state [k] (reset_state p)
    /\ forall A, clause_sat A k = forallb (lookup_lit A) cl.
Proof.
  unfold all. destruct (_ =? _)%nat; [done|]. intros H.
  destruct (quantify_meaning _ _ _ _ _ H) as (cl & k & Et & Ep & Ek & Hk).
  exists cl, k. split; [done|]. split; [done|]. intros A.
  apply Bool.eq_iff_eq_true. rewrite Hk, <- count_full.
  pose proof (traverse_length _ _ _ Et) as Hl.
  replace (len props) with (len cl) by (unfold len; congruence).
  rewrite <- !Zle_Qle. lia.
Qed.

Lemma lookup_lit_insert_other A (h : nat) v l :
  Z.abs_nat l <> h -> lookup_lit (<[h := v]> A) l = lookup_lit A l.
Proof.
  intros Hl. unfold lookup_lit, js_index.
  destruct (l <? 0) eqn:E.
  - assert (E' : (- l <? 0) = false) by lia. rewrite E'.
    by rewrite list_lookup_insert_ne by lia.
  - by rewrite list_lookup_insert_ne by lia.
Qed.

Lemma lookup_lit_insert_same A (h : nat) v :
  (h < length A)%nat ->
  lookup_lit (<[h := v]> A) (Z.of_nat h) = v.
Proof.
  intros Hh. unfold lookup_lit, js_index.
  assert (E : (Z.of_nat h <? 0) = false) by lia. rewrite E.
  rewrite Nat2Z.id. by rewrite list_lookup_insert_eq.
Qed.

Lemma forallb_insert_other A (h : nat) v ls :
  Forall (lit_in_range h) ls ->
  forallb (lookup_lit (<[h := v]> A)) ls = forallb (lookup_lit A) ls.
Proof.
  induction 1 as [|l ls Hl _ IH]; [done|]. cbn [forallb].
  rewrite IH, lookup_lit_insert_other; [done|].
  unfold lit_in_range in Hl. lia.
Qed.

(** X16. [equal] means equivalence: on propositions none of whose
    arguments is the name of an inherited property, in a state reached by
    calls on such propositions, a successful [equal(a, b)] clears the
    checkpoint and adds clauses that hold only in assignments giving the
    conjunction of [a] and the conjunction of [b] the same truth value;
    conversely every assignment that does so satisfies the added clauses
    once the hidden atom, if [equal] minted one, is set accordingly. *)
Theorem equal_means_equivalence a b p p' :
  clean_reachable p ->
  forallb clean_prop a = true -> forallb clean_prop b = true ->
  equal a b p = (p', Returned tt) ->
  exists la lb added,
    traverse (lookup_in (toInternal p)) a = Returned la
    /\ traverse (lookup_in (toInternal p)) b = Returned lb
    /\ nonRuleConstraints p' = None
    /\ constraints p' = constraints (reset_state p) ++ added
    /\ (forall A, forallb (clause_sat A) added = true ->
          forallb (lookup_lit A) la = forallb (lookup_lit A) lb)
    /\ (forall A,
          (length (fromInternal p') <= length A)%nat ->
          forallb (lookup_lit A) la = forallb (lookup_lit A) lb ->
          exists A',
            length A' = length A
            /\ (forall i, (i < length (fromInternal p))%nat ->
                          A' !! i = A !! i)
            /\ forallb (clause_sat A') added = true).
Proof.
  intros Hr%clean_reachable_reachable _ _.
  pose proof (wf_reachable p Hr) as Hwf.
  assert (Hone : forall c0 xs,
    equal_one c0 xs p = (p', Returned tt) ->
    exists l0 ls,
      lookup_in (toInternal p) c0 = Returned l0
      /\ traverse (lookup_in (toInternal p)) xs = Returned ls
      /\ nonRuleConstraints p' = None
      /\ constraints p' = constraints (reset_state p) ++ iff_clauses ls l0
      /\ forall A, forallb (clause_sat A) (iff_clauses ls l0)
                   = Bool.eqb (lookup_lit A l0) (forallb (lookup_lit A) ls)).
  { intros c0 xs. unfold equal_one.
    destruct (traverse _ xs) as [ls|] eqn:Et; [|done].
    destruct (lookup_in _ c0) as [l0|] eqn:Ec; [|done].
    intros [= <-]. exists l0, ls. split; [done|]. split; [done|].
    split; [done|]. split; [apply iff_state_constraints|].
    intros A. apply iff_sat.
    - by eapply lookups_nonzero.
    - by eapply lookup_in_nonzero. }
  destruct a as [|a1 [|a2 a]], b as [|b1 [|b2 b]]; try done.
  - intros H. destruct (all_meaning _ _ _ H) as (cl & k & Et & -> & Hk).
    exists [], cl, [k]. split; [done|]. split; [done|]. split; [done|].
    split; [done|]. cbn [forallb]. split.
    + intros A. rewrite andb_true_r, Hk. by intros ->.
    + intros A _ HA. exists A. split; [done|]. split; [done|].
      by rewrite andb_true_r, Hk.
  - intros H. destruct (all_meaning _ _ _ H) as (cl & k & Et & -> & Hk).
    exists [], cl, [k]. split; [done|]. split; [done|]. split; [done|].
    split; [done|]. cbn [forallb]. split.
    + intros A. rewrite andb_true_r, Hk. by intros ->.
    + intros A _ HA. exists A. split; [done|]. split; [done|].
      by rewrite andb_true_r, Hk.
  - intros H. change (equal [a1] [] p) with (all [a1] p) in H.
    destruct (all_meaning _ _ _ H) as (cl & k & Et & -> & Hk).
    exists cl, [], [k]. split; [done|]. split; [done|]. split; [done|].
    split; [done|]. cbn [forallb]. split.
    + intros A. rewrite andb_true_r, Hk. by intros ->.
    + intros A _ HA. exists A. split; [done|]. split; [done|].
      by rewrite andb_true_r, Hk.
  - rewrite equal_11_eq.
    destruct (lookup_in _ a1) as [la|] eqn:Ea; [|done].
    destruct (lookup_in _ b1) as [lb|] eqn:Eb; [|done].
    intros [= <-]. exists [la], [lb]. eexists.
    split; [by cbn [traverse]; rewrite Ea|].
    split; [by cbn [traverse]; rewrite Eb|].
    split; [done|]. split; [done|].
    pose proof (lookup_in_nonzero _ _ _ Ea) as Hla.
    pose proof (lookup_in_nonzero _ _ _ Eb) as Hlb.
    assert (E : forall A,
      forallb (clause_sat A)
        [ {| lo := 1; hi := 2; clause := [la; - lb] |};
          {| lo := 1; hi := 2; clause := [- la; lb] |} ]
      = Bool.eqb (lookup_lit A la) (lookup_lit A lb)).
    { intros A. cbn [forallb]. rewrite converse_sat by done.
      change 2 with (len [- la; lb]). rewrite at_least_one_sat.
      cbn [existsb]. rewrite lookup_lit_opp by done.
      by destruct (lookup_lit A la), (lookup_lit A lb). }
    cbn [forallb] in *. split.
    + intros A HA. specialize (E A). rewrite HA in E.
      symmetry in E. apply Bool.eqb_prop in E. by rewrite E.
    + intros A _ HA. exists A. split; [done|]. split; [done|].
      rewrite E. rewrite !andb_true_r in HA. rewrite HA.
      apply Bool.eqb_reflx.
  - rewrite equal_1n_eq. intros H.
    destruct (Hone _ _ H) as (l0 & ls & E0 & Es & Hn & Hc & Hsat).
    exists [l0], ls, (iff_clauses ls l0).
    split; [by cbn [traverse]; rewrite E0|]. split; [done|].
    split; [done|]. split; [done|]. cbn [forallb]. split.
    + intros A HA. rewrite Hsat in HA. apply Bool.eqb_prop in HA.
      by rewrite HA, andb_true_r.
    + intros A _ HA. exists A. split; [done|]. split; [done|].
      rewrite Hsat. rewrite andb_true_r in HA. rewrite HA.
      apply Bool.eqb_reflx.
  - intros H. change (equal (a1 :: a2 :: a) [] p)
      with (all (a1 :: a2 :: a) p) in H.
    destruct (all_meaning _ _ _ H) as (cl & k & Et & -> & Hk).
    exists cl, [], [k]. split; [done|]. split; [done|]. split; [done|].
    split; [done|]. cbn [forallb]. split.
    + intros A. rewrite andb_true_r, Hk. by intros ->.
    + intros A _ HA. exists A. split; [done|]. split; [done|].
      by rewrite andb_true_r, Hk.
  - rewrite equal_n1_eq. intros H.
    destruct (Hone _ _ H) as (l0 & ls & E0 & Es & Hn & Hc & Hsat).
    exists ls, [l0], (iff_clauses ls l0). split; [done|].
    split; [by cbn [traverse]; rewrite E0|].
    split; [done|]. split; [done|]. cbn [forallb]. split.
    + intros A HA. rewrite Hsat in HA. apply Bool.eqb_prop in HA.
      by rewrite HA, andb_true_r.
    + intros A _ HA. exists A. split; [done|]. split; [done|].
      rewrite Hsat. rewrite andb_true_r in HA. rewrite HA.
      apply Bool.eqb_reflx.
  - rewrite equal_nn_eq. cbv zeta.
    destruct (traverse _ (a1 :: a2 :: a)) as [ca|] eqn:Ea; [|done].
    destruct (traverse _ (b1 :: b2 :: b)) as [cb|] eqn:Eb; [|done].
    intros [= <-]. set (h := length (fromInternal p)).
    exists ca, cb, (iff_clauses ca (Z.of_nat h) ++ iff_clauses cb (Z.of_nat h)).
    split; [done|]. split; [done|]. split; [done|].
    split.
    { rewrite !iff_state_constraints. by rewrite <- app_assoc. }
    pose proof (wf_nonempty p Hwf) as Hh. fold h in Hh.
    assert (Hsat : forall A,
      forallb (clause_sat A)
        (iff_clauses ca (Z.of_nat h) ++ iff_clauses cb (Z.of_nat h))
      = Bool.eqb (lookup_lit A (Z.of_nat h)) (forallb (lookup_lit A) ca)
        && Bool.eqb (lookup_lit A (Z.of_nat h)) (forallb (lookup_lit A) cb)).
    { intros A. rewrite forallb_app.
      rewrite !iff_sat; try done; try lia; by eapply lookups_nonzero. }
    split.
    + intros A HA. rewrite Hsat in HA.
      apply andb_true_iff in HA as [H1 H2].
      apply Bool.eqb_prop in H1, H2. congruence.
    + intros A HlenA HA.
      assert (HhA : (h < length A)%nat).
      { revert HlenA. cbn [fromInternal iff_state push_state generate_state
                             reset_state].
        rewrite length_app. simpl. fold h. lia. }
      exists (<[h := forallb (lookup_lit A) ca]> A).
      split; [by rewrite length_insert|]. split.
      { intros i Hi. fold h in Hi. rewrite list_lookup_insert_ne; [done|lia]. }
      rewrite Hsat, lookup_lit_insert_same by done.
      rewrite !forallb_insert_other
        by (by eapply (lookups_in_range p); [done|]).
      rewrite <- HA. by rewrite Bool.eqb_reflx.
Qed.

(** The theorem at two conjunctions of two propositions each, on the
    cats. *)
Lemma equal_means_equivalence_witness :
  clean_reachable cats
  /\ forallb clean_prop
       [ "colored terra gray"; "colored nimbus gray" ]%string = true
  /\ forallb clean_prop
       [ "colored celeste gray"; "!colored celeste white" ]%string = true
  /\ equal [ "colored terra gray"; "colored nimbus gray" ]%string
       [ "colored celeste gray"; "!colored celeste white" ]%string cats
     = (iff_state [1; -3] 13 (iff_state [9; 5] 13
          (generate_state "" (reset_state cats))), Returned tt)
  /\ exists la lb added,
       traverse (lookup_in (toInternal cats))
         [ "colored terra gray"; "colored nimbus gray" ]%string = Returned la
       /\ traverse (lookup_in (toInternal cats))
            [ "colored celeste gray"; "!colored celeste white" ]%string
          = Returned lb
       /\ nonRuleConstraints
            (iff_state [1; -3] 13 (iff_state [9; 5] 13
               (generate_state "" (reset_state cats)))) = None
       /\ constraints
            (iff_state [1; -3] 13 (iff_state [9; 5] 13
               (generate_state "" (reset_state cats))))
          = constraints (reset_state cats) ++ added
       /\ (forall A, forallb (clause_sat A) added = true ->
             forallb (lookup_lit A) la = forallb (lookup_lit A) lb)
       /\ (forall A,
             (length (fromInternal
                        (iff_state [1; -3]%Z 13%Z (iff_state [9; 5]%Z 13%Z
                           (generate_state "" (reset_state cats)))))
              <= length A)%nat ->
             forallb (lookup_lit A) la = forallb (lookup_lit A) lb ->
             exists A',
               length A' = length A
               /\ (forall i, (i < length (fromInternal cats))%nat ->
                             A' !! i = A !! i)
               /\ forallb (clause_sat A') added = true).
Proof.
  assert (H1 : clean_reachable cats)
    by (unfold cats; apply clean_step; [apply clean_new | reflexivity]).
  assert (Ha : forallb clean_prop
                 [ "colored terra gray"; "colored nimbus gray" ]%string
               = true) by reflexivity.
  assert (Hb : forallb clean_prop
                 [ "colored celeste gray"; "!colored celeste white" ]%string
               = true) by reflexivity.
  assert (H2 : equal [ "colored terra gray"; "colored nimbus gray" ]%string
                 [ "colored celeste gray"; "!colored celeste white" ]%string
                 cats
               = (iff_state [1; -3] 13 (iff_state [9; 5] 13
                    (generate_state "" (reset_state cats))), Returned tt))
    by (vm_compute; reflexivity).
  split; [exact H1|]. split; [exact Ha|]. split; [exact Hb|].
  split; [exact H2|].
  exact (equal_means_equivalence _ _ cats _ H1 Ha Hb H2).
Defined.

(** X17. What [rule] records: on propositions none of whose arguments is
    the name of an inherited property, in a state reached by calls on such
    propositions, a successful [rule(conclusion, premises)] clears the
    checkpoint, adds clauses and records one justification for the
    conclusion; in every assignment that satisfies the added clauses
    (and makes literal [0] true, as the solver's do) the justification is
    true exactly when all the premises are, and then the conclusion is
    true as well. *)
Theorem rule_records_its_body conclusion premises p p' :
  clean_reachable p ->
  clean_prop conclusion = true -> forallb clean_prop premises = true ->
  rule conclusion premises p = (p', Returned tt) ->
  exists conc ls j added,
    lookup_in (toInternal p) conclusion = Returned conc /\ 0 < conc
    /\ traverse (lookup_in (toInternal p)) premises = Returned ls
    /\ nonRuleConstraints p' = None
    /\ constraints p' = constraints (reset_state p) ++ added
    /\ rules p'
       = <[Z.to_nat conc := default [] (rules p !! Z.to_nat conc) ++ [j]]>
           (rules p)
    /\ forall A,
         A !! 0%nat = Some true ->
         forallb (clause_sat A) added = true ->
         lookup_lit A j = forallb (lookup_lit A) ls
         /\ (lookup_lit A j = true -> lookup_lit A conc = true).
Proof.
  intros Hr%clean_reachable_reachable _ _.
  pose proof (wf_reachable p Hr) as Hwf. rewrite rule_eq.
  destruct (lookup_in _ conclusion) as [conc|] eqn:Ec; [|done].
  destruct (traverse _ premises) as [ls|] eqn:Et; [|done].
  destruct (conc <? 0) eqn:Eneg; [done|]. intros [= <-].
  pose proof (lookup_in_nonzero _ _ _ Ec) as Hc0.
  pose proof (lookups_nonzero _ _ _ Et) as Hls.
  assert (Himp : forall A,
    clause_sat A {| clause := map Z.opp ls ++ [conc]; lo := 1;
                    hi := len (map Z.opp ls ++ [conc]) |} = true ->
    forallb (lookup_lit A) ls = true -> lookup_lit A conc = true).
  { intros A. rewrite implication_sat by done. intros H1 H2.
    rewrite H2 in H1. by destruct (lookup_lit A conc). }
  unfold rule_tail. destruct ls as [|prem [|prem2 ls]].
  - exists conc, [], 0. eexists. split; [done|]. split; [lia|].
    split; [done|]. split; [done|]. split; [done|]. split; [done|].
    intros A H0. cbn [forallb]. rewrite andb_true_r. intros Hk.
    assert (E : lookup_lit A 0 = true).
    { change (lookup_lit A 0) with (default false (A !! 0%nat)).
      by rewrite H0. }
    split; [done|]. intros _. by apply Himp.
  - exists conc, [prem], prem. eexists. split; [done|]. split; [lia|].
    split; [done|]. split; [done|]. split; [done|]. split; [done|].
    intros A H0. cbn [forallb]. rewrite !andb_true_r. intros Hk.
    split; [done|]. intros Hj. apply Himp; [done|].
    cbn [forallb]. by rewrite Hj.
  - set (prems := prem :: prem2 :: ls) in *.
    set (h := Z.of_nat (length (fromInternal p))).
    exists conc, prems, h. eexists. split; [done|]. split; [lia|].
    split; [done|]. split; [done|]. split.
    { cbn [constraints push_rule_state]. rewrite iff_state_constraints.
      cbn [constraints generate_state push_state fromInternal reset_state].
      rewrite <- app_assoc. reflexivity. }
    split; [done|].
    intros A H0. cbn [app forallb]. intros [Hk Hiff]%andb_true_iff.
    rewrite iff_sat in Hiff; [|done|].
    + apply Bool.eqb_prop in Hiff. split; [done|].
      intros Hj. apply Himp; [done|]. by rewrite <- Hiff.
    + pose proof (wf_nonempty p Hwf). subst h. lia.
Qed.

(** The theorem at [rule("colored celeste black", ["colored terra gray",
    "!colored nimbus white"])] on the cats. *)
Lemma rule_records_its_body_witness :
  clean_reachable cats
  /\ clean_prop "colored celeste black" = true
  /\ forallb clean_prop
       [ "colored terra gray"; "!colored nimbus white" ]%string = true
  /\ rule "colored celeste black"
       [ "colored terra gray"; "!colored nimbus white" ]%string cats
     = (rule_tail 2 [9; -7]
          (push_state [ {| clause := [-9; 7; 2]; lo := 1; hi := 3 |} ]
             (reset_state cats)), Returned tt)
  /\ exists conc ls j added,
       lookup_in (toInternal cats) "colored celeste black" = Returned conc
       /\ 0 < conc
       /\ traverse (lookup_in (toInternal cats))
            [ "colored terra gray"; "!colored nimbus white" ]%string
          = Returned ls
       /\ nonRuleConstraints
            (rule_tail 2 [9; -7]
               (push_state [ {| clause := [-9; 7; 2]; lo := 1; hi := 3 |} ]
                  (reset_state cats))) = None
       /\ constraints
            (rule_tail 2 [9; -7]
               (push_state [ {| clause := [-9; 7; 2]; lo := 1; hi := 3 |} ]
                  (reset_state cats)))
          = constraints (reset_state cats) ++ added
       /\ rules
            (rule_tail 2 [9; -7]
               (push_state [ {| clause := [-9; 7; 2]; lo := 1; hi := 3 |} ]
                  (reset_state cats)))
          = <[Z.to_nat conc :=
                default [] (rules cats !! Z.to_nat conc) ++ [j]]> (rules cats)
       /\ forall A,
            A !! 0%nat = Some true ->
            forallb (clause_sat A) added = true ->
            lookup_lit A j = forallb (lookup_lit A) ls
            /\ (lookup_lit A j = true -> lookup_lit A conc = true).
Proof.
  assert (H1 : clean_reachable cats)
    by (unfold cats; apply clean_step; [apply clean_new | reflexivity]).
  assert (Hc : clean_prop "colored celeste black" = true) by reflexivity.
  assert (Hp : forallb clean_prop
                 [ "colored terra gray"; "!colored nimbus white" ]%string
               = true) by reflexivity.
  assert (H2 : rule "colored celeste black"
                 [ "colored terra gray"; "!colored nimbus white" ]%string cats
               = (rule_tail 2 [9; -7]
                    (push_state
                       [ {| clause := [-9; 7; 2]; lo := 1; hi := 3 |} ]
                       (reset_state cats)), Returned tt))
    by (vm_compute; reflexivity).
  split; [exact H1|]. split; [exact Hc|]. split; [exact Hp|].
  split; [exact H2|].
  exact (rule_records_its_body _ _ cats _ H1 Hc Hp H2).
Defined.

(** ** The selection loop of [satisfies] *)

Lemma pick_best_upto (sm : list Z) (k i : nat) :
  i ∈ foldl (fun best i =>
               let s := default 0 (sm !! i) in
               let best := if s =? 0 then best ++ [i] else best in
               if s >? 0 then [i] else best)
            [] (seq 1 k)
  <-> (1 <= i <= k)%nat /\ 0 <= default 0 (sm !! i)
      /\ forall j, (i < j <= k)%nat -> default 0 (sm !! j) <= 0.
Proof.
  induction k as [|k IH].
  - simpl. split; [by intros ?%elem_of_nil|lia].
  - rewrite seq_S, foldl_app. cbn [foldl]. cbv zeta.
    change (1 + k)%nat with (S k).
    destruct (default 0 (sm !! S k) >? 0) eqn:Epos.
    + rewrite list_elem_of_singleton. split.
      * intros ->. split; [lia|]. split; [lia|]. intros j Hj. lia.
      * intros (Hi & Hs & Hlater).
        destruct (decide (i = S k)) as [|Hne]; [done|].
        specialize (Hlater (S k)). lia.
    + destruct (default 0 (sm !! S k) =? 0) eqn:Ezero.
      * rewrite elem_of_app, list_elem_of_singleton, IH. split.
        -- intros [(Hi & Hs & Hlater)| ->].
           ++ split; [lia|]. split; [done|]. intros j Hj.
              destruct (decide (j = S k)) as [->|]; [lia|].
              apply Hlater. lia.
           ++ split; [lia|]. split; [lia|]. intros j Hj. lia.
        -- intros (Hi & Hs & Hlater).
           destruct (decide (i = S k)) as [|Hne]; [by right|]. left.
           split; [lia|]. split; [done|]. intros j Hj. apply Hlater. lia.
      * rewrite IH. split.
        -- intros (Hi & Hs & Hlater). split; [lia|]. split; [done|].
           intros j Hj. destruct (decide (j = S k)) as [->|]; [lia|].
           apply Hlater. lia.
        -- intros (Hi & Hs & Hlater).
           destruct (decide (i = S k)) as [->|Hne]; [lia|].
           split; [lia|]. split; [done|]. intros j Hj. apply Hlater. lia.
Qed.

(** X18. Which atoms [satisfies] may suggest: the candidates are the atoms
    [i >= 1] whose score is not negative and after which no atom has a
    positive score.  So a positive score wins over the zeros before it and
    over every earlier positive score, whatever the scores are, and atoms
    with a negative score are never suggested. *)
Theorem pick_best_candidates (sm : list Z) (i : nat) :
  i ∈ pick_best sm
  <-> (1 <= i < length sm)%nat /\ 0 <= default 0 (sm !! i)
      /\ forall j, (i < j < length sm)%nat -> default 0 (sm !! j) <= 0.
Proof.
  unfold pick_best. cbv zeta. rewrite pick_best_upto. split.
  - intros (Hi & Hs & Hlater). split; [lia|]. split; [done|].
    intros j Hj. apply Hlater. lia.
  - intros (Hi & Hs & Hlater). split; [lia|]. split; [done|].
    intros j Hj. apply Hlater. lia.
Qed.

(** X19. [satisfies] returns [null] exactly when the assignment satisfies
    every constraint; otherwise [clausesSatisfied] is the number of
    satisfied constraints, which is less than their number, the suggestion
    is one of the candidates or [undefined], and one random number was
    drawn. *)
Theorem satisfies_null_iff_model rand cs a k :
  (fst (satisfies rand cs a k) = None
   <-> forallb (clause_sat a) cs = true)
  /\ forall r,
       fst (satisfies rand cs a k) = Some r ->
       clausesSatisfied r = len (filter (fun c => clause_sat a c = true) cs)
       /\ 0 <= clausesSatisfied r < len cs
       /\ (forall i, suggestion r = Some i ->
             i ∈ pick_best (snd (score cs a)))
       /\ snd (satisfies rand cs a k) = S k.
Proof.
  unfold satisfies.
  destruct (score cs a) as [n sm] eqn:Es.
  assert (Hn : n = len (filter (fun c => clause_sat a c = true) cs)).
  { pose proof (score_fold a cs 0 (map (fun _ => 0) a)) as [H _].
    unfold score in Es. rewrite Es in H. simpl in H. lia. }
  assert (Hle : 0 <= n <= len cs).
  { rewrite Hn. unfold len.
    pose proof (length_filter (fun c => clause_sat a c = true) cs). lia. }
  assert (Hall : n = len cs <-> forallb (clause_sat a) cs = true).
  { split.
    - intros E. apply score_all_sat. by rewrite Es.
    - intros H. rewrite Hn. unfold len. f_equal. f_equal.
      rewrite forallb_forall in H. clear -H.
      induction cs as [|c cs IH]; [done|].
      rewrite filter_cons. rewrite decide_True by (apply H; by left).
      simpl. f_equal. apply IH. intros x Hx. apply H. by right. }
  destruct (n =? len cs) eqn:E.
  - split; [split; [intros _; apply Hall; lia|done]|done].
  - split.
    + split; [done|]. intros H. apply Hall in H. lia.
    + unfold rbind, random, rret. cbn [fst snd]. intros r [= <-].
      cbn [clausesSatisfied suggestion]. split; [done|]. split; [lia|].
      split; [|done]. intros i Hi. by apply js_index_elem in Hi.
Qed.

(** ** [trueAttributes] *)

Lemma string_leb_trans (a b c : string) :
  String.leb a b = true -> String.leb b c = true -> String.leb a c = true.
Proof.
  unfold String.leb. revert b c.
  induction a as [|x a IH]; intros [|y b] [|z c]; try done.
  cbn [String.compare]. unfold Ascii.compare.
  destruct (N.compare_spec (N_of_ascii x) (N_of_ascii y)) as [Exy|Hxy|Hxy];
    [|intros _|done].
  - rewrite Exy.
    destruct (N.compare_spec (N_of_ascii y) (N_of_ascii z)); try done.
    apply IH.
  - destruct (N.compare_spec (N_of_ascii y) (N_of_ascii z)) as [Eyz|Hyz|Hyz];
      [| |done]; intros _.
    + rewrite <- Eyz. by rewrite (proj2 (N.compare_lt_iff _ _) Hxy).
    + assert (H : (N_of_ascii x < N_of_ascii z)%N) by lia.
      by rewrite (proj2 (N.compare_lt_iff _ _) H).
Qed.

Lemma insert_sorted_perm x l : insert_sorted x l ≡ₚ x :: l.
Proof.
  induction l as [|y l IH]; [done|]. cbn [insert_sorted].
  destruct (String.leb x y); [done|]. rewrite IH. apply Permutation_swap.
Qed.

Lemma sort_strings_perm l : sort_strings l ≡ₚ l.
Proof.
  induction l as [|x l IH]; [done|]. cbn [sort_strings foldr].
  fold (sort_strings l). by rewrite insert_sorted_perm, IH.
Qed.

Lemma insert_sorted_sorted x l :
  StronglySorted (fun a b => String.leb a b = true) l ->
  StronglySorted (fun a b => String.leb a b = true) (insert_sorted x l).
Proof.
  induction 1 as [|y l Hl IH Hy]; cbn [insert_sorted].
  - by repeat constructor.
  - destruct (String.leb x y) eqn:E.
    + constructor; [by constructor|]. constructor; [done|].
      eapply Forall_impl; [exact Hy|]. intros z Hz. cbv beta in *.
      by eapply string_leb_trans.
    + constructor; [done|].
      assert (Hyx : String.leb y x = true)
        by (by destruct (String.leb_total x y); [congruence|]).
      rewrite insert_sorted_perm. by constructor.
Qed.

Lemma sort_strings_sorted l :
  StronglySorted (fun a b => String.leb a b = true) (sort_strings l).
Proof.
  induction l as [|x l IH]; [constructor|]. cbn [sort_strings foldr].
  by apply insert_sorted_sorted.
Qed.

Lemma true_indices (A : list bool) i :
  i ∈ filter (fun i => (0 < i)%nat)
        (omap (fun '(i, val) => if val : bool then Some i else None)
           (imap (fun i val => (i, val)) A))
  <-> (1 <= i)%nat /\ A !! i = Some true.
Proof.
  rewrite list_elem_of_filter, list_elem_of_omap. split.
  - intros [Hi ([j b] & Hjb & Hb)]. split; [lia|].
    apply elem_of_lookup_imap in Hjb as (j' & b' & [= -> ->] & Hl).
    destruct b'; [|done]. by injection Hb as ->.
  - intros [Hi Hl]. split; [lia|]. exists (i, true). split; [|done].
    apply elem_of_lookup_imap. by exists i, true.
Qed.

Lemma trueAttributes_spec s now name :
  name ∈ trueAttributes s now
  <-> name <> ""%string
      /\ exists i, (1 <= i)%nat /\ satisfyingAssignment s !! i = Some true
                   /\ fromInternal now !! i = Some name.
Proof.
  unfold trueAttributes. rewrite sort_strings_perm.
  rewrite list_elem_of_filter, list_elem_of_omap. split.
  - intros [Hne (i & Hi & Hn)]. split; [done|]. exists i.
    apply true_indices in Hi as [H1 H2]. done.
  - intros [Hne (i & H1 & H2 & H3)]. split; [done|]. exists i.
    split; [|done]. by apply true_indices.
Qed.

Lemma trueAttributes_stable s p now :
  (length (satisfyingAssignment s) <= length (fromInternal p))%nat ->
  (exists names, fromInternal now = fromInternal p ++ names) ->
  trueAttributes s now = trueAttributes s p.
Proof.
  intros Hl [names E]. unfold trueAttributes. f_equal. f_equal.
  apply list_omap_ext, Forall2_same_length_lookup_2; [done|].
  intros i x y Hx Hy. assert (x = y) as <- by congruence.
  apply list_elem_of_lookup_2 in Hx. apply true_indices in Hx as [_ Hx].
  apply lookup_lt_Some in Hx.
  rewrite E. rewrite lookup_app_l by lia. done.
Qed.

Lemma lookup_true_listed s p' now attr :
  reachable now ->
  (exists names, fromInternal now = fromInternal p' ++ names) ->
  (length (satisfyingAssignment s) <= length (fromInternal p'))%nat ->
  Solution_lookup s now attr = Returned true ->
  attr ∈ trueAttributes s p'.
Proof.
  intros Hnow Hext Hl. unfold Solution_lookup.
  destruct (lookupAttributeInMap attr _) as [id|] eqn:E; [|done].
  destruct (_ <=? _)%nat eqn:Eid; [done|]. apply Nat.leb_gt in Eid.
  destruct (satisfyingAssignment s !! id) as [b|] eqn:Eb; [|done].
  simpl. intros [= ->].
  rewrite <- (trueAttributes_stable s p' now Hl Hext).
  apply trueAttributes_spec. split.
  - intros ->. by apply lookup_empty_name in E.
  - exists id. split; [|split; [done|]].
    + pose proof (wf_registry _ (wf_reachable _ Hnow) attr id E). lia.
    + by apply names_agree_reachable.
Qed.

(** X20. [trueAttributes] of a solution of a problem built by calls that
    name no inherited property: it is sorted, it does not depend on what
    such calls the client made on the [Problem] between [solve()] and the
    first read, it lists exactly the names other than the empty one of the
    atoms [i >= 1] assigned [true], and it contains every attribute
    without an argument that is an inherited name that [lookup] reports
    [true]. *)
Theorem trueAttributes_of_a_solution rand p p' s calls :
  clean_reachable p -> forallb clean_call calls = true ->
  valid_rand rand -> solve rand p = (p', Returned s) ->
  trueAttributes s (after_all calls p') = trueAttributes s p'
  /\ StronglySorted (fun a b => String.leb a b = true) (trueAttributes s p')
  /\ (forall name,
        name ∈ trueAttributes s p'
        <-> name <> ""%string
            /\ exists i, (1 <= i)%nat
                 /\ satisfyingAssignment s !! i = Some true
                 /\ fromInternal p' !! i = Some name)
  /\ forall attr,
       clean_attr attr = true ->
       Solution_lookup s (after_all calls p') attr = Returned true ->
       attr ∈ trueAttributes s p'.
Proof.
  intros Hreach%clean_reachable_reachable _ Hrand Hs.
  destruct (solve_model rand p p' s Hreach Hrand Hs)
    as (Ep & Hr' & Hl & H0 & _).
  assert (Hstable : trueAttributes s (after_all calls p')
                    = trueAttributes s p').
  { apply trueAttributes_stable; [lia|].
    apply (ext_names _ _ (extends_after_all calls p')). }
  split; [done|]. split; [apply sort_strings_sorted|].
  split; [apply trueAttributes_spec|].
  intros attr _. apply lookup_true_listed; [| |lia].
  - by apply reachable_after_all.
  - apply (ext_names _ _ (extends_after_all calls p')).
Qed.

(** The theorem at the model of the negative loop in which [p] is true,
    read after a declaration. *)
Lemma trueAttributes_of_a_solution_witness :
  clean_reachable negloop
  /\ forallb clean_call [CallAttribute "r" []] = true
  /\ valid_rand (rand_const 0)
  /\ solve (rand_const 0) negloop
     = (complete_state negloop, Returned (mkSolution [true; true; false]))
  /\ trueAttributes (mkSolution [true; true; false])
       (after_all [CallAttribute "r" []] (complete_state negloop))
     = trueAttributes (mkSolution [true; true; false])
         (complete_state negloop)
  /\ StronglySorted (fun a b => String.leb a b = true)
       (trueAttributes (mkSolution [true; true; false])
          (complete_state negloop))
  /\ (forall name,
        name ∈ trueAttributes (mkSolution [true; true; false])
                 (complete_state negloop)
        <-> name <> ""%string
            /\ exists i, (1 <= i)%nat
                 /\ satisfyingAssignment (mkSolution [true; true; false]) !! i
                    = Some true
                 /\ fromInternal (complete_state negloop) !! i = Some name)
  /\ forall attr,
       clean_attr attr = true ->
       Solution_lookup (mkSolution [true; true; false])
         (after_all [CallAttribute "r" []] (complete_state negloop)) attr
       = Returned true ->
       attr ∈ trueAttributes (mkSolution [true; true; false])
                (complete_state negloop).
Proof.
  assert (Hr : clean_reachable negloop)
    by (apply (clean_reachable_after_all negloop_calls new_Problem);
        [apply clean_new | reflexivity]).
  assert (Hv : valid_rand (rand_const 0)) by (by apply valid_rand_const).
  assert (Hs : solve (rand_const 0) negloop
               = (complete_state negloop,
                  Returned (mkSolution [true; true; false])))
    by (vm_compute; reflexivity).
  assert (Hc : forallb clean_call [CallAttribute "r" []] = true)
    by reflexivity.
  split; [exact Hr|]. split; [exact Hc|]. split; [exact Hv|].
  split; [exact Hs|].
  exact (trueAttributes_of_a_solution (rand_const 0) negloop
           (complete_state negloop) (mkSolution [true; true; false])
           [CallAttribute "r" []] Hr Hc Hv Hs).
Defined.

(** ** Constraints are kept *)

Lemma reset_kept_after c p :
  exists added,
    constraints (reset_state (after c p))
    = constraints (reset_state p) ++ added.
Proof.
  destruct (adds_constraint c) eqn:Ec.
  - destruct (call_resets_or_keeps c p Ec) as [->|[En [added E]]].
    + exists []. by rewrite app_nil_r.
    + exists added. cbn [constraints reset_state] in *. by rewrite En, E.
  - exists []. rewrite app_nil_r. destruct c; try done.
    + unfold after, run_call.
      destruct (attribute_spec name args p)
        as [[_ ->]|(p1 & slots & -> & G & _)]; [done|].
      destruct G as (_ & Ec' & _ & En & _).
      cbn [fst constraints reset_state nonRuleConstraints set_slots_state].
      by rewrite Ec', En.
    + rewrite after_solve. unfold complete_state.
      destruct (nonRuleConstraints p) eqn:En; [done|].
      cbn [constraints reset_state nonRuleConstraints]. rewrite En.
      by rewrite take_app_length.
Qed.

Lemma reset_kept_after_all calls : forall p,
  exists added,
    constraints (reset_state (after_all calls p))
    = constraints (reset_state p) ++ added.
Proof.
  induction calls as [|c calls IH]; intros p.
  - exists []. by rewrite app_nil_r.
  - cbn [after_all foldl]. destruct (IH (after c p)) as [added2 E2].
    destruct (reset_kept_after c p) as [added1 E1].
    exists (added1 ++ added2). unfold after_all in E2.
    by rewrite E2, E1, app_assoc.
Qed.

Lemma reset_subset p c : c ∈ constraints (reset_state p) -> c ∈ constraints p.
Proof.
  cbn [constraints reset_state]. destruct (nonRuleConstraints p); [|done].
  apply subseteq_take.
Qed.

(** X21. Constraints are never forgotten: as long as the calls made name
    no inherited property, what a successful constraint-adding call leaves
    in the store stays there, in the same order, through every later call,
    failed ones and [solve()] included (only completion clauses are ever
    dropped), and every later solution satisfies it. *)
Theorem constraints_are_never_forgotten c p q calls rand p' s :
  clean_reachable p -> clean_call c = true ->
  forallb clean_call calls = true ->
  adds_constraint c = true ->
  run_call c p = (q, Returned tt) ->
  valid_rand rand -> solve rand (after_all calls q) = (p', Returned s) ->
  (exists later, constraints (reset_state p') = constraints q ++ later)
  /\ forall k, k ∈ constraints q ->
       k ∈ constraints p'
       /\ lo k <= true_literals (satisfyingAssignment s) (clause k) <= hi k.
Proof.
  intros Hr%clean_reachable_reachable _ _ Hc Hq Hrand Hs.
  assert (Hrq : reachable q).
  { replace q with (after c p) by (unfold after; by rewrite Hq).
    by constructor. }
  destruct (solve_model rand _ p' s (reachable_after_all calls q Hrq)
              Hrand Hs) as (Ep & _ & _ & _ & Hall).
  destruct (truncates_call c Hc p q Hq) as (Hn & _ & _).
  assert (Hq' : constraints (reset_state q) = constraints q)
    by (cbn [constraints reset_state]; by rewrite Hn).
  assert (Hkept : exists later,
    constraints (reset_state p') = constraints q ++ later).
  { destruct (reset_kept_after_all (calls ++ [CallSolve rand]) q)
      as [later E].
    exists later. rewrite <- Hq', <- E. unfold after_all.
    rewrite foldl_app. cbn [foldl]. rewrite after_solve. by rewrite Ep. }
  split; [done|]. intros k Hk.
  assert (Hk' : k ∈ constraints p').
  { apply reset_subset. destruct Hkept as [later ->].
    apply elem_of_app. by left. }
  split; [done|by apply Hall].
Qed.

(** The theorem at [assert("a")], followed by a [solve()], a declaration
    and a failing [equal] before the final [solve()]. *)
Lemma constraints_are_never_forgotten_witness :
  clean_reachable (after_all [CallAttribute "a" []; CallAttribute "b" []]
                     new_Problem)
  /\ clean_call (CallAssert "a") = true
  /\ forallb clean_call
       [ CallSolve (rand_const 0); CallAttribute "c" [];
         CallEqual ["a"; "b"]%string ["b"; "nope"]%string ] = true
  /\ adds_constraint (CallAssert "a") = true
  /\ run_call (CallAssert "a")
       (after_all [CallAttribute "a" []; CallAttribute "b" []] new_Problem)
     = (stale_before, Returned tt)
  /\ valid_rand (rand_const 0)
  /\ solve (rand_const 0)
       (after_all [ CallSolve (rand_const 0); CallAttribute "c" [];
                    CallEqual ["a"; "b"]%string ["b"; "nope"]%string ]
          stale_before)
     = (complete_state
          (after_all [ CallSolve (rand_const 0); CallAttribute "c" [];
                       CallEqual ["a"; "b"]%string ["b"; "nope"]%string ]
             stale_before),
        Returned (mkSolution [true; true; false; false; false]))
  /\ (exists later,
        constraints
          (reset_state
             (complete_state
                (after_all [ CallSolve (rand_const 0); CallAttribute "c" [];
                             CallEqual ["a"; "b"]%string
                               ["b"; "nope"]%string ]
                   stale_before)))
        = constraints stale_before ++ later)
  /\ forall k, k ∈ constraints stale_before ->
       k ∈ constraints
             (complete_state
                (after_all [ CallSolve (rand_const 0); CallAttribute "c" [];
                             CallEqual ["a"; "b"]%string
                               ["b"; "nope"]%string ]
                   stale_before))
       /\ lo k
          <= true_literals
               (satisfyingAssignment
                  (mkSolution [true; true; false; false; false])) (clause k)
          <= hi k.
Proof.
  assert (H1 : clean_reachable
                 (after_all [CallAttribute "a" []; CallAttribute "b" []]
                    new_Problem))
    by (apply clean_reachable_after_all; [apply clean_new | reflexivity]).
  assert (Hc : clean_call (CallAssert "a") = true) by reflexivity.
  assert (Hcs : forallb clean_call
                  [ CallSolve (rand_const 0); CallAttribute "c" [];
                    CallEqual ["a"; "b"]%string ["b"; "nope"]%string ]
                = true) by reflexivity.
  assert (H2 : adds_constraint (CallAssert "a") = true) by reflexivity.
  assert (H3 : run_call (CallAssert "a")
                 (after_all [CallAttribute "a" []; CallAttribute "b" []]
                    new_Problem)
               = (stale_before, Returned tt)) by (vm_compute; reflexivity).
  assert (H4 : valid_rand (rand_const 0)) by (by apply valid_rand_const).
  assert (H5 : solve (rand_const 0)
                 (after_all [ CallSolve (rand_const 0); CallAttribute "c" [];
                              CallEqual ["a"; "b"]%string
                                ["b"; "nope"]%string ]
                    stale_before)
               = (complete_state
                    (after_all [ CallSolve (rand_const 0);
                                 CallAttribute "c" [];
                                 CallEqual ["a"; "b"]%string
                                   ["b"; "nope"]%string ]
                       stale_before),
                  Returned (mkSolution [true; true; false; false; false])))
    by (vm_compute; reflexivity).
  split; [exact H1|]. split; [exact Hc|]. split; [exact Hcs|].
  split; [exact H2|]. split; [exact H3|].
  split; [exact H4|]. split; [exact H5|].
  exact (constraints_are_never_forgotten (CallAssert "a") _ stale_before
           [ CallSolve (rand_const 0); CallAttribute "c" [];
             CallEqual ["a"; "b"]%string ["b"; "nope"]%string ]
           (rand_const 0) _
           (mkSolution [true; true; false; false; false])
           H1 Hc Hcs H2 H3 H4 H5).
Defined.

(** ** The initial assignment *)

Lemma rmapM_draws rand {A} (l : list A) : forall k,
  rmapM (fun _ => (let* r := random rand in rret (Qle_bool (1 # 2) r))%rand)
    l k
  = (map (fun i => Qle_bool (1 # 2) (rand i)) (seq k (length l)),
     (k + length l)%nat).
Proof.
  induction l as [|x l IH]; intros k.
  - cbn [rmapM length seq map]. unfold rret. f_equal. lia.
  - cbn [rmapM length seq map]. unfold rbind at 1. unfold rbind at 1.
    unfold random at 1. unfold rret at 1. unfold rbind at 1.
    rewrite IH. unfold rret. f_equal. lia.
Qed.

(** X22. A problem without constraints is solved at once: with no clause
    and no rule in the store, [solve()] returns without a single round of
    the loop; atom [0] is true and every other atom is true exactly when
    its own random number, drawn in order of the ids, was at least
    [0.5]. *)
Theorem solve_without_constraints rand p :
  constraints p = [] -> rules p = ∅ -> fromInternal p <> [] ->
  exists a,
    solve rand p = (complete_state p, Returned (mkSolution a))
    /\ fst (search rand (complete_state p) 0%nat) = (Returned a, 0%nat)
    /\ length a = length (fromInternal p)
    /\ a !! 0%nat = Some true
    /\ forall i, (1 <= i < length (fromInternal p))%nat ->
         a !! i = Some (Qle_bool (1 # 2) (rand i)).
Proof.
  intros Hc Hrules Hne.
  assert (Hcs : constraints (complete_state p) = []).
  { unfold complete_state. destruct (nonRuleConstraints p); [done|].
    cbn [constraints]. rewrite Hc, Hrules. reflexivity. }
  set (a := match map (fun i => Qle_bool (1 # 2) (rand i))
                    (seq 0 (length (fromInternal p))) with
            | [] => [true]
            | _ :: rest => true :: rest
            end).
  assert (Hsearch : fst (search rand (complete_state p) 0%nat)
                    = (Returned a, 0%nat)).
  { unfold search. unfold rbind at 1.
    rewrite rmapM_draws, complete_fromInternal, Hcs. fold a.
    unfold satisfies, score. cbn [foldl len length Z.of_nat Z.eqb].
    unfold rbind, rret. reflexivity. }
  exists a. split; [|split; [done|]].
  { unfold solve, bind, complete_rules. by rewrite Hsearch. }
  subst a. destruct (fromInternal p) as [|x names]; [done|].
  cbn [length seq map]. split; [by rewrite length_map, length_seq|].
  split; [done|]. intros i Hi. destruct i as [|i]; [lia|].
  change ((true :: map (fun i => Qle_bool (1 # 2) (rand i))
                     (seq 1 (length names))) !! S i)
    with (((fun i => Qle_bool (1 # 2) (rand i)) <$> seq 1 (length names))
            !! i).
  rewrite list_lookup_fmap, lookup_seq_lt by (cbn [length] in Hi; lia).
  done.
Qed.

(** The theorem at the cats, before any constraint. *)
Lemma solve_without_constraints_witness :
  constraints cats = [] /\ rules cats = ∅ /\ fromInternal cats <> []
  /\ exists a,
       solve (rand_const (3 # 4)) cats
       = (complete_state cats, Returned (mkSolution a))
       /\ fst (search (rand_const (3 # 4)) (complete_state cats) 0%nat)
          = (Returned a, 0%nat)
       /\ length a = length (fromInternal cats)
       /\ a !! 0%nat = Some true
       /\ forall i, (1 <= i < length (fromInternal cats))%nat ->
            a !! i = Some (Qle_bool (1 # 2) (rand_const (3 # 4) i)).
Proof.
  assert (H1 : constraints cats = []) by reflexivity.
  assert (H2 : rules cats = ∅) by reflexivity.
  assert (H3 : fromInternal cats <> []) by (vm_compute; discriminate).
  split; [exact H1|]. split; [exact H2|]. split; [exact H3|].
  exact (solve_without_constraints (rand_const (3 # 4)) cats H1 H2 H3).
Defined.

(** X23. No dangling ids: in every state a client can reach by calls that
    name no inherited property, the literals of the stored clauses and the
    heads and justifications of the rules name minted ids only, a rule head
    is never id [0], every attribute without an argument that is an
    inherited name, if the registry resolves it, has a minted id [>= 1],
    and [fromInternal] starts with the unnamed atom [0]. *)
Theorem no_dangling_ids p :
  clean_reachable p ->
  fromInternal p !! 0%nat = Some ""%string
  /\ (forall attr id,
        clean_attr attr = true ->
        lookupAttributeInMap attr (toInternal p) = Returned id ->
        (1 <= id < length (fromInternal p))%nat)
  /\ (forall c l, c ∈ constraints p -> l ∈ clause c ->
        (Z.abs_nat l < length (fromInternal p))%nat)
  /\ forall h js, rules p !! h = Some js ->
       (1 <= h < length (fromInternal p))%nat
       /\ forall j, j ∈ js -> (Z.abs_nat j < length (fromInternal p))%nat.
Proof.
  intros Hr%clean_reachable_reachable.
  destruct (wf_reachable p Hr) as [_ H1 H2 H3 _].
  split; [|split; [intros attr id _; apply H1|done]].
  clear H1 H2 H3. induction Hr as [|c p Hr IH]; [done|].
  destruct (extends_after c p) as [[names ->] _ _].
  by apply lookup_app_l_Some.
Qed.

(** The theorem at the negative loop after [solve()]. *)
Lemma no_dangling_ids_witness :
  clean_reachable (complete_state negloop)
  /\ fromInternal (complete_state negloop) !! 0%nat = Some ""%string
  /\ (forall attr id,
        clean_attr attr = true ->
        lookupAttributeInMap attr (toInternal (complete_state negloop))
        = Returned id ->
        (1 <= id < length (fromInternal (complete_state negloop)))%nat)
  /\ (forall c l, c ∈ constraints (complete_state negloop) -> l ∈ clause c ->
        (Z.abs_nat l < length (fromInternal (complete_state negloop)))%nat)
  /\ forall h js, rules (complete_state negloop) !! h = Some js ->
       (1 <= h < length (fromInternal (complete_state negloop)))%nat
       /\ forall j, j ∈ js ->
            (Z.abs_nat j < length (fromInternal (complete_state negloop)))%nat.
Proof.
  assert (H1 : clean_reachable (complete_state negloop)).
  { apply clean_reachable_solve,
      (clean_reachable_after_all negloop_calls new_Problem);
      [apply clean_new | reflexivity]. }
  split; [exact H1|].
  exact (no_dangling_ids (complete_state negloop) H1).
Defined.

(** ** Names and ids *)

Ltac hidden :=
  first [ by (exists 0%nat; cbn [replicate]; rewrite app_nil_r)
        | by (exists 1%nat) ].

Lemma hidden_only_quantify min max props p :
  hidden_only p (fst (quantify min max props p)).
Proof.
  rewrite quantify_eq. destruct (negb _); [hidden|].
  destruct (quantify_trivial _ _ _); [hidden|].
  destruct (traverse _ props); hidden.
Qed.

Lemma hidden_only_all props p : hidden_only p (fst (all props p)).
Proof.
  unfold all. destruct (_ =? _)%nat; [hidden|].
  apply hidden_only_quantify.
Qed.

Lemma hidden_only_equal a b p : hidden_only p (fst (equal a b p)).
Proof.
  destruct a as [|a1 [|a2 a]], b as [|b1 [|b2 b]];
    try apply hidden_only_all; try hidden.
  - rewrite equal_11_eq.
    destruct (lookup_in _ a1); [|hidden]. destruct (lookup_in _ b1); hidden.
  - rewrite equal_1n_eq. unfold equal_one.
    destruct (traverse _ _); [|hidden]. destruct (lookup_in _ _); hidden.
  - rewrite equal_n1_eq. unfold equal_one.
    destruct (traverse _ _); [|hidden]. destruct (lookup_in _ _); hidden.
  - rewrite equal_nn_eq. cbv zeta.
    destruct (traverse _ (a1 :: _)); [|hidden].
    destruct (traverse _ (b1 :: _)); hidden.
Qed.

Lemma hidden_only_rule conclusion premises p :
  hidden_only p (fst (rule conclusion premises p)).
Proof.
  rewrite rule_eq.
  destruct (lookup_in _ conclusion); [|hidden].
  destruct (traverse _ premises) as [prems|]; [|hidden].
  destruct (_ <? 0); [hidden|].
  destruct prems as [|prem [|prem2 prems]]; hidden.
Qed.

(** Only [attribute] names ids: any other call mints at most one id, and
    leaves it unnamed. *)
Lemma hidden_only_after c p :
  (forall name args, c <> CallAttribute name args) ->
  hidden_only p (after c p).
Proof.
  intros Hc. destruct c; try rewrite after_solve; unfold after, run_call.
  - by destruct (Hc name args).
  - apply hidden_only_quantify.
  - unfold exactly. destruct (negb _); [hidden|].
    destruct (_ =? _)%nat; [hidden|]. apply hidden_only_quantify.
  - apply hidden_only_all.
  - unfold atLeast. destruct (negb _); [hidden|].
    destruct (Qle_bool _ _); [hidden|]. apply hidden_only_quantify.
  - unfold atMost. destruct (negb _); [hidden|].
    destruct (Qle_bool _ _); [hidden|]. apply hidden_only_quantify.
  - unfold unique. destruct (_ =? _)%nat; [hidden|].
    apply hidden_only_quantify.
  - unfold inconsistent, atMost. destruct (negb _); [hidden|].
    destruct (Qle_bool _ _); [hidden|]. apply hidden_only_quantify.
  - rewrite implies_eq. destruct (lookup_in _ _); [|hidden].
    destruct (traverse _ _); hidden.
  - apply hidden_only_equal.
  - apply hidden_only_all.
  - apply hidden_only_rule.
  - exists 0%nat. cbn [replicate]. by rewrite complete_fromInternal, app_nil_r.
Qed.

Lemma tuples_NoDup args : Forall NoDup args -> NoDup (tuples args).
Proof.
  induction 1 as [|d args Hd _ IH]; cbn [tuples].
  - apply NoDup_singleton.
  - apply NoDup_bind; [| |done].
    + intros x1 x2 t _ _ (t1 & -> & _)%list_elem_of_fmap
        (t2 & [= -> _] & _)%list_elem_of_fmap. done.
    + intros x _. apply NoDup_fmap_2; [|done]. by intros t1 t2 [= ->].
Qed.

Lemma attribute_name_inj name t1 t2 :
  IDENT_REGEX name = true ->
  Forall (fun x => IDENT_REGEX x = true) t1 ->
  Forall (fun x => IDENT_REGEX x = true) t2 ->
  attribute_name name t1 = attribute_name name t2 -> t1 = t2.
Proof.
  intros Hname H1 H2 E.
  assert (Hs : forall t, Forall (fun x => IDENT_REGEX x = true) t ->
                 split_space (attribute_name name t) = name :: t).
  { intros t Ht. apply split_space_attribute_name.
    - by apply IDENT_REGEX_word.
    - eapply Forall_impl; [exact Ht|]. apply IDENT_REGEX_word. }
  pose proof (Hs t1 H1) as E1. rewrite E, (Hs t2 H2) in E1. congruence.
Qed.

Lemma minted_names_NoDup name args :
  IDENT_REGEX name = true ->
  (forall d x, d ∈ args -> x ∈ d -> IDENT_REGEX x = true) ->
  Forall NoDup args ->
  NoDup (attribute_name name <$> tuples args).
Proof.
  intros Hname Hargs Hnd. apply NoDup_fmap_2_strong; [|by apply tuples_NoDup].
  intros t1 t2 Ht1 Ht2. apply attribute_name_inj; [done| |];
    by eapply tuples_ident.
Qed.

Lemma names_resolve_attribute name args p :
  wf p -> Forall NoDup args -> names_resolve p ->
  names_resolve (fst (attribute name args p)).
Proof.
  intros Hwf Hnd Hp.
  destruct (attribute name args p) as [p' [[]|e]] eqn:Ha.
  2:{ replace p' with (fst (attribute name args p)) by (by rewrite Ha).
      rewrite (attribute_failure name args p e); [done|by rewrite Ha]. }
  cbn [fst]. pose proof (wf_nonempty p Hwf) as Hn.
  pose proof (attribute_names name args p p' Ha) as Hnames.
  destruct (attribute_success name args p p' Hn Ha)
    as (_ & Hname & Hargs & Hfree & p1 & slots & -> & G & _ & He).
  destruct He as (Hnamed & Hres & _ & _ & _ & Hdef).
  destruct G as (GtI & _).
  intros i attr Hi Hne.
  cbn [fromInternal toInternal set_slots_state] in *.
  rewrite GtI. rewrite Hnames in Hi.
  destruct (decide (i < length (fromInternal p))%nat) as [Hlt|Hge].
  - rewrite lookup_app_l in Hi by done.
    apply lookup_before_set; [done|by apply Hp].
  - rewrite lookup_app_r in Hi by lia.
    apply list_lookup_fmap_Some in Hi as (t & -> & Ht).
    assert (Hin : t ∈ tuples args) by (by eapply list_elem_of_lookup_2).
    pose proof (tuples_ident args t Hargs Hin) as Hid.
    destruct (Hres t Hin) as [id Hsw].
    rewrite (lookup_entry name t slots); try done;
      [|apply lookup_insert_eq].
    rewrite Hsw. f_equal.
    destruct (Hnamed (attribute_name name t) t id) as [Hle Hat]; [|done|].
    { apply split_space_attribute_name.
      - by apply IDENT_REGEX_word.
      - eapply Forall_impl; [exact Hid|]. apply IDENT_REGEX_word. }
    rewrite Hnames, lookup_app_r in Hat by done.
    eapply (NoDup_lookup (attribute_name name <$> tuples args)
              (id - length (fromInternal p))
              (i - length (fromInternal p))) in Hat.
    + lia.
    + by apply minted_names_NoDup.
    + rewrite list_lookup_fmap, Ht. done.
Qed.

Lemma names_resolve_after c p :
  wf p -> distinct_domains c -> names_resolve p -> names_resolve (after c p).
Proof.
  intros Hwf Hc Hp.
  assert (Hcase : (exists name args, c = CallAttribute name args)
                  \/ forall name args, c <> CallAttribute name args)
    by (destruct c; try (by right); left; by eexists _, _).
  destruct Hcase as [(name & args & ->)|Hc'].
  - by apply names_resolve_attribute.
  - destruct (same_registry_after c p Hc') as [EtI _].
    destruct (hidden_only_after c p Hc') as [k Ek].
    intros i attr Hi Hne. rewrite EtI. rewrite Ek in Hi.
    apply Hp; [|done].
    apply lookup_app_Some in Hi as [Hi|[_ Hi]]; [done|].
    apply lookup_replicate in Hi as [-> _]. done.
Qed.

Lemma names_resolve_after_all calls : forall p,
  wf p -> Forall distinct_domains calls -> names_resolve p ->
  names_resolve (after_all calls p).
Proof.
  induction calls as [|c calls IH]; intros p Hwf Hd Hp; [done|].
  apply Forall_cons in Hd as [Hc Hd]. cbn [after_all foldl].
  apply IH; [by apply wf_after|done|by apply names_resolve_after].
Qed.

(** X24. The registry and [fromInternal] are inverse to each other when
    no declaration lists an element twice in a domain: in the state any
    sequence of such calls leaves, an id with a non-empty name is what that
    name resolves to, so no two ids share a non-empty name. *)
Theorem names_resolve_to_their_ids calls i name :
  Forall distinct_domains calls ->
  fromInternal (after_all calls new_Problem) !! i = Some name ->
  name <> ""%string ->
  lookupAttributeInMap name (toInternal (after_all calls new_Problem))
  = Returned i
  /\ forall j, fromInternal (after_all calls new_Problem) !! j = Some name ->
       j = i.
Proof.
  intros Hd Hi Hne.
  assert (H : names_resolve (after_all calls new_Problem)).
  { apply names_resolve_after_all; [apply wf_new|done|].
    intros [|j] attr Hj Hattr; [by injection Hj as <-|done]. }
  split; [by apply H|]. intros j Hj.
  pose proof (H i name Hi Hne) as E1. pose proof (H j name Hj Hne) as E2.
  congruence.
Qed.

(** The theorem at the three cats and a hidden atom. *)
Lemma names_resolve_to_their_ids_witness :
  Forall distinct_domains
    [ CallAttribute "colored"
        [["celeste"; "nimbus"; "terra"];
         ["gray"; "black"; "white"; "orange"]]%string;
      CallEqual [ "colored terra gray"; "colored nimbus gray" ]%string
        [ "colored celeste gray"; "!colored celeste white" ]%string ]
  /\ fromInternal
       (after_all
          [ CallAttribute "colored"
              [["celeste"; "nimbus"; "terra"];
               ["gray"; "black"; "white"; "orange"]]%string;
            CallEqual [ "colored terra gray"; "colored nimbus gray" ]%string
              [ "colored celeste gray"; "!colored celeste white" ]%string ]
          new_Problem) !! 9%nat = Some "colored terra gray"%string
  /\ "colored terra gray"%string <> ""%string
  /\ lookupAttributeInMap "colored terra gray"
       (toInternal
          (after_all
             [ CallAttribute "colored"
                 [["celeste"; "nimbus"; "terra"];
                  ["gray"; "black"; "white"; "orange"]]%string;
               CallEqual
                 [ "colored terra gray"; "colored nimbus gray" ]%string
                 [ "colored celeste gray";
                   "!colored celeste white" ]%string ]
             new_Problem))
     = Returned 9%nat
  /\ forall j,
       fromInternal
         (after_all
            [ CallAttribute "colored"
                [["celeste"; "nimbus"; "terra"];
                 ["gray"; "black"; "white"; "orange"]]%string;
              CallEqual
                [ "colored terra gray"; "colored nimbus gray" ]%string
                [ "colored celeste gray";
                  "!colored celeste white" ]%string ]
            new_Problem) !! j = Some "colored terra gray"%string ->
       j = 9%nat.
Proof.
  assert (H1 : Forall distinct_domains
                 [ CallAttribute "colored"
                     [["celeste"; "nimbus"; "terra"];
                      ["gray"; "black"; "white"; "orange"]]%string;
                   CallEqual
                     [ "colored terra gray"; "colored nimbus gray" ]%string
                     [ "colored celeste gray";
                       "!colored celeste white" ]%string ]).
  { apply Forall_cons. split; [|by repeat constructor].
    cbn [distinct_domains].
    apply Forall_cons. split; [|apply Forall_cons; split; [|done]];
      apply (bool_decide_unpack _); vm_compute; exact I. }
  assert (H2 : fromInternal
                 (after_all
                    [ CallAttribute "colored"
                        [["celeste"; "nimbus"; "terra"];
                         ["gray"; "black"; "white"; "orange"]]%string;
                      CallEqual
                        [ "colored terra gray";
                          "colored nimbus gray" ]%string
                        [ "colored celeste gray";
                          "!colored celeste white" ]%string ]
                    new_Problem) !! 9%nat
               = Some "colored terra gray"%string)
    by (vm_compute; reflexivity).
  assert (H3 : "colored terra gray"%string <> ""%string) by discriminate.
  split; [exact H1|]. split; [exact H2|]. split; [exact H3|].
  exact (names_resolve_to_their_ids _ 9%nat "colored terra gray" H1 H2 H3).
Defined.

Lemma complete_toInternal p : toInternal (complete_state p) = toInternal p.
Proof. unfold complete_state. by destruct (nonRuleConstraints p). Qed.

(** X25. When no declaration lists an element twice in a domain and no
    call names an inherited property, the two views of a solution agree:
    an attribute without an argument that is an inherited name is in
    [trueAttributes] exactly when [lookup] returns [true] for it, whenever
    after [solve()], and whatever such calls came in between, the lookup
    is made. *)
Theorem trueAttributes_agree_with_lookup calls later rand p' s attr :
  Forall distinct_domains calls ->
  forallb clean_call calls = true -> forallb clean_call later = true ->
  clean_attr attr = true ->
  valid_rand rand ->
  solve rand (after_all calls new_Problem) = (p', Returned s) ->
  attr ∈ trueAttributes s p'
  <-> Solution_lookup s (after_all later p') attr = Returned true.
Proof.
  intros Hd _ _ _ Hrand Hs.
  assert (Hr : reachable (after_all calls new_Problem))
    by apply reachable_after_all, reachable_new.
  destruct (solve_model rand _ p' s Hr Hrand Hs)
    as (Ep & Hr' & Hl & H0 & _).
  split.
  - intros (Hne & i & Hi & HA & Hn)%trueAttributes_spec.
    assert (Hres : names_resolve (after_all calls new_Problem)).
    { apply names_resolve_after_all; [apply wf_new|done|].
      intros [|j] a Hj Ha; [by injection Hj as <-|done]. }
    rewrite Ep, complete_fromInternal in Hn.
    pose proof (Hres i attr Hn Hne) as Hlk.
    rewrite <- (complete_toInternal (after_all calls new_Problem)), <- Ep
      in Hlk.
    apply (ext_keeps _ _ (extends_after_all later p')) in Hlk.
    unfold Solution_lookup. rewrite Hlk.
    pose proof (lookup_lt_Some _ _ _ HA) as Hlt.
    destruct (_ <=? _)%nat eqn:E; [apply Nat.leb_le in E; lia|].
    by rewrite HA.
  - apply lookup_true_listed; [| |lia].
    + by apply reachable_after_all.
    + apply (ext_names _ _ (extends_after_all later p')).
Qed.

(** The theorem at the model of the negative loop in which [p] is true,
    looked up after a declaration. *)
Lemma trueAttributes_agree_with_lookup_witness :
  Forall distinct_domains negloop_calls
  /\ forallb clean_call negloop_calls = true
  /\ forallb clean_call [CallAttribute "r" []] = true
  /\ clean_attr "p" = true
  /\ valid_rand (rand_const 0)
  /\ solve (rand_const 0) (after_all negloop_calls new_Problem)
     = (complete_state negloop, Returned (mkSolution [true; true; false]))
  /\ ("p"%string ∈ trueAttributes (mkSolution [true; true; false])
                     (complete_state negloop)
      <-> Solution_lookup (mkSolution [true; true; false])
            (after_all [CallAttribute "r" []] (complete_state negloop)) "p"
          = Returned true).
Proof.
  assert (H1 : Forall distinct_domains negloop_calls)
    by (unfold negloop_calls; repeat constructor).
  assert (H2 : valid_rand (rand_const 0)) by (by apply valid_rand_const).
  assert (H3 : solve (rand_const 0) (after_all negloop_calls new_Problem)
               = (complete_state negloop,
                  Returned (mkSolution [true; true; false])))
    by (vm_compute; reflexivity).
  assert (Hc1 : forallb clean_call negloop_calls = true) by reflexivity.
  assert (Hc2 : forallb clean_call [CallAttribute "r" []] = true)
    by reflexivity.
  assert (Hc3 : clean_attr "p" = true) by reflexivity.
  split; [exact H1|]. split; [exact Hc1|]. split; [exact Hc2|].
  split; [exact Hc3|]. split; [exact H2|]. split; [exact H3|].
  exact (trueAttributes_agree_with_lookup negloop_calls
           [CallAttribute "r" []] (rand_const 0) (complete_state negloop)
           (mkSolution [true; true; false]) "p" H1 Hc1 Hc2 Hc3 H2 H3).
Defined.

(** X26. When a declaration succeeds: for a name that is not the name
    of an inherited property, [attribute(name, args)] returns exactly when
    there are at most three domains, the name and every element of every
    domain are identifiers, and the name is not declared yet; empty domains
    and repeated elements are accepted. *)
Theorem attribute_succeeds_iff name args p :
  name ∉ inherited_names ->
  (exists p', attribute name args p = (p', Returned tt))
  <-> (length args < 4)%nat /\ IDENT_REGEX name = true
      /\ (forall d x, d ∈ args -> x ∈ d -> IDENT_REGEX x = true)
      /\ ~ declared name p.
Proof.
  intros Hname.
  assert (Einh : reads_inherited (toInternal p) name = false).
  { unfold reads_inherited, inherited.
    destruct (toInternal p !! name); [done|].
    by apply bool_decide_eq_false_2. }
  unfold declared, attribute.
  destruct (4 <=? length args)%nat eqn:Ear.
  { apply Nat.leb_le in Ear. split; [by intros [p' H]|]. lia. }
  apply Nat.leb_gt in Ear.
  destruct (IDENT_REGEX name) eqn:Ename; cbn [negb].
  2:{ split; [by intros [p' H]|]. by intros (_ & H & _). }
  destruct (List.find _ (concat args)) as [bad|] eqn:Efind.
  { split; [by intros [p' H]|]. intros (_ & _ & Hargs & _). exfalso.
    apply find_some in Efind as [Hin Hbad].
    apply in_concat in Hin as (d & Hd & Hx).
    rewrite (Hargs d bad) in Hbad; [done| |]; by apply list_elem_of_In. }
  assert (Hargs : forall d x, d ∈ args -> x ∈ d -> IDENT_REGEX x = true).
  { intros d x Hd Hx.
    pose proof (find_none _ _ Efind x) as Hf.
    destruct (IDENT_REGEX x) eqn:Ex; [done|]. exfalso.
    assert (Hin : In x (concat args)).
    { apply in_concat. exists d. split; by apply list_elem_of_In. }
    specialize (Hf Hin). simpl in Hf. by rewrite Ex in Hf. }
  unfold bind at 1. unfold get at 1. cbv beta iota. rewrite Einh.
  destruct (toInternal p !! name ≫= slots_findIndex) eqn:Edecl.
  { split; [by intros [p' H]|]. intros (_ & _ & _ & H). by destruct H. }
  split; [intros _; repeat split; try done; by intros H|]. intros _.
  destruct args as [|d0 [|d1 [|d2 [|d3 args]]]]; [| | | |simpl in Ear; lia].
  - by eexists.
  - destruct (fold_names1 (sp name) d0 ∅ p) as (p1 & m & E & _).
    unfold bind at 1. rewrite E. by eexists.
  - destruct (fold_names2 (fun x y => sp (sp name x) y) d1 d0 ∅ p)
      as (p1 & m & E & _).
    unfold bind at 1. rewrite E. by eexists.
  - destruct (fold_names3 (fun x y z => sp (sp (sp name x) y) z) d1 d2 d0 ∅ p)
      as (p1 & m & E & _).
    unfold bind at 1. rewrite E. by eexists.
Qed.

(** The theorem at a second declaration over an empty domain, on the
    cats. *)
Lemma attribute_succeeds_iff_witness :
  ("sleepy"%string ∉ inherited_names)
  /\ ((exists p', attribute "sleepy" [[]; ["gray"; "gray"]%string] cats
                  = (p', Returned tt))
      <-> (length [[]; ["gray"; "gray"]%string] < 4)%nat
          /\ IDENT_REGEX "sleepy" = true
          /\ (forall d x, d ∈ [[]; ["gray"; "gray"]%string] -> x ∈ d ->
                 IDENT_REGEX x = true)
          /\ ~ declared "sleepy" cats).
Proof.
  assert (H1 : "sleepy"%string ∉ inherited_names)
    by (apply (bool_decide_unpack _); vm_compute; exact I).
  split; [exact H1|].
  exact (attribute_succeeds_iff "sleepy" [[]; ["gray"; "gray"]%string] cats
           H1).
Defined.

(** ** One round of the search *)

Lemma flip_insert (a : list bool) (i : nat) b :
  a !! i = Some b -> flip a (Z.of_nat i) = <[i := negb b]> a.
Proof.
  intros Hi. unfold flip.
  assert (E : (Z.of_nat i <? 0) = false) by (apply Z.ltb_ge; lia).
  rewrite E, Nat2Z.id.
  pose proof (lookup_lt_Some _ _ _ Hi) as Hlt.
  apply Nat.ltb_lt in Hlt. rewrite Hlt. by rewrite Hi.
Qed.

Lemma search_from_init rand p k :
  search rand p k
  = (let '(st, k') := search_init rand p k in
     search_loop rand (constraints p) (windowSize_of p) 50000 st k').
Proof.
  unfold search, search_init, windowSize_of, rbind, rret.
  destruct (rmapM _ (fromInternal p) k) as [drawn k1].
  by destruct (satisfies rand (constraints p) _ k1) as [res k2].
Qed.

Lemma visits_inv rand p st k :
  wf p -> valid_rand rand -> visits rand p st k ->
  loop_inv (constraints p) (length (fromInternal p)) st.
Proof.
  intros Hwf Hrand Hv. induction Hv as [st k Hi|st k r st' k' _ IH Hres Hb].
  - unfold search_init, rbind, rret in Hi.
    pose proof (rmapM_length
                  (fun _ : string => fun k0 =>
                     let '(a0, k') := random rand k0 in
                     rret (Qle_bool (1 # 2) a0) k')
                  (fromInternal p) 0%nat) as Hlen.
    destruct (rmapM _ (fromInternal p) 0%nat) as [drawn k1]. simpl in Hlen.
    set (a0 := match drawn with [] => [true] | _ :: rest => true :: rest end)
      in Hi.
    assert (Ha0 : length a0 = length (fromInternal p)
                  /\ a0 !! 0%nat = Some true).
    { subst a0. destruct drawn; simpl in *; [|by rewrite <- Hlen].
      pose proof (wf_nonempty p Hwf) as Hn. rewrite <- Hlen in Hn.
      simpl in Hn. lia. }
    destruct Ha0 as [Hl0 H00].
    pose proof (loop_inv_result rand (constraints p)
                  (length (fromInternal p)) a0 k1
                  (replicate (Z.to_nat (windowSize_of p)) 0)
                  0%Q 0%nat Hl0 H00) as Hinv.
    destruct (satisfies rand (constraints p) a0 k1) as [res k2].
    simpl in Hinv. by injection Hi as <- _.
  - destruct (loop_body_spec rand Hrand (constraints p)
                (length (fromInternal p)) (wf_atoms p Hwf)
                (windowSize_of p) st r k IH Hres) as [Hinv _].
    by rewrite Hb in Hinv.
Qed.

(** X27. A round of the search loop flips one atom: in [solve()] on a
    problem built by calls that name no inherited property, a run of the
    loop body leaves the assignment as it is only when it follows an
    undefined suggestion, and otherwise negates exactly one entry, at an
    index from [1] on; atom [0] and the length, one entry per id, never
    change. *)
Theorem round_flips_one_atom rand p st r k :
  clean_reachable p -> valid_rand rand ->
  visits rand (complete_state p) st k -> l_result st = Some r ->
  length (l_assignment st) = length (fromInternal p)
  /\ ((l_assignment
         (fst (loop_body rand (constraints (complete_state p))
                 (windowSize_of (complete_state p)) st r k))
       = l_assignment st
       /\ suggestion r = None
       /\ Qle_bool (rand k) (l_noise st) = false)
      \/ exists i b,
           (1 <= i < length (fromInternal p))%nat
           /\ l_assignment st !! i = Some b
           /\ l_assignment
                (fst (loop_body rand (constraints (complete_state p))
                        (windowSize_of (complete_state p)) st r k))
              = <[i := negb b]> (l_assignment st)).
Proof.
  intros Hclean Hrand Hv Hres.
  pose proof (wf_complete p (wf_reachable p
                (clean_reachable_reachable p Hclean))) as Hwf.
  pose proof (wf_atoms _ Hwf) as Hatoms.
  pose proof (visits_inv rand _ st k Hwf Hrand Hv) as Hinv.
  rewrite complete_fromInternal in Hinv, Hatoms.
  set (cs := constraints (complete_state p)) in *.
  set (w := windowSize_of (complete_state p)).
  set (n := length (fromInternal p)) in *.
  destruct Hinv as (Hl & H0 & Hr). split; [done|].
  rewrite Hres in Hr. destruct Hr as [Hcs Hr].
  unfold loop_body, rbind, random, rret.
  destruct (Qle_bool (rand k) (l_noise st)) eqn:Enoise; cbn [negb].
  - right. destruct (Hrand (S k)) as [R0 R1].
    pose proof (Hatoms Hcs) as Hn.
    pose proof (floor_scale_range (rand (S k))
                  (len (l_assignment st) - 1) R0 R1) as Hf.
    unfold len in *. rewrite Hl in *. specialize (Hf ltac:(lia)).
    set (g := Qfloor (rand (S k) * inject_Z (Z.of_nat n - 1))) in *.
    destruct (lookup_lt_is_Some_2 (l_assignment st) (Z.to_nat (1 + g)))
      as [b Hb]; [lia|].
    exists (Z.to_nat (1 + g)), b. split; [lia|]. split; [done|].
    destruct (satisfies rand cs _ _) as [res k2] eqn:Es. cbn [fst l_assignment].
    rewrite <- (flip_insert _ _ _ Hb). f_equal. lia.
  - destruct (suggestion r) as [i|] eqn:Esug.
    + right. specialize (Hr i eq_refl).
      destruct (lookup_lt_is_Some_2 (l_assignment st) i) as [b Hb]; [lia|].
      exists i, b. split; [done|]. split; [done|].
      destruct (satisfies rand cs _ _) as [res k2] eqn:Es.
      cbn [fst l_assignment flip_suggestion]. by apply flip_insert.
    + left. destruct (satisfies rand cs _ _) as [res k2] eqn:Es.
      by cbn [fst l_assignment flip_suggestion].
Qed.

(** The theorem at the first round on [two_against_one], all random
    numbers being [0]: the random branch flips atom [1]. *)
Lemma round_flips_one_atom_witness :
  clean_reachable two_against_one /\ valid_rand (rand_const 0)
  /\ visits (rand_const 0) (complete_state two_against_one) first_round 4
  /\ l_result first_round
     = Some {| clausesSatisfied := 0; suggestion := Some 2%nat |}
  /\ length (l_assignment first_round)
     = length (fromInternal two_against_one)
  /\ ((l_assignment
         (fst (loop_body (rand_const 0)
                 (constraints (complete_state two_against_one))
                 (windowSize_of (complete_state two_against_one))
                 first_round
                 {| clausesSatisfied := 0; suggestion := Some 2%nat |}
                 4%nat))
       = l_assignment first_round
       /\ suggestion {| clausesSatisfied := 0; suggestion := Some 2%nat |}
          = None
       /\ Qle_bool (rand_const 0 4%nat) (l_noise first_round) = false)
      \/ exists i b,
           (1 <= i < length (fromInternal two_against_one))%nat
           /\ l_assignment first_round !! i = Some b
           /\ l_assignment
                (fst (loop_body (rand_const 0)
                        (constraints (complete_state two_against_one))
                        (windowSize_of (complete_state two_against_one))
                        first_round
                        {| clausesSatisfied := 0; suggestion := Some 2%nat |}
                        4%nat))
              = <[i := negb b]> (l_assignment first_round)).
Proof.
  assert (H1 : clean_reachable two_against_one)
    by (apply clean_reachable_after_all; [apply clean_new | reflexivity]).
  assert (H2 : valid_rand (rand_const 0)) by (by apply valid_rand_const).
  assert (H3 : visits (rand_const 0) (complete_state two_against_one)
                 first_round 4)
    by (apply visits_init; vm_compute; reflexivity).
  assert (H4 : l_result first_round
               = Some {| clausesSatisfied := 0; suggestion := Some 2%nat |})
    by reflexivity.
  split; [exact H1|]. split; [exact H2|]. split; [exact H3|].
  split; [exact H4|].
  exact (round_flips_one_atom (rand_const 0) two_against_one first_round _
           4%nat H1 H2 H3 H4).
Defined.

(** ** Solutions of problems that name no inherited property *)

(** X28. Soundness of the solutions of a problem built by calls that
    name no inherited property: whenever [solve()] returns a [Solution],
    every clause [(lo, hi, L)] of the constraint store, the
    completion clauses included, has between [lo] and [hi] literals that
    are true under the returned assignment, where the literal [0] is true,
    a positive literal is true when its atom is assigned [true] and a
    negative literal when its atom is assigned [false]. *)
Theorem solve_soundness rand p p' s :
  clean_reachable p -> valid_rand rand ->
  solve rand p = (p', Returned s) ->
  forall c, c ∈ constraints p' ->
    lo c <= true_literals (satisfyingAssignment s) (clause c) <= hi c.
Proof.
  intros Hreach%clean_reachable_reachable Hrand Hs c Hc.
  pose proof (wf_reachable p Hreach) as Hwf.
  destruct (solve_sound_wf rand p p' s Hwf Hrand Hs) as (-> & Hl & H0 & Hall).
  pose proof (wf_complete p Hwf) as Hwf'.
  rewrite forallb_forall in Hall.
  assert (Hin : In c (constraints (complete_state p)))
    by by apply list_elem_of_In.
  apply Hall in Hin. unfold clause_sat in Hin.
  rewrite count_spec in Hin; [lia|done|].
  intros l Hlc. rewrite Hl.
  replace (length (fromInternal p))
    with (length (fromInternal (complete_state p)))
    by (unfold complete_state; by destruct (nonRuleConstraints p)).
  by eapply (wf_clauses _ Hwf').
Qed.

(** The theorem at the negative-loop problem, with [Math.random()]
    returning [0] every time. *)
Lemma solve_soundness_witness :
  clean_reachable negloop /\ valid_rand (rand_const 0)
  /\ solve (rand_const 0) negloop
     = (complete_state negloop, Returned (mkSolution [true; true; false]))
  /\ forall c, c ∈ constraints (complete_state negloop) ->
       lo c <= true_literals [true; true; false] (clause c) <= hi c.
Proof.
  assert (Hr : clean_reachable negloop)
    by (apply (clean_reachable_after_all negloop_calls new_Problem);
        [apply clean_new | reflexivity]).
  assert (Hv : valid_rand (rand_const 0)) by (by apply valid_rand_const).
  assert (Hs : solve (rand_const 0) negloop
               = (complete_state negloop,
                  Returned (mkSolution [true; true; false])))
    by (vm_compute; reflexivity).
  split; [exact Hr|]. split; [exact Hv|]. split; [exact Hs|].
  exact (solve_soundness (rand_const 0) negloop (complete_state negloop)
           (mkSolution [true; true; false]) Hr Hv Hs).
Defined.

(** X29. Stale lookup in a problem on which no call names an inherited
    property: for an attribute without an argument that is an inherited
    name, a [Solution] answers [lookup] with the assigned value if the
    attribute resolved when the solution was produced, and throws if it
    resolves now but did not then (its id was minted later), whatever such
    calls, further constraints and further [solve()]s included, the
    [Problem] has received since. *)
Theorem solution_lookup_stale rand p p1 s calls attr :
  clean_reachable p -> forallb clean_call calls = true ->
  clean_attr attr = true ->
  valid_rand rand -> solve rand p = (p1, Returned s) ->
  (forall id,
     lookupAttributeInMap attr (toInternal p1) = Returned id ->
     exists b,
       satisfyingAssignment s !! id = Some b
       /\ Solution_lookup s (after_all calls p1) attr = Returned b)
  /\ (forall id,
        lookupAttributeInMap attr (toInternal (after_all calls p1))
          = Returned id ->
        threw (lookupAttributeInMap attr (toInternal p1))
        \/ (length (fromInternal p1) <= id)%nat ->
        Solution_lookup s (after_all calls p1) attr
        = Threw (DefinedAfterSolution attr)).
Proof.
  intros Hreach%clean_reachable_reachable _ _ Hrand Hs.
  pose proof (wf_reachable p Hreach) as Hwf.
  destruct (solve_sound_wf rand p p1 s Hwf Hrand Hs) as (-> & Hl & _ & _).
  pose proof (wf_complete p Hwf) as Hwf1.
  assert (Hlen : length (fromInternal (complete_state p))
                 = length (satisfyingAssignment s)).
  { rewrite Hl. unfold complete_state. by destruct (nonRuleConstraints p). }
  destruct (extends_after_all calls (complete_state p)) as [_ Hkeep Hfresh].
  unfold Solution_lookup. split.
  - intros id Hid. pose proof (wf_registry _ Hwf1 attr id Hid) as Hrange.
    rewrite (Hkeep attr id Hid).
    destruct (lookup_lt_is_Some_2 (satisfyingAssignment s) id) as [b Hb];
      [lia|].
    exists b. split; [done|].
    assert (E : (length (satisfyingAssignment s) <=? id)%nat = false)
      by (apply Nat.leb_gt; lia).
    by rewrite E, Hb.
  - intros id Hid Hlate. rewrite Hid.
    assert (Hge : (length (fromInternal (complete_state p)) <= id)%nat).
    { destruct Hlate as [[e He]|Hge]; [|done].
      destruct (Hfresh attr id Hid) as [Hold|Hge]; [congruence|done]. }
    assert (E : (length (satisfyingAssignment s) <=? id)%nat = true)
      by (apply Nat.leb_le; lia).
    by rewrite E.
Qed.

(** The theorem at the attribute [c], declared after the solution. *)
Lemma solution_lookup_stale_witness :
  clean_reachable stale_before
  /\ forallb clean_call stale_later = true
  /\ clean_attr "c" = true
  /\ valid_rand (rand_const 0)
  /\ solve (rand_const 0) stale_before
     = (complete_state stale_before,
        Returned (mkSolution [true; true; false]))
  /\ (forall id,
        lookupAttributeInMap "c" (toInternal (complete_state stale_before))
          = Returned id ->
        exists b,
          [true; true; false] !! id = Some b
          /\ Solution_lookup (mkSolution [true; true; false])
               (after_all stale_later (complete_state stale_before)) "c"
             = Returned b)
  /\ (forall id,
        lookupAttributeInMap "c"
          (toInternal (after_all stale_later (complete_state stale_before)))
          = Returned id ->
        threw (lookupAttributeInMap "c"
                 (toInternal (complete_state stale_before)))
        \/ (length (fromInternal (complete_state stale_before)) <= id)%nat ->
        Solution_lookup (mkSolution [true; true; false])
          (after_all stale_later (complete_state stale_before)) "c"
        = Threw (DefinedAfterSolution "c")).
Proof.
  assert (Hr : clean_reachable stale_before)
    by (apply (clean_reachable_after_all stale_calls new_Problem);
        [apply clean_new | reflexivity]).
  assert (Hc : forallb clean_call stale_later = true) by reflexivity.
  assert (Ha : clean_attr "c" = true) by reflexivity.
  assert (Hv : valid_rand (rand_const 0)) by (by apply valid_rand_const).
  assert (Hs : solve (rand_const 0) stale_before
               = (complete_state stale_before,
                  Returned (mkSolution [true; true; false])))
    by (vm_compute; reflexivity).
  split; [exact Hr|]. split; [exact Hc|]. split; [exact Ha|].
  split; [exact Hv|]. split; [exact Hs|].
  exact (solution_lookup_stale (rand_const 0) stale_before
           (complete_state stale_before) (mkSolution [true; true; false])
           stale_later "c" Hr Hc Ha Hv Hs).
Defined.
